(** * Graphology reference implementation: the entity store, the structure
      index and the query primitives of [src/graph.js], embedded in Rocq.

    The [Graph] class keeps its nodes and its edges in two JavaScript
    objects (or ES2015 [Map]s when the [map] option is set) used as
    dictionaries; both are finite maps here.  Methods mutate the instance
    and may throw: a method is a function from the state of the instance to
    an outcome (a value or the error thrown) and the state it leaves. *)

From stdpp Require Import base option list gmap strings fin_maps.
From Stdlib Require Import ZArith.

Local Open Scope Z_scope.

(** ** JavaScript values the class manipulates *)

(** A counter field of a node record: absent ([undefined]), or a number,
    which may be [NaN]. *)
Inductive jsnum : Type :=
| Undefined
| NaN
| Num (z : Z).

#[global] Instance jsnum_eq_dec : EqDecision jsnum.
Proof. solve_decision. Defined.

(** [a + b] on such values: [undefined] converts to [NaN], and [NaN]
    absorbs. *)
Definition js_add (a b : jsnum) : jsnum :=
  match a, b with
  | Num x, Num y => Num (x + y)
  | _, _ => NaN
  end.

(** [x++] and [x--] as statements: the field receives [ToNumber(x) ± 1]. *)
Definition js_incr (a : jsnum) : jsnum := js_add a (Num 1).
Definition js_decr (a : jsnum) : jsnum := js_add a (Num (-1)).

(** Keys of nodes and of edges.  In an object store they are property
    names; the empty string is a legal property name.  The ids this
    embedding speaks of are strings: ids of other types, which an object
    store converts to property names while [===] still tells them apart
    ([1] and ['1']), are outside it. *)
Abbreviation Key := string (only parsing).

(** Truthiness of a key, as tested by [if (edge)]: the empty string is
    falsy. *)
Definition truthy (k : Key) : bool := negb (String.eqb k EmptyString).

(** What a caller may pass as the [attributes] argument. *)
Inductive AttrArg : Type :=
| AttrUndefined                    (* undefined, or argument left out *)
| AttrObject (a : gmap string string)   (* a plain object *)
| AttrOther (is_truthy : bool).    (* any other value: 42, 'x', [], null, 0 *)

(** [attributes || {}]; the result is what gets stored, when the value is
    not a plain object the [AttrOther] marker is kept for the check that
    follows. *)
Definition attr_or_empty (a : AttrArg) : AttrArg :=
  match a with
  | AttrUndefined => AttrObject ∅
  | AttrObject o => AttrObject o
  | AttrOther true => AttrOther true
  | AttrOther false => AttrObject ∅
  end.

(** Modelled from the spec: [isPlainObject] of [utils.js], which is not in
    src/: true of plain mappings only. *)
Definition isPlainObject (a : AttrArg) : bool :=
  match a with AttrObject _ => true | _ => false end.

Definition attr_stored (a : AttrArg) : gmap string string :=
  match a with AttrObject o => o | _ => ∅ end.

(** ** Records *)

(** An adjacency register: neighbour key to the set of connecting edges.
    A set of edge keys ([BasicSet] of [utils.js], or an ES2015 [Set]) keeps
    its insertion order: it is a duplicate-free list, oldest first. *)
Abbreviation Register := (gmap string (list string)) (only parsing).

Record NodeData : Type := mkNodeData {
  n_attributes : gmap string string;
  n_selfLoops : jsnum;
  n_inDegree : jsnum;
  n_outDegree : jsnum;
  n_undirectedDegree : jsnum;
  n_out : option Register;
  n_in : option Register;
  n_undirectedOut : option Register;
  n_undirectedIn : option Register
}.

Record EdgeData : Type := mkEdgeData {
  e_undirected : bool;
  e_attributes : gmap string string;
  e_source : string;
  e_target : string
}.

(** The ['directed'], ['undirected'] and ['mixed'] values of the [type]
    option. *)
Inductive GraphType : Type := Directed | Undirected | Mixed.

#[global] Instance GraphType_eq_dec : EqDecision GraphType.
Proof. solve_decision. Defined.

(** The options solved by the constructor. *)
Record Options : Type := mkOptions {
  edgeKeyGenerator : bool -> string -> string -> AttrArg -> string;
  map : bool;
  multi : bool;
  type : GraphType;
  selfLoops : bool
}.

Record IndexState : Type := mkIndexState {
  computed : bool;
  synchronized : bool
}.

Record Graph : Type := mkGraph {
  _options : Options;
  _order : Z;
  _size : Z;
  _nodes : gmap string NodeData;
  _edges : gmap string EdgeData;
  _indices_structure : IndexState;
  _indices_neighbors : IndexState
}.

(** [new Graph(null, options)]. *)
Definition new_Graph (o : Options) : Graph :=
  {| _options := o;
     _order := 0;
     _size := 0;
     _nodes := ∅;
     _edges := ∅;
     _indices_structure := {| computed := false; synchronized := true |};
     _indices_neighbors := {| computed := false; synchronized := true |} |}.

(** The read-only properties. *)
Definition order (g : Graph) : Z := _order g.
Definition size_ (g : Graph) : Z := _size g.

(** ** Methods as state transformers that may throw *)

(** The three errors of [errors.js], and the [TypeError] the engine raises
    when a property is read from [undefined]. *)
Inductive GraphError : Type :=
| InvalidArgumentsGraphError
| NotFoundGraphError
| UsageGraphError
| TypeError.

Inductive Outcome (A : Type) : Type :=
| Return (a : A)
| Throw (e : GraphError).
Arguments Return {A} a.
Arguments Throw {A} e.

Definition M (A : Type) : Type := Graph -> Outcome A * Graph.

Definition ret {A} (a : A) : M A := fun g => (Return a, g).
Definition throw {A} (e : GraphError) : M A := fun g => (Throw e, g).
Definition bind {A B} (m : M A) (k : A -> M B) : M B :=
  fun g => match m g with
           | (Return a, g') => k a g'
           | (Throw e, g') => (Throw e, g')
           end.
Definition get : M Graph := fun g => (Return g, g).
Definition modify (f : Graph -> Graph) : M unit := fun g => (Return tt, f g).

Notation "'do' x <- m ; k" := (bind m (fun x => k))
  (at level 10, x name, m at level 100, k at level 200).
Notation "m ;; k" := (bind m (fun _ => k))
  (at level 100, k at level 200, right associativity).

Definition state_after {A} (m : M A) (g : Graph) : Graph := snd (m g).
Definition outcome_of {A} (m : M A) (g : Graph) : Outcome A := fst (m g).

(** ** Field updates *)

Definition set_selfLoops (f : jsnum -> jsnum) (d : NodeData) : NodeData :=
  mkNodeData (n_attributes d) (f (n_selfLoops d)) (n_inDegree d) (n_outDegree d)
    (n_undirectedDegree d) (n_out d) (n_in d) (n_undirectedOut d) (n_undirectedIn d).
Definition set_inDegree (f : jsnum -> jsnum) (d : NodeData) : NodeData :=
  mkNodeData (n_attributes d) (n_selfLoops d) (f (n_inDegree d)) (n_outDegree d)
    (n_undirectedDegree d) (n_out d) (n_in d) (n_undirectedOut d) (n_undirectedIn d).
Definition set_outDegree (f : jsnum -> jsnum) (d : NodeData) : NodeData :=
  mkNodeData (n_attributes d) (n_selfLoops d) (n_inDegree d) (f (n_outDegree d))
    (n_undirectedDegree d) (n_out d) (n_in d) (n_undirectedOut d) (n_undirectedIn d).
Definition set_undirectedDegree (f : jsnum -> jsnum) (d : NodeData) : NodeData :=
  mkNodeData (n_attributes d) (n_selfLoops d) (n_inDegree d) (n_outDegree d)
    (f (n_undirectedDegree d)) (n_out d) (n_in d) (n_undirectedOut d) (n_undirectedIn d).

(** The four adjacency registers of a node record. *)
Inductive RegKey : Type := out | in_ | undirectedOut | undirectedIn.

#[global] Instance RegKey_eq_dec : EqDecision RegKey.
Proof. solve_decision. Defined.

Definition get_register (r : RegKey) (d : NodeData) : option Register :=
  match r with
  | out => n_out d
  | in_ => n_in d
  | undirectedOut => n_undirectedOut d
  | undirectedIn => n_undirectedIn d
  end.

Definition set_register (r : RegKey)
    (f : option Register -> option Register)
    (d : NodeData) : NodeData :=
  match r with
  | out =>
      mkNodeData (n_attributes d) (n_selfLoops d) (n_inDegree d) (n_outDegree d)
        (n_undirectedDegree d) (f (n_out d)) (n_in d) (n_undirectedOut d) (n_undirectedIn d)
  | in_ =>
      mkNodeData (n_attributes d) (n_selfLoops d) (n_inDegree d) (n_outDegree d)
        (n_undirectedDegree d) (n_out d) (f (n_in d)) (n_undirectedOut d) (n_undirectedIn d)
  | undirectedOut =>
      mkNodeData (n_attributes d) (n_selfLoops d) (n_inDegree d) (n_outDegree d)
        (n_undirectedDegree d) (n_out d) (n_in d) (f (n_undirectedOut d)) (n_undirectedIn d)
  | undirectedIn =>
      mkNodeData (n_attributes d) (n_selfLoops d) (n_inDegree d) (n_outDegree d)
        (n_undirectedDegree d) (n_out d) (n_in d) (n_undirectedOut d) (f (n_undirectedIn d))
  end.

Definition with_nodes (f : gmap string NodeData -> gmap string NodeData) (g : Graph) : Graph :=
  mkGraph (_options g) (_order g) (_size g) (f (_nodes g)) (_edges g)
    (_indices_structure g) (_indices_neighbors g).
Definition with_edges (f : gmap string EdgeData -> gmap string EdgeData) (g : Graph) : Graph :=
  mkGraph (_options g) (_order g) (_size g) (_nodes g) (f (_edges g))
    (_indices_structure g) (_indices_neighbors g).
Definition with_order (f : Z -> Z) (g : Graph) : Graph :=
  mkGraph (_options g) (f (_order g)) (_size g) (_nodes g) (_edges g)
    (_indices_structure g) (_indices_neighbors g).
Definition with_size (f : Z -> Z) (g : Graph) : Graph :=
  mkGraph (_options g) (_order g) (f (_size g)) (_nodes g) (_edges g)
    (_indices_structure g) (_indices_neighbors g).
Definition set_computed (b : bool) (i : IndexState) : IndexState :=
  mkIndexState b (synchronized i).
Definition with_structure (f : IndexState -> IndexState) (g : Graph) : Graph :=
  mkGraph (_options g) (_order g) (_size g) (_nodes g) (_edges g)
    (f (_indices_structure g)) (_indices_neighbors g).
Definition with_neighbors (f : IndexState -> IndexState) (g : Graph) : Graph :=
  mkGraph (_options g) (_order g) (_size g) (_nodes g) (_edges g)
    (_indices_structure g) (f (_indices_neighbors g)).

(** ** The structure index ([indices.js]) *)

(** Modelled from the spec: the [INDICES] constant of [indices.js], which is
    not in src/.  The recognised names are those of the [_indices] table the
    constructor builds. *)
Definition INDICES_has (name : string) : bool :=
  String.eqb name "structure" || String.eqb name "neighbors".

(** Modelled from the spec: [add] of the edge-key sets ([BasicSet] of
    [utils.js], not in src/): a set keeps one copy, in insertion order. *)
Definition set_add (e : string) (s : list string) : list string :=
  if bool_decide (e ∈ s) then s else s ++ [e].

(** Modelled from the spec: [delete] of the edge-key sets. *)
Definition set_delete (e : string) (s : list string) : list string :=
  filter (λ x, x ≠ e) s.

(** Insert [e] in the set a register holds for neighbour [k]; the register
    and the set are created on demand. *)
Definition register_insert (k e : string)
    (r : option Register) : option Register :=
  let r0 := default ∅ r in
  Some (<[k := set_add e (default [] (r0 !! k))]> r0).

(** Remove [e] from the set a register holds for neighbour [k]; a set left
    empty is pruned from the register. *)
Definition register_remove (k e : string)
    (r : option Register) : option Register :=
  match r with
  | None => None
  | Some r0 =>
      match r0 !! k with
      | None => Some r0
      | Some s =>
          match set_delete e s with
          | [] => Some (delete k r0)
          | s' => Some (<[k := s']> r0)
          end
      end
  end.

Definition outKey (undirected : bool) : RegKey :=
  if undirected then undirectedOut else out.
Definition inKey (undirected : bool) : RegKey :=
  if undirected then undirectedIn else in_.

(** Modelled from the spec: [updateStructureIndex] of [indices.js], which is
    not in src/.  Spec 4.2 and 4.3: the edge key enters the register [out]
    (or [undirectedOut]) of its source under the target, and the register
    [in] (or [undirectedIn]) of its target under the source, nested
    registers being created on demand. *)
Definition updateStructureIndex (edge : string) (data : EdgeData)
    (nodes : gmap string NodeData) : gmap string NodeData :=
  let s := e_source data in
  let t := e_target data in
  let u := e_undirected data in
  alter (set_register (inKey u) (register_insert s edge)) t
    (alter (set_register (outKey u) (register_insert t edge)) s nodes).

(** Modelled from the spec: [clearEdgeFromStructureIndex] of [indices.js],
    which is not in src/.  Spec 4.2: the edge key leaves the adjacency
    registers, now-empty nested registers being pruned. *)
Definition clearEdgeFromStructureIndex (edge : string) (data : EdgeData)
    (nodes : gmap string NodeData) : gmap string NodeData :=
  let s := e_source data in
  let t := e_target data in
  let u := e_undirected data in
  alter (set_register (inKey u) (register_remove s edge)) t
    (alter (set_register (outKey u) (register_remove t edge)) s nodes).

Definition drop_registers (d : NodeData) : NodeData :=
  mkNodeData (n_attributes d) (n_selfLoops d) (n_inDegree d) (n_outDegree d)
    (n_undirectedDegree d) None None None None.

(** Modelled from the spec: [clearStructureIndex] of [indices.js], which is
    not in src/.  Spec 4.3: all registers are discarded. *)
Definition clearStructureIndex (nodes : gmap string NodeData) : gmap string NodeData :=
  drop_registers <$> nodes.

(** ** Read methods *)

(** [k in store] for an object store, [store.has(k)] for a [Map]:
    membership among the keys the instance has stored.  An object store
    also answers true for the names it inherits from [Object.prototype];
    the module [Inherited] below embeds the methods with those names taken
    into account, and both embeddings agree on every other key. *)
Definition has {V} (store : gmap string V) (k : string) : bool :=
  bool_decide (is_Some (store !! k)).

Definition hasNode (node : string) : M bool :=
  do g <- get;
  let nodeInGraph :=
    if map (_options g) then has (_nodes g) node else has (_nodes g) node in
  ret nodeInGraph.

(** [this._nodes[node]] followed by a property read: a [TypeError] when the
    record is missing. *)
Definition nodeData (node : string) : M NodeData :=
  do g <- get;
  match _nodes g !! node with
  | Some data => ret data
  | None => throw TypeError
  end.

Definition edgeData (edge : string) : M EdgeData :=
  do g <- get;
  match _edges g !! edge with
  | Some data => ret data
  | None => throw TypeError
  end.

Fixpoint for_each {A} (l : list A) (f : A -> M unit) : M unit :=
  match l with
  | [] => ret tt
  | x :: l' => f x ;; for_each l' f
  end.

Definition _updateIndex (name : string) (edge : string) (data : EdgeData) : M unit :=
  if negb (INDICES_has name) then throw InvalidArgumentsGraphError
  else if String.eqb name "structure" then
    do g <- get;
    let index := _indices_structure g in
    if negb (computed index) then ret tt
    else modify (with_nodes (updateStructureIndex edge data))
  else ret tt.

Definition _clearEdgeFromIndex (name : string) (edge : string) (data : EdgeData) : M unit :=
  if negb (INDICES_has name) then throw InvalidArgumentsGraphError
  else if String.eqb name "structure" then
    do g <- get;
    let index := _indices_structure g in
    if negb (computed index) then ret tt
    else modify (with_nodes (clearEdgeFromStructureIndex edge data))
  else ret tt.

(** The edges are visited in the order of [map_to_list]; the store's own
    enumeration order is not part of this model. *)
Definition computeIndex (name : string) : M unit :=
  if negb (INDICES_has name) then throw InvalidArgumentsGraphError
  else if String.eqb name "structure" then
    do g <- get;
    let index := _indices_structure g in
    if computed index then ret tt
    else
      modify (with_structure (set_computed true)) ;;
      for_each (map_to_list (_edges g))
        (fun '(edge, data) => _updateIndex name edge data)
  else ret tt.

Definition clearIndex (name : string) : M unit :=
  if negb (INDICES_has name) then throw InvalidArgumentsGraphError
  else if String.eqb name "structure" then
    do g <- get;
    let index := _indices_structure g in
    if negb (computed index) then ret tt
    else
      modify (with_nodes clearStructureIndex) ;;
      modify (with_structure (set_computed false))
  else ret tt.

(** [register[target]] when the register exists. *)
Definition register_get (register : option Register)
    (target : string) : option (list string) :=
  match register with
  | Some r => r !! target
  | None => None
  end.

(** Modelled from the spec: [first] of the edge-key sets: the oldest
    member. *)
Definition first (edges : list string) : option string := head edges.

Definition getDirectedEdge (source target : string) : M (option string) :=
  computeIndex "structure" ;;
  do hs <- hasNode source;
  do ht <- hasNode target;
  if negb hs || negb ht then ret None
  else
    do nodeData <- nodeData source;
    let register := n_out nodeData in
    match register with
    | None => ret None
    | Some r =>
        match r !! target with
        | None => ret None
        | Some edges =>
            if (length edges =? 0)%nat then ret None
            else ret (first edges)
        end
    end.

(** The edge set of the undirected lookups: [undirectedOut] first, then
    [undirectedIn] when the first gave nothing. *)
Definition undirected_edges (nodeData : NodeData) (target : string) : option (list string) :=
  let edges := register_get (n_undirectedOut nodeData) target in
  match edges with
  | Some e => Some e
  | None => register_get (n_undirectedIn nodeData) target
  end.

Definition getUndirectedEdge (source target : string) : M (option string) :=
  computeIndex "structure" ;;
  do hs <- hasNode source;
  do ht <- hasNode target;
  if negb hs || negb ht then ret None
  else
    do nodeData <- nodeData source;
    match undirected_edges nodeData target with
    | None => ret None
    | Some edges =>
        if (length edges =? 0)%nat then ret None
        else ret (first edges)
    end.

(** [if (edge)] on a key or [undefined]. *)
Definition truthy_edge (edge : option string) : bool :=
  match edge with
  | Some k => truthy k
  | None => false
  end.

Definition getEdge (source target : string) : M (option string) :=
  do g <- get;
  let type := type (_options g) in
  do edge <-
    (if bool_decide (type = Mixed) || bool_decide (type = Directed)
     then getDirectedEdge source target
     else ret None);
  if truthy_edge edge then ret edge
  else
    if bool_decide (type = Mixed) || bool_decide (type = Undirected)
    then getUndirectedEdge source target
    else ret edge.

(** [hasEdge] with one argument; the other arities are below. *)
Definition hasEdge1 (edge : string) : M bool :=
  do g <- get;
  ret (if map (_options g) then has (_edges g) edge else has (_edges g) edge).

Definition undirected (edge : string) : M bool :=
  do h <- hasEdge1 edge;
  if negb h then throw NotFoundGraphError
  else
    do data <- edgeData edge;
    ret (e_undirected data).

Definition directed (edge : string) : M bool :=
  do h <- hasEdge1 edge;
  if negb h then throw NotFoundGraphError
  else
    do u <- undirected edge;
    ret (negb u).

(** The methods dispatch on [arguments.length]: the argument list is
    explicit.  With one argument the source reads
    [this.map ? this._edges.has(edge) : edge in this._edges && this.directed(edge)],
    where [&&] binds tighter than [?:]. *)
Definition hasDirectedEdge (args : list string) : M bool :=
  match args with
  | [edge] =>
      do g <- get;
      if map (_options g) then ret (has (_edges g) edge)
      else
        if has (_edges g) edge then directed edge else ret false
  | [source; target] =>
      computeIndex "structure" ;;
      do hs <- hasNode source;
      do ht <- hasNode target;
      if negb hs || negb ht then ret false
      else
        do nodeData <- nodeData source;
        let register := n_out nodeData in
        match register with
        | None => ret false
        | Some r =>
            match r !! target with
            | None => ret false
            | Some edges => ret (negb (length edges =? 0)%nat)
            end
        end
  | _ => throw InvalidArgumentsGraphError
  end.

Definition hasUndirectedEdge (args : list string) : M bool :=
  match args with
  | [edge] =>
      do g <- get;
      if map (_options g) then ret (has (_edges g) edge)
      else
        if has (_edges g) edge then undirected edge else ret false
  | [source; target] =>
      computeIndex "structure" ;;
      do hs <- hasNode source;
      do ht <- hasNode target;
      if negb hs || negb ht then ret false
      else
        do nodeData <- nodeData source;
        match undirected_edges nodeData target with
        | None => ret false
        | Some edges => ret (negb (length edges =? 0)%nat)
        end
  | _ => throw InvalidArgumentsGraphError
  end.

Definition hasEdge (args : list string) : M bool :=
  match args with
  | [edge] => hasEdge1 edge
  | [source; target] =>
      do d <- hasDirectedEdge [source; target];
      if d then ret true else hasUndirectedEdge [source; target]
  | _ => throw InvalidArgumentsGraphError
  end.

(** What a caller may pass for the [selfLoops] flag of the degree methods;
    the parameter defaults to [true]. *)
Inductive FlagArg : Type :=
| FlagOmitted
| FlagBool (b : bool)
| FlagOther.

Definition flag_boolean (a : FlagArg) : option bool :=
  match a with
  | FlagOmitted => Some true
  | FlagBool b => Some b
  | FlagOther => None
  end.

(** The shared shape of the five degree methods: the check of the flag, the
    check of the node, then a sum over the record. *)
Definition degree_method (sum : NodeData -> jsnum) (node : string) (selfLoops : FlagArg) : M jsnum :=
  match flag_boolean selfLoops with
  | None => throw InvalidArgumentsGraphError
  | Some selfLoops =>
      do h <- hasNode node;
      if negb h then throw NotFoundGraphError
      else
        do data <- nodeData node;
        ret (js_add (sum data) (if selfLoops then n_selfLoops data else Num 0))
  end.

Definition inDegree : string -> FlagArg -> M jsnum :=
  degree_method (fun data => n_inDegree data).
Definition outDegree : string -> FlagArg -> M jsnum :=
  degree_method (fun data => n_outDegree data).
Definition directedDegree : string -> FlagArg -> M jsnum :=
  degree_method (fun data => js_add (n_outDegree data) (n_inDegree data)).
Definition undirectedDegree : string -> FlagArg -> M jsnum :=
  degree_method (fun data => n_undirectedDegree data).
Definition degree : string -> FlagArg -> M jsnum :=
  degree_method (fun data =>
    js_add (js_add (n_outDegree data) (n_inDegree data)) (n_undirectedDegree data)).

Definition source (edge : string) : M string :=
  do h <- hasEdge [edge];
  if negb h then throw NotFoundGraphError
  else
    do data <- edgeData edge;
    ret (e_source data).

Definition target (edge : string) : M string :=
  do h <- hasEdge [edge];
  if negb h then throw NotFoundGraphError
  else
    do data <- edgeData edge;
    ret (e_target data).

Definition extremities (edge : string) : M (string * string) :=
  do h <- hasEdge [edge];
  if negb h then throw NotFoundGraphError
  else
    do s <- source edge;
    do t <- target edge;
    ret (s, t).

Definition relatedNode (node edge : string) : M string :=
  do hn <- hasNode node;
  if negb hn then throw NotFoundGraphError
  else
    do he <- hasEdge [edge];
    if negb he then throw NotFoundGraphError
    else
      do ext <- extremities edge;
      let '(node1, node2) := ext in
      ret (if String.eqb node node1 then node2 else node1).

(** ** Mutation *)

(** [addNode(node)] has [attributes = None]; [addNode(node, a)] has
    [Some a], also when [a] is [undefined]. *)
Definition addNode (node : string) (attributes : option AttrArg) : M string :=
  if (match attributes with Some a => negb (isPlainObject a) | None => false end)
  then throw InvalidArgumentsGraphError
  else
    do h <- hasNode node;
    if h then throw UsageGraphError
    else
      do g <- get;
      let attributes := attr_stored (attr_or_empty (default AttrUndefined attributes)) in
      let type := type (_options g) in
      let data := mkNodeData attributes (Num 0) Undefined Undefined Undefined
                    None None None None in
      let data :=
        if bool_decide (type = Mixed) || bool_decide (type = Directed)
        then set_outDegree (fun _ => Num 0) (set_inDegree (fun _ => Num 0) data)
        else data in
      let data :=
        if bool_decide (type = Mixed) || bool_decide (type = Undirected)
        then set_undirectedDegree (fun _ => Num 0) data
        else data in
      modify (with_nodes (insert node data)) ;;
      modify (with_order Z.succ) ;;
      ret node.

(** A bunch as [overBunch] of [utils.js] (not in src/) decodes it: the
    nodes in order, each with the attributes handed to the callback; or
    a value [isBunch] refuses. *)
Inductive Bunch : Type :=
| NotABunch
| BunchOf (items : list (string * AttrArg)).

Definition addNodesFrom (bunch : Bunch) : M unit :=
  match bunch with
  | NotABunch => throw InvalidArgumentsGraphError
  | BunchOf items =>
      for_each items (fun '(node, attributes) =>
        addNode node (Some attributes) ;; ret tt)
  end.

Definition type_is (t : GraphType) (o : Options) : bool :=
  bool_decide (type o = t).

(** The public callers always hand six arguments, so the test
    [arguments.length > 5] holds. *)
Definition _addEdge (name : string) (undirected : bool) (edge source target : string)
    (attributes : AttrArg) : M string :=
  let attributes := attr_or_empty attributes in
  do g <- get;
  let o := _options g in
  if negb undirected && type_is Undirected o
  then throw UsageGraphError
  else if undirected && type_is Directed o
  then throw UsageGraphError
  else if negb (isPlainObject attributes)
  then throw InvalidArgumentsGraphError
  else
    do hs <- hasNode source;
    if negb hs then throw NotFoundGraphError
    else
      do ht <- hasNode target;
      if negb ht then throw NotFoundGraphError
      else
        do he <- hasEdge [edge];
        if he then throw UsageGraphError
        else if negb (selfLoops o) && String.eqb source target
        then throw UsageGraphError
        else
          do dup <-
            (if negb (multi o)
             then (if undirected
                   then hasUndirectedEdge [source; target]
                   else hasDirectedEdge [source; target])
             else ret false);
          if dup then throw UsageGraphError
          else
            let data := mkEdgeData undirected (attr_stored attributes) source target in
            modify (with_edges (insert edge data)) ;;
            modify (with_size Z.succ) ;;
            do sourceData <- nodeData source;
            do targetData <- nodeData target;
            (if String.eqb source target
             then modify (with_nodes (alter (set_selfLoops js_incr) source))
             else if undirected
             then
               modify (with_nodes (alter (set_undirectedDegree js_incr) source)) ;;
               modify (with_nodes (alter (set_undirectedDegree js_incr) target))
             else
               modify (with_nodes (alter (set_outDegree js_incr) source)) ;;
               modify (with_nodes (alter (set_inDegree js_incr) target))) ;;
            _updateIndex "structure" edge data ;;
            ret edge.

Definition is_undirected_type (g : Graph) : bool :=
  type_is Undirected (_options g).

Definition addEdgeWithKey (edge source target : string) (attributes : AttrArg) : M string :=
  do g <- get;
  _addEdge "addEdgeWithKey" (is_undirected_type g) edge source target attributes.

Definition addDirectedEdgeWithKey (edge source target : string) (attributes : AttrArg) : M string :=
  _addEdge "addDirectedEdgeWithKey" false edge source target attributes.

Definition addUndirectedEdgeWithKey (edge source target : string) (attributes : AttrArg) : M string :=
  _addEdge "addUndirectedEdgeWithKey" true edge source target attributes.

Definition addEdge (source target : string) (attributes : AttrArg) : M string :=
  do g <- get;
  let edge := edgeKeyGenerator (_options g) (is_undirected_type g) source target attributes in
  _addEdge "addEdge" (is_undirected_type g) edge source target attributes.

Definition addDirectedEdge (source target : string) (attributes : AttrArg) : M string :=
  do g <- get;
  let edge := edgeKeyGenerator (_options g) false source target attributes in
  _addEdge "addDirectedEdge" false edge source target attributes.

Definition addUndirectedEdge (source target : string) (attributes : AttrArg) : M string :=
  do g <- get;
  let edge := edgeKeyGenerator (_options g) false source target attributes in
  _addEdge "addUndirectedEdge" true edge source target attributes.

(** [data.counter--] on [data = this._nodes[node]], the record looked up
    beforehand: the lookup itself never throws, the decrement is a
    [TypeError] when it found no record. *)
Definition decrement (set : (jsnum -> jsnum) -> NodeData -> NodeData) (node : string) :
    M unit :=
  do g <- get;
  if has (_nodes g) node
  then modify (with_nodes (alter (set js_decr) node))
  else throw TypeError.

Definition dropEdge (edge : string) : M unit :=
  do h <- hasEdge [edge];
  if negb h then throw NotFoundGraphError
  else
    do data <- edgeData edge;
    modify (with_edges (delete edge)) ;;
    modify (with_size Z.pred) ;;
    let source := e_source data in
    let target := e_target data in
    let undirected := e_undirected data in
    (if String.eqb source target
     then decrement set_selfLoops source
     else if undirected
     then
       decrement set_undirectedDegree source ;;
       decrement set_undirectedDegree target
     else
       decrement set_outDegree source ;;
       decrement set_inDegree target) ;;
    _clearEdgeFromIndex "structure" edge data.

(** The keys of the edges attached to [node], each once. *)
Definition edges_of (node : string) (g : Graph) : list string :=
  (map_to_list (filter (λ '(_, data), e_source data = node ∨ e_target data = node) (_edges g))).*1.

(** Modelled from the spec: [edges(node)] of [iteration/edges.js], which is
    not in src/.  It is a structural query, and structural queries compute
    the structure index on demand (spec 4.3); it then answers the keys of
    the edges attached to [node], each once. *)
Definition edges (node : string) : M (list string) :=
  computeIndex "structure" ;;
  do g <- get;
  ret (edges_of node g).

Definition dropNode (node : string) : M unit :=
  do h <- hasNode node;
  if negb h then throw NotFoundGraphError
  else
    do edges <- edges node;
    for_each edges dropEdge ;;
    modify (with_nodes (delete node)) ;;
    modify (with_order Z.pred).

Definition clear : M unit :=
  modify (with_edges (fun _ => ∅)) ;;
  modify (with_nodes (fun _ => ∅)) ;;
  modify (with_order (fun _ => 0)) ;;
  modify (with_size (fun _ => 0)) ;;
  modify (with_structure (set_computed false)) ;;
  modify (with_neighbors (set_computed false)).

(** ** Inherited names on an object store

    The methods above take [k in store] as membership among the keys the
    instance has stored.  That is what a [Map] store answers; a store that
    is a plain object also answers true for the names every object
    inherits from [Object.prototype].  This module embeds [hasNode],
    [hasEdge], the readers of an edge, [relatedNode] and [dropEdge] with
    those names taken into account.  Away from them the two embeddings
    agree, which is proved further down. *)

Module Inherited.

(** The property names of [Object.prototype]. *)
Definition Object_prototype : list string :=
  ["constructor"; "hasOwnProperty"; "isPrototypeOf"; "propertyIsEnumerable";
   "toLocaleString"; "toString"; "valueOf"; "__proto__";
   "__defineGetter__"; "__defineSetter__"; "__lookupGetter__"; "__lookupSetter__"].

Definition inherited (k : string) : bool := bool_decide (k ∈ Object_prototype).

(** [k in store], the store being a plain object. *)
Definition in_object {V} (store : gmap string V) (k : string) : bool :=
  has store k || inherited k.

(** What [store[k]] (or [store.get(k)] on a [Map]) evaluates to: a record
    of the instance, an object of the runtime found through the prototype,
    or [undefined]. *)
Inductive Slot (V : Type) : Type :=
| Own (v : V)
| Runtime
| Absent.
Arguments Own {V} v.
Arguments Runtime {V}.
Arguments Absent {V}.

Definition slot {V} (map : bool) (store : gmap string V) (k : string) : Slot V :=
  match store !! k with
  | Some v => Own v
  | None => if negb map && inherited k then Runtime else Absent
  end.

(** A value read from the [source] or [target] field of what the edge store
    answered: the objects of the runtime have no such field. *)
Inductive Value : Type :=
| VUndefined
| VString (s : string).

(** [a === b]. *)
Definition strict_eq (a b : Value) : bool :=
  match a, b with
  | VUndefined, VUndefined => true
  | VString x, VString y => String.eqb x y
  | _, _ => false
  end.

(** The property name a value used as a key of an object converts to. *)
Definition property_name (v : Value) : string :=
  match v with
  | VUndefined => "undefined"
  | VString s => s
  end.

Definition hasNode (node : string) : M bool :=
  do g <- get;
  let nodeInGraph :=
    if map (_options g) then has (_nodes g) node else in_object (_nodes g) node in
  ret nodeInGraph.

(** [hasEdge] with one argument. *)
Definition hasEdge1 (edge : string) : M bool :=
  do g <- get;
  ret (if map (_options g) then has (_edges g) edge else in_object (_edges g) edge).

(** [this._edges[edge].field], for [source] and [target]. *)
Definition edge_field (field : EdgeData -> string) (edge : string) : M Value :=
  do g <- get;
  match slot (map (_options g)) (_edges g) edge with
  | Own data => ret (VString (field data))
  | Runtime => ret VUndefined
  | Absent => throw TypeError
  end.

Definition source (edge : string) : M Value :=
  do h <- hasEdge1 edge;
  if negb h then throw NotFoundGraphError
  else edge_field e_source edge.

Definition target (edge : string) : M Value :=
  do h <- hasEdge1 edge;
  if negb h then throw NotFoundGraphError
  else edge_field e_target edge.

Definition extremities (edge : string) : M (Value * Value) :=
  do h <- hasEdge1 edge;
  if negb h then throw NotFoundGraphError
  else
    do s <- source edge;
    do t <- target edge;
    ret (s, t).

Definition relatedNode (node edge : string) : M Value :=
  do hn <- hasNode node;
  if negb hn then throw NotFoundGraphError
  else
    do he <- hasEdge1 edge;
    if negb he then throw NotFoundGraphError
    else
      do ext <- extremities edge;
      let '(node1, node2) := ext in
      ret (if strict_eq (VString node) node1 then node2 else node1).

(** A method whose run may write to an object of the runtime, which is no
    part of the instance: such a run has no result here. *)
Definition W (A : Type) : Type := Graph -> option (Outcome A * Graph).

Definition lift {A} (m : M A) : W A := fun g => Some (m g).

Definition and_then {A B} (m : W A) (k : A -> W B) : W B :=
  fun g =>
    match m g with
    | Some (Return a, g') => k a g'
    | Some (Throw e, g') => Some (Throw e, g')
    | None => None
    end.

(** [this._nodes[key]], or [this._nodes.get(key)]. *)
Definition node_slot (g : Graph) (key : Value) : Slot NodeData :=
  if map (_options g)
  then match key with
       | VString s => slot true (_nodes g) s
       | VUndefined => Absent
       end
  else slot false (_nodes g) (property_name key).

(** [data.counter--] on [data = this._nodes[key]]. *)
Definition decrement (set : (jsnum -> jsnum) -> NodeData -> NodeData) (key : Value) :
    W unit :=
  fun g =>
    match node_slot g key with
    | Own _ =>
        Some (Return tt, with_nodes (alter (set js_decr) (property_name key)) g)
    | Runtime => None
    | Absent => Some (Throw TypeError, g)
    end.

(** [_clearEdgeFromIndex('structure', edge, data)]; the helper of
    [indices.js] is modelled for the records of the instance only. *)
Definition clear_from_index (edge : string) (data : Slot EdgeData) : W unit :=
  fun g =>
    match data with
    | Own d => Some (_clearEdgeFromIndex "structure" edge d g)
    | _ => if computed (_indices_structure g) then None else Some (Return tt, g)
    end.

Definition dropEdge (edge : string) : W unit :=
  and_then (lift (hasEdge1 edge)) (fun h =>
  if negb h then lift (throw NotFoundGraphError)
  else
    and_then (lift get) (fun g =>
    let data := slot (map (_options g)) (_edges g) edge in
    and_then (lift (modify (with_edges (delete edge)))) (fun _ =>
    and_then (lift (modify (with_size Z.pred))) (fun _ =>
    match data with
    | Absent => lift (throw TypeError)
    | _ =>
        let source := match data with Own d => VString (e_source d) | _ => VUndefined end in
        let target := match data with Own d => VString (e_target d) | _ => VUndefined end in
        let undirected := match data with Own d => e_undirected d | _ => false end in
        and_then
          (if strict_eq source target
           then decrement set_selfLoops source
           else if undirected
           then
             and_then (decrement set_undirectedDegree source) (fun _ =>
             decrement set_undirectedDegree target)
           else
             and_then (decrement set_outDegree source) (fun _ =>
             decrement set_inDegree target))
          (fun _ => clear_from_index edge data)
    end)))).

(** A key that both embeddings treat alike on the store of [g]. *)
Definition plain (g : Graph) (k : string) : bool :=
  map (_options g) || negb (inherited k).

End Inherited.

(** ** Calls and runs *)

(** The six ways of adding an edge. *)
Inductive AddEdgeCall : Type :=
| CallAddEdge (source target : string) (attributes : AttrArg)
| CallAddDirectedEdge (source target : string) (attributes : AttrArg)
| CallAddUndirectedEdge (source target : string) (attributes : AttrArg)
| CallAddEdgeWithKey (edge source target : string) (attributes : AttrArg)
| CallAddDirectedEdgeWithKey (edge source target : string) (attributes : AttrArg)
| CallAddUndirectedEdgeWithKey (edge source target : string) (attributes : AttrArg).

Definition run_add_edge (c : AddEdgeCall) : M string :=
  match c with
  | CallAddEdge s t a => addEdge s t a
  | CallAddDirectedEdge s t a => addDirectedEdge s t a
  | CallAddUndirectedEdge s t a => addUndirectedEdge s t a
  | CallAddEdgeWithKey e s t a => addEdgeWithKey e s t a
  | CallAddDirectedEdgeWithKey e s t a => addDirectedEdgeWithKey e s t a
  | CallAddUndirectedEdgeWithKey e s t a => addUndirectedEdgeWithKey e s t a
  end.

(** A call of a public method that may change the instance. *)
Inductive Call : Type :=
| CallAddNode (node : string) (attributes : option AttrArg)
| CallAddNodesFrom (bunch : Bunch)
| CallAdd (c : AddEdgeCall)
| CallDropNode (node : string)
| CallDropEdge (edge : string)
| CallClear
| CallComputeIndex (name : string)
| CallClearIndex (name : string)
| CallHasEdge (args : list string)
| CallHasDirectedEdge (args : list string)
| CallHasUndirectedEdge (args : list string)
| CallGetEdge (source target : string)
| CallGetDirectedEdge (source target : string)
| CallGetUndirectedEdge (source target : string).

Definition ignore {A} (m : M A) : M unit := m ;; ret tt.

Definition run_call (c : Call) : M unit :=
  match c with
  | CallAddNode n a => ignore (addNode n a)
  | CallAddNodesFrom b => addNodesFrom b
  | CallAdd c => ignore (run_add_edge c)
  | CallDropNode n => dropNode n
  | CallDropEdge e => dropEdge e
  | CallClear => clear
  | CallComputeIndex name => computeIndex name
  | CallClearIndex name => clearIndex name
  | CallHasEdge args => ignore (hasEdge args)
  | CallHasDirectedEdge args => ignore (hasDirectedEdge args)
  | CallHasUndirectedEdge args => ignore (hasUndirectedEdge args)
  | CallGetEdge s t => ignore (getEdge s t)
  | CallGetDirectedEdge s t => ignore (getDirectedEdge s t)
  | CallGetUndirectedEdge s t => ignore (getUndirectedEdge s t)
  end.

(** The instance after a sequence of calls; a call that throws leaves the
    instance as it was at the throw, and the caller goes on. *)
Definition run_calls (cs : list Call) (g : Graph) : Graph :=
  foldl (fun g c => state_after (run_call c) g) g cs.

(** ** Scenarios *)

Module Scenario.

Definition keygen (isUndirected : bool) (source target : string) (_ : AttrArg) : string :=
  if isUndirected then "undirected:" +:+ source +:+ "-" +:+ target
  else "directed:" +:+ source +:+ "-" +:+ target.

Definition options (t : GraphType) : Options :=
  {| edgeKeyGenerator := keygen; map := false; multi := false; type := t;
     selfLoops := true |}.

(** Scenario A of the spec. *)
Definition A : Graph :=
  run_calls
    [CallAddNode "A" None; CallAddNode "B" None;
     CallAdd (CallAddDirectedEdgeWithKey "e1" "A" "B" AttrUndefined)]
    (new_Graph (options Directed)).

(** A mixed graph with two nodes. *)
Definition AB : Graph :=
  run_calls [CallAddNode "A" None; CallAddNode "B" None]
    (new_Graph (options Mixed)).

(** A mixed graph, on an object store or on a [Map] store. *)
Definition mixed_options (map : bool) : Options :=
  {| edgeKeyGenerator := keygen; map := map; multi := false; type := Mixed;
     selfLoops := true |}.

(** Two nodes joined by a directed edge whose key is the empty string. *)
Definition empty_key (map : bool) : Graph :=
  run_calls
    [CallAddNode "A" None; CallAddNode "B" None;
     CallAdd (CallAddDirectedEdgeWithKey EmptyString "A" "B" AttrUndefined)]
    (new_Graph (mixed_options map)).

(** The same, with an undirected edge beside the directed one. *)
Definition both (map : bool) : Graph :=
  run_calls
    [CallAdd (CallAddUndirectedEdgeWithKey "u" "A" "B" AttrUndefined)]
    (empty_key map).

(** A [map] graph with an undirected edge. *)
Definition mapped : Graph :=
  run_calls
    [CallAddNode "A" None; CallAddNode "B" None;
     CallAdd (CallAddUndirectedEdgeWithKey "u" "A" "B" AttrUndefined)]
    (new_Graph {| edgeKeyGenerator := keygen; map := true; multi := false;
                  type := Mixed; selfLoops := true |}).

(** Scenario A after the structure index was discarded to reclaim
    memory. *)
Definition cleared : Graph :=
  run_calls [CallClearIndex "structure"] A.

End Scenario.

(** ** Functional descriptions of the methods

    Each is the instance or the answer a method leaves, written as a plain
    function; the run equations below tie them to the methods. *)

(** The registers of every stored edge, inserted in turn. *)
Definition index_all (l : list (string * EdgeData)) (nodes : gmap string NodeData) :
    gmap string NodeData :=
  foldl (fun nodes '(edge, data) => updateStructureIndex edge data nodes) nodes l.

(** The instance [computeIndex('structure')] leaves. *)
Definition computeIndex_state (g : Graph) : Graph :=
  if computed (_indices_structure g) then g
  else with_nodes (index_all (map_to_list (_edges g)))
         (with_structure (set_computed true) g).

(** What the two-argument existence tests answer on the instance the index
    computation leaves. *)
Definition directed_connected (source target : string) (g : Graph) : bool :=
  if negb (has (_nodes g) source) || negb (has (_nodes g) target) then false
  else
    match _nodes g !! source with
    | None => false
    | Some nodeData =>
        match register_get (n_out nodeData) target with
        | None => false
        | Some edges => negb (length edges =? 0)%nat
        end
    end.

Definition undirected_connected (source target : string) (g : Graph) : bool :=
  if negb (has (_nodes g) source) || negb (has (_nodes g) target) then false
  else
    match _nodes g !! source with
    | None => false
    | Some nodeData =>
        match undirected_edges nodeData target with
        | None => false
        | Some edges => negb (length edges =? 0)%nat
        end
    end.

(** The checks [_addEdge] makes before it looks for an edge that already
    joins the nodes, in their order: the error of the first that fails. *)
Definition precheck (undirected : bool) (edge source target : string)
    (attributes : AttrArg) (g : Graph) : option GraphError :=
  let o := _options g in
  if negb undirected && type_is Undirected o then Some UsageGraphError
  else if undirected && type_is Directed o then Some UsageGraphError
  else if negb (isPlainObject (attr_or_empty attributes)) then Some InvalidArgumentsGraphError
  else if negb (has (_nodes g) source) then Some NotFoundGraphError
  else if negb (has (_nodes g) target) then Some NotFoundGraphError
  else if has (_edges g) edge then Some UsageGraphError
  else if negb (selfLoops o) && String.eqb source target then Some UsageGraphError
  else None.

Definition connected (undirected : bool) (source target : string) (g : Graph) : bool :=
  if undirected then undirected_connected source target g
  else directed_connected source target g.

(** The counters an edge moves, up ([js_incr]) or down ([js_decr]). *)
Definition bump_degrees (f : jsnum -> jsnum) (undirected : bool) (source target : string)
    (nodes : gmap string NodeData) : gmap string NodeData :=
  if String.eqb source target then alter (set_selfLoops f) source nodes
  else if undirected
  then alter (set_undirectedDegree f) target (alter (set_undirectedDegree f) source nodes)
  else alter (set_inDegree f) target (alter (set_outDegree f) source nodes).

(** The instance [_addEdge] leaves once every check has passed. *)
Definition add_edge_state (undirected : bool) (edge source target : string)
    (attributes : gmap string string) (g : Graph) : Graph :=
  let data := mkEdgeData undirected attributes source target in
  let g := with_nodes (bump_degrees js_incr undirected source target)
             (with_size Z.succ (with_edges (insert edge data) g)) in
  if computed (_indices_structure g)
  then with_nodes (updateStructureIndex edge data) g
  else g.

(** The instance [dropEdge] leaves when the edge and its nodes are there. *)
Definition drop_edge_state (edge : string) (data : EdgeData) (g : Graph) : Graph :=
  let g := with_nodes
             (bump_degrees js_decr (e_undirected data) (e_source data) (e_target data))
             (with_size Z.pred (with_edges (delete edge) g)) in
  if computed (_indices_structure g)
  then with_nodes (clearEdgeFromStructureIndex edge data) g
  else g.

Definition clearIndex_state (g : Graph) : Graph :=
  if computed (_indices_structure g)
  then with_structure (set_computed false) (with_nodes clearStructureIndex g)
  else g.

(** The arguments an add-edge call hands to [_addEdge]. *)
Definition call_name (c : AddEdgeCall) : string :=
  match c with
  | CallAddEdge _ _ _ => "addEdge"
  | CallAddDirectedEdge _ _ _ => "addDirectedEdge"
  | CallAddUndirectedEdge _ _ _ => "addUndirectedEdge"
  | CallAddEdgeWithKey _ _ _ _ => "addEdgeWithKey"
  | CallAddDirectedEdgeWithKey _ _ _ _ => "addDirectedEdgeWithKey"
  | CallAddUndirectedEdgeWithKey _ _ _ _ => "addUndirectedEdgeWithKey"
  end.

Definition call_undirected (o : Options) (c : AddEdgeCall) : bool :=
  match c with
  | CallAddEdge _ _ _ | CallAddEdgeWithKey _ _ _ _ => type_is Undirected o
  | CallAddDirectedEdge _ _ _ | CallAddDirectedEdgeWithKey _ _ _ _ => false
  | CallAddUndirectedEdge _ _ _ | CallAddUndirectedEdgeWithKey _ _ _ _ => true
  end.

Definition call_source (c : AddEdgeCall) : string :=
  match c with
  | CallAddEdge s _ _ | CallAddDirectedEdge s _ _ | CallAddUndirectedEdge s _ _
  | CallAddEdgeWithKey _ s _ _ | CallAddDirectedEdgeWithKey _ s _ _
  | CallAddUndirectedEdgeWithKey _ s _ _ => s
  end.

Definition call_target (c : AddEdgeCall) : string :=
  match c with
  | CallAddEdge _ t _ | CallAddDirectedEdge _ t _ | CallAddUndirectedEdge _ t _
  | CallAddEdgeWithKey _ _ t _ | CallAddDirectedEdgeWithKey _ _ t _
  | CallAddUndirectedEdgeWithKey _ _ t _ => t
  end.

Definition call_attributes (c : AddEdgeCall) : AttrArg :=
  match c with
  | CallAddEdge _ _ a | CallAddDirectedEdge _ _ a | CallAddUndirectedEdge _ _ a
  | CallAddEdgeWithKey _ _ _ a | CallAddDirectedEdgeWithKey _ _ _ a
  | CallAddUndirectedEdgeWithKey _ _ _ a => a
  end.

Definition call_key (o : Options) (c : AddEdgeCall) : string :=
  match c with
  | CallAddEdge s t a => edgeKeyGenerator o (type_is Undirected o) s t a
  | CallAddDirectedEdge s t a => edgeKeyGenerator o false s t a
  | CallAddUndirectedEdge s t a => edgeKeyGenerator o false s t a
  | CallAddEdgeWithKey e _ _ _ | CallAddDirectedEdgeWithKey e _ _ _
  | CallAddUndirectedEdgeWithKey e _ _ _ => e
  end.

(** ** Invariants of the instance *)

(** Edge [e] is in the set that register [rk] of node [n] holds for
    neighbour [k]. *)
Definition in_register (rk : RegKey) (n k e : string) (nodes : gmap string NodeData) : Prop :=
  ∃ nd r l, nodes !! n = Some nd ∧ get_register rk nd = Some r ∧ r !! k = Some l ∧ e ∈ l.

(** No register of the record holds an empty set. *)
Definition sets_ok (nd : NodeData) : Prop :=
  ∀ rk r k l, get_register rk nd = Some r → r !! k = Some l → l ≠ [].

(** A change of a node record that keeps edge [e] wherever it is
    registered. *)
Definition keeps (e : string) (f : NodeData -> NodeData) : Prop :=
  ∀ nd rk r k l,
    get_register rk nd = Some r → r !! k = Some l → e ∈ l →
    ∃ r' l', get_register rk (f nd) = Some r' ∧ r' !! k = Some l' ∧ e ∈ l'.

Definition all_sets_ok (nodes : gmap string NodeData) : Prop :=
  ∀ n nd, nodes !! n = Some nd → sets_ok nd.

Record consistent (g : Graph) : Prop := mkConsistent {
  (* the counts *)
  cons_order : _order g = Z.of_nat (size (_nodes g));
  cons_size : _size g = Z.of_nat (size (_edges g));
  (* no edge dangles *)
  cons_ends : ∀ e d, _edges g !! e = Some d →
    is_Some (_nodes g !! e_source d) ∧ is_Some (_nodes g !! e_target d);
  (* a computed index registers every stored edge *)
  cons_index : computed (_indices_structure g) = true →
    ∀ e d, _edges g !! e = Some d →
      in_register (outKey (e_undirected d)) (e_source d) (e_target d) e (_nodes g)
      ∧ in_register (inKey (e_undirected d)) (e_target d) (e_source d) e (_nodes g);
  (* empty sets are pruned *)
  cons_sets : all_sets_ok (_nodes g)
}.

(** An edge of the kind [undirected] already joins [source] and [target]:
    in that order when directed, in either order when undirected. *)
Definition already_connected (undirected : bool) (source target : string) (g : Graph) : Prop :=
  ∃ e d, _edges g !! e = Some d ∧ e_undirected d = undirected
    ∧ ((e_source d = source ∧ e_target d = target)
       ∨ (undirected = true ∧ e_source d = target ∧ e_target d = source)).

(** The invariant of an instance built with options [o]. *)
Definition inv (o : Options) (g : Graph) : Prop :=
  _options g = o ∧ consistent g.

(** ** The instance as a transition system

    Every public call moves the instance through a few elementary changes;
    properties of all reachable states are proved once per change. *)

(** The record [addNode] stores for a graph of type [t]. *)
Definition new_node_data (t : GraphType) (attributes : gmap string string) : NodeData :=
  let data := mkNodeData attributes (Num 0) Undefined Undefined Undefined
                None None None None in
  let data :=
    if bool_decide (t = Mixed) || bool_decide (t = Directed)
    then set_outDegree (fun _ => Num 0) (set_inDegree (fun _ => Num 0) data)
    else data in
  if bool_decide (t = Mixed) || bool_decide (t = Undirected)
  then set_undirectedDegree (fun _ => Num 0) data
  else data.

(** The instance [addNode] leaves when it succeeds. *)
Definition add_node_state (node : string) (attributes : gmap string string) (g : Graph) : Graph :=
  with_order Z.succ
    (with_nodes (insert node (new_node_data (type (_options g)) attributes)) g).

(** The last two statements of [dropNode]. *)
Definition delete_node_state (node : string) (g : Graph) : Graph :=
  with_order Z.pred (with_nodes (delete node) g).

Inductive step (g : Graph) : Graph -> Prop :=
| step_computeIndex :
    step g (computeIndex_state g)
| step_clearIndex :
    step g (clearIndex_state g)
| step_addNode node attributes :
    _nodes g !! node = None ->
    step g (add_node_state node attributes g)
| step_addEdge undirected edge source target attributes :
    precheck undirected edge source target attributes g = None ->
    (multi (_options g) = false ->
     computed (_indices_structure g) = true
     ∧ connected undirected source target g = false) ->
    step g (add_edge_state undirected edge source target
              (attr_stored (attr_or_empty attributes)) g)
| step_dropEdge edge data :
    _edges g !! edge = Some data ->
    step g (drop_edge_state edge data g)
| step_deleteNode node :
    is_Some (_nodes g !! node) ->
    (∀ e d, _edges g !! e = Some d -> e_source d ≠ node ∧ e_target d ≠ node) ->
    step g (delete_node_state node g)
| step_clear :
    step g (state_after clear g).

(** ** The policies of the options *)

(** Two edge records join the same pair of nodes: the same ordered pair,
    or, for an undirected edge, the same unordered pair. *)
Definition same_pair (d1 d2 : EdgeData) : Prop :=
  (e_source d1 = e_source d2 ∧ e_target d1 = e_target d2)
  ∨ (e_undirected d1 = true ∧ e_source d1 = e_target d2 ∧ e_target d1 = e_source d2).

Record policy (o : Options) (g : Graph) : Prop := mkPolicy {
  pol_loops : selfLoops o = false →
    ∀ e d, _edges g !! e = Some d → e_source d ≠ e_target d;
  pol_directed : type o = Directed →
    ∀ e d, _edges g !! e = Some d → e_undirected d = false;
  pol_undirected : type o = Undirected →
    ∀ e d, _edges g !! e = Some d → e_undirected d = true;
  pol_simple : multi o = false →
    ∀ e1 d1 e2 d2, _edges g !! e1 = Some d1 → _edges g !! e2 = Some d2 →
      e_undirected d1 = e_undirected d2 → same_pair d1 d2 → e1 = e2
}.

Module Scenario2.

(** A simple mixed graph without self-loops: three nodes, a directed and an
    undirected edge between 'A' and 'B', a directed edge from 'B' to 'C';
    the calls include some that are refused. *)
Definition options : Options :=
  {| edgeKeyGenerator := Scenario.keygen; map := false; multi := false;
     type := Mixed; selfLoops := false |}.

Definition calls : list Call :=
  [CallAddNodesFrom (BunchOf [("A", AttrObject ∅); ("B", AttrObject ∅); ("C", AttrObject ∅)]);
   CallAdd (CallAddDirectedEdgeWithKey "ab" "A" "B" AttrUndefined);
   CallAdd (CallAddUndirectedEdgeWithKey "u" "B" "A" AttrUndefined);
   CallAdd (CallAddDirectedEdgeWithKey "loop" "A" "A" AttrUndefined);
   CallAdd (CallAddDirectedEdgeWithKey "ab2" "A" "B" AttrUndefined);
   CallAdd (CallAddEdge "B" "C" AttrUndefined)].

Definition graph : Graph := run_calls calls (new_Graph options).

(** A directed-only and an undirected-only graph with one edge each. *)
Definition directed_calls : list Call :=
  [CallAddNode "A" None; CallAddNode "B" None;
   CallAdd (CallAddEdge "A" "B" AttrUndefined);
   CallAdd (CallAddUndirectedEdge "A" "B" AttrUndefined)].

Definition undirected_calls : list Call :=
  [CallAddNode "A" None; CallAddNode "B" None;
   CallAdd (CallAddEdge "A" "B" AttrUndefined);
   CallAdd (CallAddDirectedEdge "A" "B" AttrUndefined)].

End Scenario2.

(** ** Counting the edges at a node *)

(** How an edge record touches node [n]: as a self-loop, as a directed
    edge leaving or entering it, as an undirected edge with it as an end. *)
Definition is_loop (n : string) (d : EdgeData) : Prop :=
  e_source d = n ∧ e_target d = n.
Definition is_out (n : string) (d : EdgeData) : Prop :=
  e_undirected d = false ∧ e_source d = n ∧ e_target d ≠ n.
Definition is_in (n : string) (d : EdgeData) : Prop :=
  e_undirected d = false ∧ e_target d = n ∧ e_source d ≠ n.
Definition is_undirected_at (n : string) (d : EdgeData) : Prop :=
  e_undirected d = true ∧ (e_source d = n ∨ e_target d = n) ∧ e_source d ≠ e_target d.

#[global] Instance is_loop_dec n d : Decision (is_loop n d).
Proof. unfold is_loop. apply _. Defined.
#[global] Instance is_out_dec n d : Decision (is_out n d).
Proof. unfold is_out. apply _. Defined.
#[global] Instance is_in_dec n d : Decision (is_in n d).
Proof. unfold is_in. apply _. Defined.
#[global] Instance is_undirected_at_dec n d : Decision (is_undirected_at n d).
Proof. unfold is_undirected_at. apply _. Defined.

(** The number of stored edges whose record satisfies [P]. *)
Definition count (P : EdgeData -> Prop) `{!∀ d, Decision (P d)}
    (edges : gmap string EdgeData) : Z :=
  Z.of_nat (size (filter (λ ed : string * EdgeData, P ed.2) edges)).

(** The counters of every node record count the stored edges; the
    counters a graph of this type does not keep are left out. *)
Definition counted (o : Options) (g : Graph) : Prop :=
  ∀ n nd, _nodes g !! n = Some nd →
    n_selfLoops nd = Num (count (is_loop n) (_edges g))
    ∧ (type o ≠ Undirected →
       n_outDegree nd = Num (count (is_out n) (_edges g))
       ∧ n_inDegree nd = Num (count (is_in n) (_edges g)))
    ∧ (type o ≠ Directed →
       n_undirectedDegree nd = Num (count (is_undirected_at n) (_edges g))).

(** ** What the structure index holds *)

(** Register [rk] of node [n] is, under neighbour [k], a place where the
    edge record [d] is to be registered. *)
Definition registered_as (rk : RegKey) (n k : string) (d : EdgeData) : Prop :=
  (rk = outKey (e_undirected d) ∧ n = e_source d ∧ k = e_target d)
  ∨ (rk = inKey (e_undirected d) ∧ n = e_target d ∧ k = e_source d).

(** An index that is not computed has no register; every entry of a
    register is a stored edge, at one of its two places. *)
Record index_sound (g : Graph) : Prop := mkIndexSound {
  idx_absent : computed (_indices_structure g) = false →
    ∀ n nd rk, _nodes g !! n = Some nd → get_register rk nd = None;
  idx_sound : ∀ rk n k e, in_register rk n k e (_nodes g) →
    ∃ d, _edges g !! e = Some d ∧ registered_as rk n k d
}.

(** The first two checks of [_addEdge]: the kind of edge is one the type of
    the graph allows. *)
Definition kind_allowed (o : Options) (undirected : bool) : bool :=
  negb (negb undirected && type_is Undirected o)
  && negb (undirected && type_is Directed o).

(** ** The keys a sequence of calls names *)

(** The node and edge keys a call hands to the instance, the key the
    generator gives included. *)
Definition call_keys (o : Options) (c : Call) : list string :=
  match c with
  | CallAddNode node _ => [node]
  | CallAddNodesFrom NotABunch => []
  | CallAddNodesFrom (BunchOf items) => items.*1
  | CallAdd c => [call_key o c; call_source c; call_target c]
  | CallDropNode node => [node]
  | CallDropEdge edge => [edge]
  | CallClear | CallComputeIndex _ | CallClearIndex _ => []
  | CallHasEdge args | CallHasDirectedEdge args | CallHasUndirectedEdge args => args
  | CallGetEdge s t | CallGetDirectedEdge s t | CallGetUndirectedEdge s t => [s; t]
  end.

(** The calls for which membership among the stored keys is what the
    stores answer: any call on a [Map] store; on an object store, the calls
    that name no key inherited from [Object.prototype]. *)
Definition plain_calls (o : Options) (cs : list Call) : bool :=
  map o
  || forallb (fun c => forallb (fun k => negb (Inherited.inherited k)) (call_keys o c)) cs.

(** [attributes || {}] is a plain object: the argument is [undefined],
    another falsy value ([null], [0], the empty string, [false]), or a plain
    object. *)
Definition attributes_accepted (a : AttrArg) : bool :=
  match a with
  | AttrUndefined | AttrObject _ | AttrOther false => true
  | AttrOther true => false
  end.

(** ** Run equations of the read methods *)

Ltac mrun := unfold bind, get, ret, throw, modify; simpl.

Arguments hasEdge : simpl never.
Arguments hasDirectedEdge : simpl never.
Arguments hasUndirectedEdge : simpl never.
Arguments computeIndex : simpl never.

Lemma has_true {V} (store : gmap string V) k : has store k = true ↔ is_Some (store !! k).
Proof. unfold has. apply bool_decide_eq_true. Qed.

Lemma has_false {V} (store : gmap string V) k : has store k = false ↔ store !! k = None.
Proof. unfold has. rewrite bool_decide_eq_false. symmetry. apply eq_None_not_Some. Qed.

Lemma has_Some {V} (store : gmap string V) k v : store !! k = Some v → has store k = true.
Proof. intros H. apply has_true. eauto. Qed.

Lemma hasNode_run node g : hasNode node g = (Return (has (_nodes g) node), g).
Proof. unfold hasNode. mrun. by destruct (map (_options g)). Qed.

Lemma hasEdge1_run edge g : hasEdge [edge] g = (Return (has (_edges g) edge), g).
Proof. unfold hasEdge, hasEdge1. mrun. by destruct (map (_options g)). Qed.

Lemma nodeData_run node g data :
  _nodes g !! node = Some data → nodeData node g = (Return data, g).
Proof. intros H. unfold nodeData. mrun. by rewrite H. Qed.

Lemma edgeData_run edge g data :
  _edges g !! edge = Some data → edgeData edge g = (Return data, g).
Proof. intros H. unfold edgeData. mrun. by rewrite H. Qed.

Lemma for_each_updateIndex l g :
  computed (_indices_structure g) = true →
  for_each l (fun '(edge, data) => _updateIndex "structure" edge data) g
  = (Return tt, with_nodes (index_all l) g).
Proof.
  revert g. induction l as [|[e d] l IH]; intros g Hc; simpl.
  - by destruct g.
  - unfold bind at 1. unfold _updateIndex at 1. simpl. mrun. rewrite Hc. simpl.
    rewrite IH by done. by destruct g.
Qed.

Lemma computeIndex_run g :
  computeIndex "structure" g = (Return tt, computeIndex_state g).
Proof.
  unfold computeIndex, computeIndex_state. simpl. mrun.
  destruct (computed (_indices_structure g)) eqn:Hc; [done|].
  by rewrite for_each_updateIndex.
Qed.

Lemma computeIndex_state_computed g :
  computed (_indices_structure (computeIndex_state g)) = true.
Proof.
  unfold computeIndex_state.
  by destruct (computed (_indices_structure g)) eqn:Hc.
Qed.

Lemma computeIndex_computed_noop g :
  computed (_indices_structure g) = true →
  computeIndex "structure" g = (Return tt, g).
Proof.
  intros Hc. rewrite computeIndex_run. unfold computeIndex_state. by rewrite Hc.
Qed.

Lemma updateStructureIndex_lookup_None e d nodes k :
  updateStructureIndex e d nodes !! k = None ↔ nodes !! k = None.
Proof. unfold updateStructureIndex. by rewrite !lookup_alter_None. Qed.

Lemma index_all_lookup_None l nodes k :
  index_all l nodes !! k = None ↔ nodes !! k = None.
Proof.
  revert nodes. induction l as [|[e d] l IH]; intros nodes; simpl; [done|].
  by rewrite IH, updateStructureIndex_lookup_None.
Qed.

Lemma computeIndex_state_lookup_None g k :
  _nodes (computeIndex_state g) !! k = None ↔ _nodes g !! k = None.
Proof.
  unfold computeIndex_state. destruct (computed (_indices_structure g)); [done|].
  simpl. apply index_all_lookup_None.
Qed.

Lemma computeIndex_state_has g k :
  has (_nodes (computeIndex_state g)) k = has (_nodes g) k.
Proof.
  destruct (has (_nodes g) k) eqn:H.
  - apply has_true. apply has_true in H.
    rewrite <-not_eq_None_Some, computeIndex_state_lookup_None.
    by rewrite not_eq_None_Some.
  - apply has_false. apply has_false in H. by apply computeIndex_state_lookup_None.
Qed.

Lemma computeIndex_state_edges g : _edges (computeIndex_state g) = _edges g.
Proof. unfold computeIndex_state. by destruct (computed (_indices_structure g)). Qed.

Lemma computeIndex_state_options g : _options (computeIndex_state g) = _options g.
Proof. unfold computeIndex_state. by destruct (computed (_indices_structure g)). Qed.

Lemma computeIndex_state_size g : _size (computeIndex_state g) = _size g.
Proof. unfold computeIndex_state. by destruct (computed (_indices_structure g)). Qed.

Lemma computeIndex_state_order g : _order (computeIndex_state g) = _order g.
Proof. unfold computeIndex_state. by destruct (computed (_indices_structure g)). Qed.

Lemma computeIndex_state_idem g :
  computeIndex_state (computeIndex_state g) = computeIndex_state g.
Proof.
  unfold computeIndex_state at 1. by rewrite computeIndex_state_computed.
Qed.

Lemma hasDirectedEdge2_run source target g :
  hasDirectedEdge [source; target] g
  = (Return (directed_connected source target (computeIndex_state g)),
     computeIndex_state g).
Proof.
  unfold hasDirectedEdge, directed_connected. unfold bind at 1.
  rewrite computeIndex_run. set (g1 := computeIndex_state g).
  unfold bind at 1. rewrite hasNode_run. unfold bind at 1. rewrite hasNode_run.
  destruct (has (_nodes g1) source) eqn:Hs; [|done].
  destruct (has (_nodes g1) target) eqn:Ht; [|done].
  simpl. apply has_true in Hs as [nd Hnd].
  unfold bind. rewrite (nodeData_run _ _ _ Hnd), Hnd. unfold register_get.
  destruct (n_out nd) as [r|]; [|done]. by destruct (r !! target).
Qed.

Lemma hasUndirectedEdge2_run source target g :
  hasUndirectedEdge [source; target] g
  = (Return (undirected_connected source target (computeIndex_state g)),
     computeIndex_state g).
Proof.
  unfold hasUndirectedEdge, undirected_connected. unfold bind at 1.
  rewrite computeIndex_run. set (g1 := computeIndex_state g).
  unfold bind at 1. rewrite hasNode_run. unfold bind at 1. rewrite hasNode_run.
  destruct (has (_nodes g1) source) eqn:Hs; [|done].
  destruct (has (_nodes g1) target) eqn:Ht; [|done].
  simpl. apply has_true in Hs as [nd Hnd].
  unfold bind. rewrite (nodeData_run _ _ _ Hnd), Hnd.
  by destruct (undirected_edges nd target).
Qed.

Lemma hasEdge2_run source target g :
  hasEdge [source; target] g
  = (Return (directed_connected source target (computeIndex_state g)
             || undirected_connected source target (computeIndex_state g)),
     computeIndex_state g).
Proof.
  unfold hasEdge. unfold bind. rewrite hasDirectedEdge2_run.
  destruct (directed_connected _ _ _); [done|].
  by rewrite hasUndirectedEdge2_run, computeIndex_state_idem.
Qed.

(** The read methods leave the instance as it was, or as
    [computeIndex('structure')] leaves it. *)
Ltac read_only :=
  unfold directed, undirected, hasEdge1, hasNode, nodeData, edgeData, first;
  mrun; repeat case_match; simplify_eq/=; try done.

Lemma getDirectedEdge_state s t g :
  state_after (getDirectedEdge s t) g = computeIndex_state g.
Proof.
  unfold state_after, getDirectedEdge. unfold bind at 1. rewrite computeIndex_run.
  read_only.
Qed.

Lemma getUndirectedEdge_state s t g :
  state_after (getUndirectedEdge s t) g = computeIndex_state g.
Proof.
  unfold state_after, getUndirectedEdge. unfold bind at 1. rewrite computeIndex_run.
  read_only.
Qed.

Lemma getEdge_state s t g :
  state_after (getEdge s t) g = computeIndex_state g.
Proof.
  pose proof (getDirectedEdge_state s t g) as Hd.
  pose proof (getUndirectedEdge_state s t g) as Hu.
  pose proof (getUndirectedEdge_state s t (computeIndex_state g)) as Hu'.
  rewrite computeIndex_state_idem in Hu'.
  unfold state_after in *. unfold getEdge. unfold bind at 1, get at 1.
  cbv beta iota zeta.
  destruct (type (_options g)) eqn:Ht; simpl; unfold bind.
  - destruct (getDirectedEdge s t g) as [[r|err] g1] eqn:E;
      simpl in Hd; subst g1; [|done].
    by destruct (truthy_edge r).
  - by unfold ret at 1.
  - destruct (getDirectedEdge s t g) as [[r|err] g1] eqn:E;
      simpl in Hd; subst g1; [|done].
    by destruct (truthy_edge r).
Qed.

(** ** Scenario A and the degree of a node *)

(** The sum [degree] forms is [NaN] as soon as one of the three counters is
    missing from the record. *)
Lemma degree_missing_counter g node data flag b :
  _nodes g !! node = Some data →
  flag_boolean flag = Some b →
  n_outDegree data = Undefined ∨ n_inDegree data = Undefined
    ∨ n_undirectedDegree data = Undefined →
  degree node flag g = (Return NaN, g).
Proof.
  intros Hd Hf Hu. unfold degree, degree_method. rewrite Hf.
  unfold bind at 1. rewrite hasNode_run, (has_Some _ _ _ Hd). simpl.
  unfold bind. rewrite (nodeData_run _ _ _ Hd). unfold ret. do 2 f_equal.
  destruct Hu as [->|[->| ->]]; simpl; try done.
  - by destruct (n_outDegree data).
  - by destruct (n_outDegree data), (n_inDegree data).
Qed.

(** A node added to a directed graph has no [undirectedDegree] counter. *)
Lemma addNode_directed_record g node :
  type (_options g) = Directed →
  _nodes g !! node = None →
  _nodes (state_after (addNode node None) g) !! node
  = Some (mkNodeData ∅ (Num 0) (Num 0) (Num 0) Undefined None None None None).
Proof.
  intros Ht Hn. unfold state_after, addNode. unfold bind at 1.
  rewrite hasNode_run. apply has_false in Hn. rewrite Hn. mrun. rewrite Ht. simpl.
  apply lookup_insert_eq.
Qed.

(** C1: in the directed graph of Scenario A, [hasDirectedEdge('A','B')] is
    true, but [degree('A')] and [degree('B')] are [NaN], not 1: [degree] adds
    the [undirectedDegree] counter, which [addNode] leaves out of the records
    of a directed graph.  [directedDegree], which does not read it, answers
    1. *)
Theorem scenario_A_degree_is_NaN :
  outcome_of (hasDirectedEdge ["A"; "B"]) Scenario.A = Return true
  ∧ outcome_of (degree "A" FlagOmitted) Scenario.A = Return NaN
  ∧ outcome_of (degree "B" FlagOmitted) Scenario.A = Return NaN
  ∧ outcome_of (directedDegree "A" FlagOmitted) Scenario.A = Return (Num 1)
  ∧ outcome_of (directedDegree "B" FlagOmitted) Scenario.A = Return (Num 1).
Proof. repeat split; vm_compute; reflexivity. Qed.

(** ** The key of an edge added by [addUndirectedEdge] *)

Lemma addUndirectedEdge_generator_call source target attributes g :
  addUndirectedEdge source target attributes g
  = _addEdge "addUndirectedEdge" true
      (edgeKeyGenerator (_options g) false source target attributes)
      source target attributes g.
Proof. reflexivity. Qed.

(** C2: [addUndirectedEdge] hands [false], not [true], to the key generator
    as its first argument: with a generator that tells the two apart, the
    undirected edge added between 'A' and 'B' gets the key made for a
    directed edge. *)
Theorem addUndirectedEdge_key_is_directed_key :
  let call := addUndirectedEdge "A" "B" AttrUndefined in
  outcome_of call Scenario.AB = Return (Scenario.keygen false "A" "B" AttrUndefined)
  ∧ e_undirected <$> _edges (state_after call Scenario.AB)
                       !! Scenario.keygen false "A" "B" AttrUndefined = Some true
  ∧ _edges (state_after call Scenario.AB)
      !! Scenario.keygen true "A" "B" AttrUndefined = None.
Proof. repeat split; vm_compute; reflexivity. Qed.

(** ** Existence tests *)



(** C10: on a graph built with [map = true], the one-argument forms of
    [hasDirectedEdge] and [hasUndirectedEdge] answer true for every stored
    edge key, whatever the edge's [undirected] flag. *)
Theorem has_kind_edge_map_ignores_kind g edge data :
  map (_options g) = true →
  _edges g !! edge = Some data →
  hasDirectedEdge [edge] g = (Return true, g)
  ∧ hasUndirectedEdge [edge] g = (Return true, g).
Proof.
  intros Hm He. unfold hasDirectedEdge, hasUndirectedEdge. mrun.
  by rewrite Hm, (has_Some _ _ _ He).
Qed.

Lemma has_kind_edge_map_ignores_kind_witness :
  map (_options Scenario.mapped) = true
  ∧ _edges Scenario.mapped !! "u" = Some (mkEdgeData true ∅ "A" "B")
  ∧ hasDirectedEdge ["u"] Scenario.mapped = (Return true, Scenario.mapped)
  ∧ hasUndirectedEdge ["u"] Scenario.mapped = (Return true, Scenario.mapped).
Proof.
  split; [reflexivity|]. split; [vm_compute; reflexivity|].
  apply (has_kind_edge_map_ignores_kind Scenario.mapped "u" (mkEdgeData true ∅ "A" "B")).
  - reflexivity.
  - vm_compute. reflexivity.
Defined.

(** ** [computeIndex] *)

(** C9: once the structure index is computed, [computeIndex('structure')]
    returns at once and leaves the whole instance, index included, as it
    was. *)
Theorem computeIndex_idempotent g :
  computed (_indices_structure g) = true →
  computeIndex "structure" g = (Return tt, g).
Proof. apply computeIndex_computed_noop. Qed.

Lemma computeIndex_idempotent_witness :
  let g1 := state_after (computeIndex "structure") Scenario.A in
  computed (_indices_structure g1) = true
  ∧ computeIndex "structure" g1 = (Return tt, g1).
Proof.
  split.
  - vm_compute. reflexivity.
  - apply (computeIndex_idempotent (state_after (computeIndex "structure") Scenario.A)).
    vm_compute. reflexivity.
Defined.

(** Every call computes the index, and any number of further calls change
    nothing. *)
Lemma computeIndex_repeat g n :
  let g1 := state_after (computeIndex "structure") g in
  Nat.iter n (state_after (computeIndex "structure")) g1 = g1.
Proof.
  simpl. induction n as [|n IH]; simpl; [done|]. rewrite IH.
  unfold state_after. rewrite !computeIndex_run. simpl.
  apply computeIndex_state_idem.
Qed.

(** ** [relatedNode] *)

Lemma source_run edge g data :
  _edges g !! edge = Some data → source edge g = (Return (e_source data), g).
Proof.
  intros He. unfold source. unfold bind at 1.
  rewrite hasEdge1_run, (has_Some _ _ _ He). simpl.
  unfold bind. by rewrite (edgeData_run _ _ _ He).
Qed.

Lemma target_run edge g data :
  _edges g !! edge = Some data → target edge g = (Return (e_target data), g).
Proof.
  intros He. unfold target. unfold bind at 1.
  rewrite hasEdge1_run, (has_Some _ _ _ He). simpl.
  unfold bind. by rewrite (edgeData_run _ _ _ He).
Qed.

Lemma extremities_run edge g data :
  _edges g !! edge = Some data →
  extremities edge g = (Return (e_source data, e_target data), g).
Proof.
  intros He. unfold extremities. unfold bind at 1.
  rewrite hasEdge1_run, (has_Some _ _ _ He). simpl.
  unfold bind. by rewrite (source_run _ _ _ He), (target_run _ _ _ He).
Qed.

Lemma relatedNode_run node edge g nd data :
  _nodes g !! node = Some nd →
  _edges g !! edge = Some data →
  relatedNode node edge g
  = (Return (if String.eqb node (e_source data) then e_target data else e_source data), g).
Proof.
  intros Hn He. unfold relatedNode. unfold bind at 1.
  rewrite hasNode_run, (has_Some _ _ _ Hn). simpl.
  unfold bind at 1. rewrite hasEdge1_run, (has_Some _ _ _ He). simpl.
  unfold bind. by rewrite (extremities_run _ _ _ He).
Qed.

(** With membership taken among the stored keys, [relatedNode(node, edge)]
    throws [NotFound] when the node or the edge is absent; when both exist
    and [node] is an extremity of [edge] it returns the other extremity,
    which for a self-loop on [node] is [node] itself. *)
Lemma relatedNode_spec g node edge :
  (_nodes g !! node = None ∨ _edges g !! edge = None →
   relatedNode node edge g = (Throw NotFoundGraphError, g))
  ∧ (∀ nd data,
       _nodes g !! node = Some nd →
       _edges g !! edge = Some data →
       (node = e_source data →
        relatedNode node edge g = (Return (e_target data), g))
       ∧ (node = e_target data →
          relatedNode node edge g = (Return (e_source data), g))
       ∧ (e_source data = node ∧ e_target data = node →
          relatedNode node edge g = (Return node, g))).
Proof.
  split.
  - intros H. unfold relatedNode. unfold bind at 1. rewrite hasNode_run.
    destruct (has (_nodes g) node) eqn:Hn; simpl; [|done].
    destruct H as [H|H].
    + apply has_false in H. congruence.
    + unfold bind. rewrite hasEdge1_run. apply has_false in H. by rewrite H.
  - intros nd data Hn He. rewrite (relatedNode_run _ _ _ _ _ Hn He).
    repeat split.
    + intros ->. by rewrite String.eqb_refl.
    + intros ->. destruct (String.eqb_spec (e_target data) (e_source data)) as [->|]; done.
    + intros [Hs Ht]. rewrite Hs, String.eqb_refl. by rewrite Ht.
Qed.

Lemma relatedNode_scenario_A :
  relatedNode "Z" "e1" Scenario.A = (Throw NotFoundGraphError, Scenario.A)
  ∧ relatedNode "A" "e9" Scenario.A = (Throw NotFoundGraphError, Scenario.A)
  ∧ relatedNode "A" "e1" Scenario.A = (Return "B", Scenario.A)
  ∧ relatedNode "B" "e1" Scenario.A = (Return "A", Scenario.A).
Proof.
  split; [|split; [|split]].
  - apply (proj1 (relatedNode_spec Scenario.A "Z" "e1")). left. vm_compute. reflexivity.
  - apply (proj1 (relatedNode_spec Scenario.A "A" "e9")). right. vm_compute. reflexivity.
  - refine (proj1 (proj2 (relatedNode_spec Scenario.A "A" "e1")
        (mkNodeData ∅ (Num 0) (Num 0) (Num 1) Undefined
           (Some {["B" := ["e1"]]}) None None None)
        (mkEdgeData false ∅ "A" "B") _ _) _); vm_compute; reflexivity.
  - refine (proj1 (proj2 (proj2 (relatedNode_spec Scenario.A "B" "e1")
        (mkNodeData ∅ (Num 0) (Num 1) (Num 0) Undefined
           None (Some {["A" := ["e1"]]}) None None)
        (mkEdgeData false ∅ "A" "B") _ _)) _); vm_compute; reflexivity.
Defined.

(** *** Names inherited by an object store *)

Lemma inherited_hasNode_plain node g :
  Inherited.plain g node = true → Inherited.hasNode node g = hasNode node g.
Proof.
  unfold Inherited.plain, Inherited.hasNode, hasNode, Inherited.in_object. mrun.
  destruct (map (_options g)); [done|]. simpl. intros ->%negb_true_iff.
  by rewrite orb_false_r.
Qed.

Lemma inherited_hasEdge1_plain edge g :
  Inherited.plain g edge = true → Inherited.hasEdge1 edge g = hasEdge [edge] g.
Proof.
  rewrite hasEdge1_run.
  unfold Inherited.plain, Inherited.hasEdge1, Inherited.in_object. mrun.
  destruct (map (_options g)); [done|]. simpl. intros ->%negb_true_iff.
  by rewrite orb_false_r.
Qed.

Lemma inherited_extremities_stored edge g data :
  _edges g !! edge = Some data →
  Inherited.extremities edge g
  = (Return (Inherited.VString (e_source data), Inherited.VString (e_target data)), g).
Proof.
  intros He.
  assert (Inherited.hasEdge1 edge g = (Return true, g)) as Hh.
  { unfold Inherited.hasEdge1, Inherited.in_object. mrun.
    rewrite (has_Some _ _ _ He). by destruct (map (_options g)). }
  assert (∀ f, Inherited.edge_field f edge g = (Return (Inherited.VString (f data)), g))
    as Hf.
  { intros f. unfold Inherited.edge_field, Inherited.slot. mrun. by rewrite He. }
  assert (Inherited.source edge g = (Return (Inherited.VString (e_source data)), g)) as Hs.
  { unfold Inherited.source. unfold bind at 1. rewrite Hh. simpl. apply Hf. }
  assert (Inherited.target edge g = (Return (Inherited.VString (e_target data)), g)) as Ht.
  { unfold Inherited.target. unfold bind at 1. rewrite Hh. simpl. apply Hf. }
  unfold Inherited.extremities. unfold bind at 1. rewrite Hh. simpl.
  unfold bind. by rewrite Hs, Ht.
Qed.

(** On keys that are not inherited names, and on a [Map] store, the two
    embeddings of [relatedNode] give the same result. *)
Lemma inherited_relatedNode_plain node edge g :
  Inherited.plain g node = true →
  Inherited.plain g edge = true →
  Inherited.relatedNode node edge g
  = (match outcome_of (relatedNode node edge) g with
     | Return s => Return (Inherited.VString s)
     | Throw e => Throw e
     end, state_after (relatedNode node edge) g).
Proof.
  intros Hn He. unfold Inherited.relatedNode, outcome_of, state_after, relatedNode.
  unfold bind at 1 4 7. rewrite (inherited_hasNode_plain _ _ Hn), hasNode_run.
  destruct (has (_nodes g) node); simpl; [|done].
  unfold bind at 1 3 5. rewrite (inherited_hasEdge1_plain _ _ He), hasEdge1_run.
  destruct (_edges g !! edge) as [d|] eqn:Hd.
  - rewrite (has_Some _ _ _ Hd). simpl. unfold bind.
    rewrite (inherited_extremities_stored _ _ _ Hd), (extremities_run _ _ _ Hd). simpl.
    by destruct (String.eqb node (e_source d)).
  - apply has_false in Hd. by rewrite Hd.
Qed.

(** C8, the claim fails on the code: on the object store of Scenario A,
    ['constructor'] is no node of the graph, yet [node in this._nodes] is
    true of it, and [relatedNode('constructor', 'e1')] returns ['A'] instead
    of throwing [NotFound]. *)
Theorem relatedNode_inherited_name :
  map (_options Scenario.A) = false
  ∧ _nodes Scenario.A !! "constructor" = None
  ∧ Inherited.relatedNode "constructor" "e1" Scenario.A
    = (Return (Inherited.VString "A"), Scenario.A).
Proof. repeat split; vm_compute; reflexivity. Qed.

(** ** [getEdge] *)

(** When the directed lookup answers a key that is not falsy, [getEdge]
    answers that key. *)
Lemma getEdge_directed_first g source target k :
  type (_options g) ≠ Undirected →
  outcome_of (getDirectedEdge source target) g = Return (Some k) →
  truthy k = true →
  outcome_of (getEdge source target) g = Return (Some k).
Proof.
  intros Ht Hd Hk. unfold outcome_of, getEdge in *. mrun.
  assert (bool_decide (type (_options g) = Mixed)
          || bool_decide (type (_options g) = Directed) = true) as ->.
  { destruct (type (_options g)); done. }
  destruct (getDirectedEdge source target g) as [[r|e] g'] eqn:E; simpl in *; [|done].
  inversion Hd; subst. simpl. by rewrite Hk.
Qed.

Lemma getUndirectedEdge_after_compute source target g :
  getUndirectedEdge source target (computeIndex_state g)
  = getUndirectedEdge source target g.
Proof.
  unfold getUndirectedEdge, bind.
  by rewrite !computeIndex_run, computeIndex_state_idem.
Qed.

(** When it answers a falsy key, the directed lookup counts for nothing: in
    a mixed graph [getEdge] then answers what the undirected lookup
    answers. *)
Lemma getEdge_falsy_directed g source target k :
  type (_options g) = Mixed →
  outcome_of (getDirectedEdge source target) g = Return (Some k) →
  truthy k = false →
  outcome_of (getEdge source target) g = outcome_of (getUndirectedEdge source target) g.
Proof.
  intros Ht Hd Hk. pose proof (getDirectedEdge_state source target g) as Hs.
  unfold outcome_of, state_after in *. unfold getEdge. unfold bind at 1, get at 1.
  cbv beta iota zeta. rewrite Ht. simpl. unfold bind.
  destruct (getDirectedEdge source target g) as [[r|e] g1]; simpl in *; [|done].
  injection Hd as ->. subst g1. simpl. rewrite Hk.
  by rewrite getUndirectedEdge_after_compute.
Qed.

(** C7: [getEdge] tests the answer of the directed lookup with [if (edge)],
    so a directed edge whose key is falsy (here the empty string) is passed
    over: where an undirected edge joins the same nodes its key is returned
    instead, and where none does [getEdge] answers [undefined] although the
    directed lookup found an edge. *)
Theorem getEdge_passes_over_falsy_key map :
  outcome_of (getDirectedEdge "A" "B") (Scenario.both map) = Return (Some EmptyString)
  ∧ outcome_of (getUndirectedEdge "A" "B") (Scenario.both map) = Return (Some "u")
  ∧ outcome_of (getEdge "A" "B") (Scenario.both map) = Return (Some "u")
  ∧ outcome_of (getDirectedEdge "A" "B") (Scenario.empty_key map) = Return (Some EmptyString)
  ∧ outcome_of (getEdge "A" "B") (Scenario.empty_key map) = Return None.
Proof. destruct map; repeat split; vm_compute; reflexivity. Qed.

(** ** Run equations of the mutations *)

Lemma add_edge_tail name u e s t attrs g ns nt :
  _nodes g !! s = Some ns →
  _nodes g !! t = Some nt →
  (let data := mkEdgeData u attrs s t in
   modify (with_edges (insert e data)) ;;
   modify (with_size Z.succ) ;;
   do sourceData <- nodeData s;
   do targetData <- nodeData t;
   (if String.eqb s t
    then modify (with_nodes (alter (set_selfLoops js_incr) s))
    else if u
    then
      modify (with_nodes (alter (set_undirectedDegree js_incr) s)) ;;
      modify (with_nodes (alter (set_undirectedDegree js_incr) t))
    else
      modify (with_nodes (alter (set_outDegree js_incr) s)) ;;
      modify (with_nodes (alter (set_inDegree js_incr) t))) ;;
   _updateIndex name e data ;;
   ret e) g
  = if negb (INDICES_has name) then
      (Throw InvalidArgumentsGraphError,
       with_nodes (bump_degrees js_incr u s t)
         (with_size Z.succ (with_edges (insert e (mkEdgeData u attrs s t)) g)))
    else if String.eqb name "structure"
    then (Return e, add_edge_state u e s t attrs g)
    else (Return e,
          with_nodes (bump_degrees js_incr u s t)
            (with_size Z.succ (with_edges (insert e (mkEdgeData u attrs s t)) g))).
Proof.
  intros Hs Ht. unfold add_edge_state, bump_degrees, _updateIndex, nodeData.
  mrun. rewrite Hs. simpl. rewrite Ht. simpl.
  destruct (INDICES_has name), (String.eqb name "structure"),
    (String.eqb s t), u, (computed (_indices_structure g)) eqn:Hc; simpl; rewrite ?Hc; reflexivity.
Qed.

Lemma has_kind_edge_run (u : bool) s t g :
  (if u then hasUndirectedEdge [s; t] else hasDirectedEdge [s; t]) g
  = (Return (connected u s t (computeIndex_state g)), computeIndex_state g).
Proof.
  destruct u; [apply hasUndirectedEdge2_run | apply hasDirectedEdge2_run].
Qed.

Lemma _addEdge_run name u e s t a g :
  _addEdge name u e s t a g =
  match precheck u e s t a g with
  | Some err => (Throw err, g)
  | None =>
      let g1 := if multi (_options g) then g else computeIndex_state g in
      if negb (multi (_options g)) && connected u s t g1
      then (Throw UsageGraphError, g1)
      else if negb (INDICES_has "structure") then (Throw InvalidArgumentsGraphError, g1)
      else (Return e, add_edge_state u e s t (attr_stored (attr_or_empty a)) g1)
  end.
Proof.
  unfold _addEdge, precheck. unfold bind at 1, get.
  destruct (negb u && type_is Undirected (_options g)); [done|].
  destruct (u && type_is Directed (_options g)); [done|].
  destruct (isPlainObject (attr_or_empty a)); simpl; [|done].
  unfold bind at 1. rewrite hasNode_run.
  destruct (has (_nodes g) s) eqn:Hs; simpl; [|done].
  unfold bind at 1. rewrite hasNode_run.
  destruct (has (_nodes g) t) eqn:Ht; simpl; [|done].
  unfold bind at 1. rewrite hasEdge1_run.
  destruct (has (_edges g) e); simpl; [done|].
  destruct (negb (selfLoops (_options g)) && String.eqb s t); [done|].
  apply has_true in Hs as Hs'. apply has_true in Ht as Ht'.
  destruct (multi (_options g)) eqn:Hm; simpl.
  - unfold bind at 1, ret at 1.
    destruct Hs' as [ns Hns], Ht' as [nt Hnt].
    by rewrite (add_edge_tail "structure" u e s t _ g ns nt Hns Hnt).
  - unfold bind at 1.
    assert (∃ ns, _nodes (computeIndex_state g) !! s = Some ns) as [ns Hns].
    { apply has_true. by rewrite computeIndex_state_has. }
    assert (∃ nt, _nodes (computeIndex_state g) !! t = Some nt) as [nt Hnt].
    { apply has_true. by rewrite computeIndex_state_has. }
    rewrite has_kind_edge_run.
    destruct (connected u s t (computeIndex_state g)); [done|].
    cbv beta iota.
    by rewrite (add_edge_tail "structure" _ e s t _ _ ns nt Hns Hnt).
Qed.

Lemma run_add_edge_run c g :
  run_add_edge c g
  = _addEdge (call_name c) (call_undirected (_options g) c) (call_key (_options g) c)
      (call_source c) (call_target c) (call_attributes c) g.
Proof. destruct c; reflexivity. Qed.

Lemma has_is_Some {V} (m m' : gmap string V) k k' :
  (is_Some (m' !! k') ↔ is_Some (m !! k)) → has m' k' = has m k.
Proof.
  intros H. destruct (has m k) eqn:E.
  - apply has_true. apply H. by apply has_true.
  - apply has_false. apply has_false in E. apply eq_None_not_Some. intros Hs.
    apply H in Hs. rewrite E in Hs. by eapply is_Some_None.
Qed.

Lemma decrement_run set node g :
  decrement set node g =
  if has (_nodes g) node
  then (Return tt, with_nodes (alter (set js_decr) node) g)
  else (Throw TypeError, g).
Proof. unfold decrement. mrun. by destruct (has (_nodes g) node). Qed.

(** When a record is missing [dropEdge] throws a [TypeError] with the edge
    already removed and [size] decremented, and with the counter of the
    source decremented when only the record of the target is missing. *)
Lemma dropEdge_run e g :
  dropEdge e g =
  match _edges g !! e with
  | None => (Throw NotFoundGraphError, g)
  | Some d =>
      let g1 := with_size Z.pred (with_edges (delete e) g) in
      if has (_nodes g) (e_source d) && has (_nodes g) (e_target d)
      then (Return tt, drop_edge_state e d g)
      else (Throw TypeError,
            if has (_nodes g) (e_source d)
            then with_nodes
                   (alter ((if e_undirected d then set_undirectedDegree else set_outDegree)
                             js_decr) (e_source d)) g1
            else g1)
  end.
Proof.
  unfold dropEdge. unfold bind at 1. rewrite hasEdge1_run.
  destruct (_edges g !! e) as [d|] eqn:He.
  - rewrite (has_Some _ _ _ He). simpl. unfold bind at 1.
    rewrite (edgeData_run _ _ _ He).
    unfold drop_edge_state, bump_degrees, _clearEdgeFromIndex. mrun.
    destruct (String.eqb_spec (e_source d) (e_target d)) as [Heq|Hne].
    + rewrite <-Heq. rewrite decrement_run. simpl.
      destruct (has (_nodes g) (e_source d)) eqn:Hs; simpl; [|done].
      by destruct (computed (_indices_structure g)) eqn:Hc; simpl; rewrite ?Hc.
    + destruct (e_undirected d); rewrite decrement_run; simpl;
        (destruct (has (_nodes g) (e_source d)) eqn:Hs; simpl; [|done]);
        rewrite decrement_run; simpl;
        (assert (∀ f, has (alter f (e_source d) (_nodes g)) (e_target d)
                      = has (_nodes g) (e_target d)) as ->
           by (intros f; apply has_is_Some; by rewrite lookup_alter_ne));
        (destruct (has (_nodes g) (e_target d)) eqn:Ht; simpl; [|done]);
        by destruct (computed (_indices_structure g)) eqn:Hc; simpl; rewrite ?Hc.
  - apply has_false in He. by rewrite He.
Qed.

Lemma clearIndex_run g : clearIndex "structure" g = (Return tt, clearIndex_state g).
Proof.
  unfold clearIndex, clearIndex_state. mrun.
  by destruct (computed (_indices_structure g)).
Qed.

(** ** Changes of node records and the registers *)

Lemma size_alter {A} (f : A → A) (m : gmap string A) k : size (alter f k m) = size m.
Proof. rewrite <-!(size_dom (D:=gset string)). by rewrite dom_alter_L. Qed.

Lemma get_set_register rk f nd :
  get_register rk (set_register rk f nd) = f (get_register rk nd).
Proof. by destruct rk. Qed.

Lemma get_set_register_ne rk rk' f nd :
  rk ≠ rk' → get_register rk (set_register rk' f nd) = get_register rk nd.
Proof. by destruct rk, rk'. Qed.

Lemma drop_registers_set_register rk f nd :
  drop_registers (set_register rk f nd) = drop_registers nd.
Proof. by destruct rk. Qed.

Lemma elem_of_set_add e e' l : e ∈ l → e ∈ set_add e' l.
Proof.
  intros H. unfold set_add. case_bool_decide; [done|].
  apply elem_of_app. by left.
Qed.

Lemma elem_of_set_add_new e l : e ∈ set_add e l.
Proof.
  unfold set_add. case_bool_decide; [done|].
  apply elem_of_app. right. by apply list_elem_of_singleton.
Qed.

Lemma set_add_nonempty e l : set_add e l ≠ [].
Proof. intros H. pose proof (elem_of_set_add_new e l) as Hin. rewrite H in Hin. inversion Hin. Qed.

Lemma elem_of_set_delete e e' l : e ≠ e' → e ∈ l → e ∈ set_delete e' l.
Proof. intros Hne H. unfold set_delete. by apply list_elem_of_filter. Qed.

Lemma keeps_counter e f :
  (∀ nd rk, get_register rk (f nd) = get_register rk nd) → keeps e f.
Proof. intros Hf nd rk r k l Hr Hl He. exists r, l. by rewrite Hf. Qed.

Lemma keeps_selfLoops e f : keeps e (set_selfLoops f).
Proof. apply keeps_counter. by intros nd []. Qed.
Lemma keeps_inDegree e f : keeps e (set_inDegree f).
Proof. apply keeps_counter. by intros nd []. Qed.
Lemma keeps_outDegree e f : keeps e (set_outDegree f).
Proof. apply keeps_counter. by intros nd []. Qed.
Lemma keeps_undirectedDegree e f : keeps e (set_undirectedDegree f).
Proof. apply keeps_counter. by intros nd []. Qed.

Lemma keeps_insert e rk' k' e' : keeps e (set_register rk' (register_insert k' e')).
Proof.
  intros nd rk r k l Hr Hl He.
  destruct (decide (rk = rk')) as [->|Hrk].
  - rewrite get_set_register, Hr. unfold register_insert. simpl.
    destruct (decide (k' = k)) as [->|Hk].
    + eexists _, _. split; [done|]. rewrite lookup_insert_eq. split; [done|].
      rewrite Hl. simpl. by apply elem_of_set_add.
    + eexists _, l. split; [done|]. by rewrite lookup_insert_ne.
  - exists r, l. by rewrite get_set_register_ne.
Qed.

Lemma keeps_remove e rk' k' e' :
  e ≠ e' → keeps e (set_register rk' (register_remove k' e')).
Proof.
  intros Hne nd rk r k l Hr Hl He.
  destruct (decide (rk = rk')) as [->|Hrk].
  - rewrite get_set_register, Hr. unfold register_remove.
    destruct (r !! k') as [s|] eqn:Hs; [|by exists r, l].
    destruct (decide (k' = k)) as [->|Hk].
    + assert (s = l) as -> by congruence.
      pose proof (elem_of_set_delete e e' l Hne He) as Hin.
      destruct (set_delete e' l) as [|x s'] eqn:Hd; [inversion Hin|].
      eexists _, _. split; [done|]. by rewrite lookup_insert_eq.
    + destruct (set_delete e' s) as [|x s'].
      * eexists _, l. split; [done|]. by rewrite lookup_delete_ne.
      * eexists _, l. split; [done|]. by rewrite lookup_insert_ne.
  - exists r, l. by rewrite get_set_register_ne.
Qed.

Lemma in_register_alter rk n k e f n' nodes :
  keeps e f → in_register rk n k e nodes → in_register rk n k e (alter f n' nodes).
Proof.
  intros Hk (nd & r & l & Hn & Hr & Hl & He).
  destruct (decide (n' = n)) as [->|Hne].
  - destruct (Hk nd rk r k l Hr Hl He) as (r' & l' & Hr' & Hl' & He').
    exists (f nd), r', l'. by rewrite lookup_alter_eq, Hn.
  - exists nd, r, l. by rewrite lookup_alter_ne.
Qed.

Lemma in_register_insert_here rk n k e nodes :
  is_Some (nodes !! n) →
  in_register rk n k e (alter (set_register rk (register_insert k e)) n nodes).
Proof.
  intros [nd Hn]. unfold in_register.
  eexists _, _, _. rewrite lookup_alter_eq, Hn. simpl. split; [done|].
  rewrite get_set_register. unfold register_insert. split; [done|].
  rewrite lookup_insert_eq. split; [done|]. apply elem_of_set_add_new.
Qed.

Lemma sets_ok_counter f nd :
  (∀ rk, get_register rk (f nd) = get_register rk nd) → sets_ok nd → sets_ok (f nd).
Proof. intros Hf Hok rk r k l Hr Hl. rewrite Hf in Hr. by eapply Hok. Qed.

Lemma sets_ok_insert rk' k' e' nd :
  sets_ok nd → sets_ok (set_register rk' (register_insert k' e') nd).
Proof.
  intros Hok rk r k l Hr Hl.
  destruct (decide (rk = rk')) as [->|Hrk].
  - rewrite get_set_register in Hr. unfold register_insert in Hr.
    injection Hr as <-.
    destruct (decide (k' = k)) as [->|Hk].
    + rewrite lookup_insert_eq in Hl. injection Hl as <-. apply set_add_nonempty.
    + rewrite lookup_insert_ne in Hl by done.
      destruct (get_register rk' nd) as [r0|] eqn:Hr0; simpl in Hl.
      * by eapply Hok.
      * by rewrite lookup_empty in Hl.
  - rewrite get_set_register_ne in Hr by done. by eapply Hok.
Qed.

Lemma sets_ok_remove rk' k' e' nd :
  sets_ok nd → sets_ok (set_register rk' (register_remove k' e') nd).
Proof.
  intros Hok rk r k l Hr Hl.
  destruct (decide (rk = rk')) as [->|Hrk].
  - rewrite get_set_register in Hr. unfold register_remove in Hr.
    destruct (get_register rk' nd) as [r0|] eqn:Hr0; [|done].
    destruct (r0 !! k') as [s|] eqn:Hs.
    + destruct (set_delete e' s) as [|x s'] eqn:Hd; injection Hr as <-.
      * destruct (decide (k' = k)) as [->|Hk].
        -- by rewrite lookup_delete_eq in Hl.
        -- rewrite lookup_delete_ne in Hl by done. by eapply Hok.
      * destruct (decide (k' = k)) as [->|Hk].
        -- rewrite lookup_insert_eq in Hl. by injection Hl as <-.
        -- rewrite lookup_insert_ne in Hl by done. by eapply Hok.
    + injection Hr as <-. by eapply Hok.
  - rewrite get_set_register_ne in Hr by done. by eapply Hok.
Qed.

Lemma all_sets_ok_alter f k nodes :
  (∀ nd, sets_ok nd → sets_ok (f nd)) → all_sets_ok nodes → all_sets_ok (alter f k nodes).
Proof.
  intros Hf Hok n nd Hn.
  destruct (decide (k = n)) as [->|Hne].
  - rewrite lookup_alter_eq in Hn.
    destruct (nodes !! n) as [nd0|] eqn:Hn0; simplify_eq/=. apply Hf. by eapply Hok.
  - rewrite lookup_alter_ne in Hn by done. by eapply Hok.
Qed.

(** *** The three changes of the node store *)

Lemma updateStructureIndex_is_Some e d nodes k :
  is_Some (updateStructureIndex e d nodes !! k) ↔ is_Some (nodes !! k).
Proof. unfold updateStructureIndex. by rewrite !lookup_alter_is_Some. Qed.

Lemma updateStructureIndex_size e d nodes :
  size (updateStructureIndex e d nodes) = size nodes.
Proof. unfold updateStructureIndex. by rewrite !size_alter. Qed.

Lemma updateStructureIndex_sets_ok e d nodes :
  all_sets_ok nodes → all_sets_ok (updateStructureIndex e d nodes).
Proof.
  intros H. unfold updateStructureIndex.
  do 2 (apply all_sets_ok_alter; [intros nd; apply sets_ok_insert|]). done.
Qed.

Lemma updateStructureIndex_keeps e d rk n k e' nodes :
  in_register rk n k e' nodes → in_register rk n k e' (updateStructureIndex e d nodes).
Proof.
  intros H. unfold updateStructureIndex.
  do 2 (apply in_register_alter; [apply keeps_insert|]). done.
Qed.

Lemma updateStructureIndex_registers e d nodes :
  is_Some (nodes !! e_source d) →
  is_Some (nodes !! e_target d) →
  in_register (outKey (e_undirected d)) (e_source d) (e_target d) e
    (updateStructureIndex e d nodes)
  ∧ in_register (inKey (e_undirected d)) (e_target d) (e_source d) e
      (updateStructureIndex e d nodes).
Proof.
  intros Hs Ht. unfold updateStructureIndex. split.
  - apply in_register_alter; [apply keeps_insert|]. by apply in_register_insert_here.
  - apply in_register_insert_here. by rewrite lookup_alter_is_Some.
Qed.

Lemma updateStructureIndex_drop e d nodes :
  drop_registers <$> updateStructureIndex e d nodes = drop_registers <$> nodes.
Proof.
  unfold updateStructureIndex.
  rewrite !(fmap_alter drop_registers _ id), !alter_id; try done.
  all: intros; apply drop_registers_set_register.
Qed.

Lemma clearEdgeFromStructureIndex_is_Some e d nodes k :
  is_Some (clearEdgeFromStructureIndex e d nodes !! k) ↔ is_Some (nodes !! k).
Proof. unfold clearEdgeFromStructureIndex. by rewrite !lookup_alter_is_Some. Qed.

Lemma clearEdgeFromStructureIndex_size e d nodes :
  size (clearEdgeFromStructureIndex e d nodes) = size nodes.
Proof. unfold clearEdgeFromStructureIndex. by rewrite !size_alter. Qed.

Lemma clearEdgeFromStructureIndex_sets_ok e d nodes :
  all_sets_ok nodes → all_sets_ok (clearEdgeFromStructureIndex e d nodes).
Proof.
  intros H. unfold clearEdgeFromStructureIndex.
  do 2 (apply all_sets_ok_alter; [intros nd; apply sets_ok_remove|]). done.
Qed.

Lemma clearEdgeFromStructureIndex_keeps e d rk n k e' nodes :
  e' ≠ e →
  in_register rk n k e' nodes →
  in_register rk n k e' (clearEdgeFromStructureIndex e d nodes).
Proof.
  intros Hne H. unfold clearEdgeFromStructureIndex.
  do 2 (apply in_register_alter; [by apply keeps_remove|]). done.
Qed.

Lemma bump_degrees_is_Some f u s t nodes k :
  is_Some (bump_degrees f u s t nodes !! k) ↔ is_Some (nodes !! k).
Proof.
  unfold bump_degrees.
  destruct (String.eqb s t), u; by rewrite !lookup_alter_is_Some.
Qed.

Lemma bump_degrees_size f u s t nodes : size (bump_degrees f u s t nodes) = size nodes.
Proof. unfold bump_degrees. destruct (String.eqb s t), u; by rewrite !size_alter. Qed.

Lemma bump_degrees_sets_ok f u s t nodes :
  all_sets_ok nodes → all_sets_ok (bump_degrees f u s t nodes).
Proof.
  intros H. unfold bump_degrees.
  destruct (String.eqb s t), u;
    repeat (apply all_sets_ok_alter;
            [intros nd; apply sets_ok_counter; by intros []|]); done.
Qed.

Lemma bump_degrees_keeps f u s t rk n k e nodes :
  in_register rk n k e nodes → in_register rk n k e (bump_degrees f u s t nodes).
Proof.
  intros H. unfold bump_degrees.
  destruct (String.eqb s t), u;
    repeat (apply in_register_alter;
            [first [apply keeps_selfLoops | apply keeps_inDegree
                   | apply keeps_outDegree | apply keeps_undirectedDegree]|]);
    done.
Qed.

Lemma index_all_is_Some l nodes k :
  is_Some (index_all l nodes !! k) ↔ is_Some (nodes !! k).
Proof.
  revert nodes. induction l as [|[e d] l IH]; intros nodes; simpl; [done|].
  by rewrite IH, updateStructureIndex_is_Some.
Qed.

Lemma index_all_size l nodes : size (index_all l nodes) = size nodes.
Proof.
  revert nodes. induction l as [|[e d] l IH]; intros nodes; simpl; [done|].
  by rewrite IH, updateStructureIndex_size.
Qed.

Lemma index_all_sets_ok l nodes : all_sets_ok nodes → all_sets_ok (index_all l nodes).
Proof.
  revert nodes. induction l as [|[e d] l IH]; intros nodes H; simpl; [done|].
  apply IH. by apply updateStructureIndex_sets_ok.
Qed.

Lemma index_all_keeps l rk n k e nodes :
  in_register rk n k e nodes → in_register rk n k e (index_all l nodes).
Proof.
  revert nodes. induction l as [|[e' d] l IH]; intros nodes H; simpl; [done|].
  apply IH. by apply updateStructureIndex_keeps.
Qed.

Lemma index_all_drop l nodes :
  drop_registers <$> index_all l nodes = drop_registers <$> nodes.
Proof.
  revert nodes. induction l as [|[e d] l IH]; intros nodes; simpl; [done|].
  by rewrite IH, updateStructureIndex_drop.
Qed.

(** Every edge of the list is registered once the list has been indexed. *)
Lemma index_all_registers l nodes e d :
  (∀ e' d', (e', d') ∈ l →
     is_Some (nodes !! e_source d') ∧ is_Some (nodes !! e_target d')) →
  (e, d) ∈ l →
  in_register (outKey (e_undirected d)) (e_source d) (e_target d) e (index_all l nodes)
  ∧ in_register (inKey (e_undirected d)) (e_target d) (e_source d) e (index_all l nodes).
Proof.
  revert nodes. induction l as [|[e0 d0] l IH]; intros nodes Hends Hin.
  - inversion Hin.
  - simpl. apply elem_of_cons in Hin as [Heq|Hin].
    + injection Heq as -> ->.
      destruct (Hends e0 d0) as [Hs Ht]; [by left|].
      destruct (updateStructureIndex_registers e0 d0 nodes Hs Ht) as [Ho Hi].
      split; by apply index_all_keeps.
    + apply IH; [|done]. intros e' d' Hin'.
      rewrite !updateStructureIndex_is_Some. apply (Hends e' d'). by right.
Qed.

(** ** The invariant is kept *)

Lemma consistent_new o : consistent (new_Graph o).
Proof.
  constructor; simpl; done.
Qed.

Lemma consistent_computeIndex_state g :
  consistent g → consistent (computeIndex_state g).
Proof.
  intros H. unfold computeIndex_state.
  destruct (computed (_indices_structure g)) eqn:Hc; [done|].
  destruct H as [Ho Hs He Hi Hok]. constructor; simpl.
  - by rewrite index_all_size.
  - done.
  - intros e d Hed. rewrite !index_all_is_Some. by apply (He e d).
  - intros _ e d Hed. apply index_all_registers.
    + intros e' d' Hin. apply elem_of_map_to_list in Hin. by apply (He e' d').
    + by apply elem_of_map_to_list.
  - by apply index_all_sets_ok.
Qed.

Lemma consistent_clearIndex_state g :
  consistent g → consistent (clearIndex_state g).
Proof.
  intros H. unfold clearIndex_state.
  destruct (computed (_indices_structure g)) eqn:Hc; [|done].
  destruct H as [Ho Hs He Hi Hok]. constructor; simpl; try done.
  - unfold clearStructureIndex. by rewrite map_size_fmap.
  - intros e d Hed. unfold clearStructureIndex. rewrite !lookup_fmap, !fmap_is_Some.
    by apply (He e d).
  - intros n nd Hn. unfold clearStructureIndex in Hn.
    apply lookup_fmap_Some in Hn as (nd0 & <- & _).
    intros rk r k l Hr. by destruct rk.
Qed.

Lemma consistent_insert_node g node data :
  _nodes g !! node = None →
  sets_ok data →
  consistent g →
  consistent (with_order Z.succ (with_nodes (insert node data) g)).
Proof.
  intros Hn Hd [Ho Hs He Hi Hok]. constructor; simpl.
  - rewrite map_size_insert_None by done. rewrite Ho. lia.
  - done.
  - intros e d Hed. rewrite !lookup_insert_is_Some.
    destruct (He e d Hed) as [H1 H2].
    split; right; (split; [|done]); intros Heq; rewrite Heq in Hn;
      [rewrite Hn in H1 | rewrite Hn in H2]; by eapply is_Some_None.
  - intros Hc e d Hed. destruct (Hi Hc e d Hed) as [H1 H2].
    split; [destruct H1 as (nd & r & l & H & ?) | destruct H2 as (nd & r & l & H & ?)];
      exists nd, r, l; (split; [|done]); rewrite lookup_insert_ne; try done;
      intros ->; congruence.
  - intros n nd Hnd. destruct (decide (node = n)) as [->|Hne].
    + rewrite lookup_insert_eq in Hnd. by injection Hnd as <-.
    + rewrite lookup_insert_ne in Hnd by done. by eapply Hok.
Qed.

Lemma consistent_add_edge_state u e s t attrs g :
  is_Some (_nodes g !! s) →
  is_Some (_nodes g !! t) →
  _edges g !! e = None →
  consistent g →
  consistent (add_edge_state u e s t attrs g).
Proof.
  intros Hns Hnt Hfresh [Ho Hs He Hi Hok].
  assert (∀ e' d', <[e:=mkEdgeData u attrs s t]> (_edges g) !! e' = Some d' →
            (e' = e ∧ d' = mkEdgeData u attrs s t) ∨ (e' ≠ e ∧ _edges g !! e' = Some d'))
    as Hcases.
  { intros e' d' H. apply lookup_insert_Some in H as [[-> <-]|[? ?]]; eauto. }
  unfold add_edge_state. simpl.
  destruct (computed (_indices_structure g)) eqn:Hc; constructor; simpl.
  - by rewrite updateStructureIndex_size, bump_degrees_size.
  - rewrite map_size_insert_None by done. rewrite Hs. lia.
  - intros e' d' H. rewrite !updateStructureIndex_is_Some, !bump_degrees_is_Some.
    destruct (Hcases e' d' H) as [[-> ->]|[_ H']]; [done|by apply (He e' d')].
  - intros _ e' d' H. destruct (Hcases e' d' H) as [[-> ->]|[_ H']].
    + apply (updateStructureIndex_registers e (mkEdgeData u attrs s t)); simpl;
        by rewrite bump_degrees_is_Some.
    + destruct (Hi eq_refl e' d' H') as [H1 H2].
      split; by apply updateStructureIndex_keeps, bump_degrees_keeps.
  - by apply updateStructureIndex_sets_ok, bump_degrees_sets_ok.
  - by rewrite bump_degrees_size.
  - rewrite map_size_insert_None by done. rewrite Hs. lia.
  - intros e' d' H. rewrite !bump_degrees_is_Some.
    destruct (Hcases e' d' H) as [[-> ->]|[_ H']]; [done|by apply (He e' d')].
  - by rewrite Hc.
  - by apply bump_degrees_sets_ok.
Qed.

Lemma size_delete_Some {A} (m : gmap string A) k v :
  m !! k = Some v → Z.pred (Z.of_nat (size m)) = Z.of_nat (size (delete k m)).
Proof.
  intros H. rewrite <-(insert_delete_id m k v H) at 1.
  rewrite map_size_insert_None by apply lookup_delete_eq. lia.
Qed.

Lemma consistent_drop_edge_state e d g :
  _edges g !! e = Some d →
  consistent g →
  consistent (drop_edge_state e d g).
Proof.
  intros Hed [Ho Hs He Hi Hok]. unfold drop_edge_state. simpl.
  destruct (computed (_indices_structure g)) eqn:Hc; constructor; simpl.
  - by rewrite clearEdgeFromStructureIndex_size, bump_degrees_size.
  - rewrite Hs. by apply size_delete_Some with d.
  - intros e' d' H. apply lookup_delete_Some in H as [_ H].
    rewrite !clearEdgeFromStructureIndex_is_Some, !bump_degrees_is_Some.
    by apply (He e' d').
  - intros _ e' d' H. apply lookup_delete_Some in H as [Hne H].
    destruct (Hi eq_refl e' d' H) as [H1 H2].
    split; apply clearEdgeFromStructureIndex_keeps, bump_degrees_keeps; done.
  - by apply clearEdgeFromStructureIndex_sets_ok, bump_degrees_sets_ok.
  - by rewrite bump_degrees_size.
  - rewrite Hs. by apply size_delete_Some with d.
  - intros e' d' H. apply lookup_delete_Some in H as [_ H].
    rewrite !bump_degrees_is_Some. by apply (He e' d').
  - by rewrite Hc.
  - by apply bump_degrees_sets_ok.
Qed.

Lemma inv_computeIndex_state o g : inv o g → inv o (computeIndex_state g).
Proof.
  intros [Ho Hc]. split.
  - by rewrite computeIndex_state_options.
  - by apply consistent_computeIndex_state.
Qed.

Lemma inv_clearIndex_state o g : inv o g → inv o (clearIndex_state g).
Proof.
  intros [Ho Hc]. split.
  - unfold clearIndex_state. by destruct (computed (_indices_structure g)).
  - by apply consistent_clearIndex_state.
Qed.

Lemma computeIndex_state_cases name g :
  state_after (computeIndex name) g = g
  ∨ state_after (computeIndex name) g = computeIndex_state g.
Proof.
  unfold state_after, computeIndex.
  destruct (INDICES_has name); simpl; [|by left].
  destruct (String.eqb_spec name "structure") as [->|]; [|by left].
  right. pose proof (computeIndex_run g) as H. unfold computeIndex in H. simpl in H.
  by rewrite H.
Qed.

Lemma clearIndex_state_cases name g :
  state_after (clearIndex name) g = g
  ∨ state_after (clearIndex name) g = clearIndex_state g.
Proof.
  unfold state_after, clearIndex.
  destruct (INDICES_has name); simpl; [|by left].
  destruct (String.eqb_spec name "structure") as [->|]; [|by left].
  right. pose proof (clearIndex_run g) as H. unfold clearIndex in H. simpl in H.
  by rewrite H.
Qed.

Lemma hasDirectedEdge_state_cases args g :
  state_after (hasDirectedEdge args) g = g
  ∨ state_after (hasDirectedEdge args) g = computeIndex_state g.
Proof.
  destruct args as [|a [|b [|c args]]].
  - by left.
  - left. unfold state_after, hasDirectedEdge. read_only.
  - right. unfold state_after. by rewrite hasDirectedEdge2_run.
  - by left.
Qed.

Lemma hasUndirectedEdge_state_cases args g :
  state_after (hasUndirectedEdge args) g = g
  ∨ state_after (hasUndirectedEdge args) g = computeIndex_state g.
Proof.
  destruct args as [|a [|b [|c args]]].
  - by left.
  - left. unfold state_after, hasUndirectedEdge. read_only.
  - right. unfold state_after. by rewrite hasUndirectedEdge2_run.
  - by left.
Qed.

Lemma hasEdge_state_cases args g :
  state_after (hasEdge args) g = g
  ∨ state_after (hasEdge args) g = computeIndex_state g.
Proof.
  destruct args as [|a [|b [|c args]]].
  - by left.
  - left. unfold state_after. by rewrite hasEdge1_run.
  - right. unfold state_after. by rewrite hasEdge2_run.
  - by left.
Qed.

Lemma state_after_ignore {A} (m : M A) g : state_after (ignore m) g = state_after m g.
Proof. unfold state_after, ignore. mrun. by destruct (m g) as [[a|e] g']. Qed.

(** *** Nodes *)

Lemma fresh_record_sets_ok attrs a b c d : sets_ok (mkNodeData attrs a b c d None None None None).
Proof. intros rk r k l Hr. by destruct rk. Qed.

Lemma inv_addNode o node attributes g :
  inv o g → inv o (state_after (addNode node attributes) g).
Proof.
  intros [Ho Hc]. unfold state_after, addNode.
  destruct (match attributes with Some a => negb (isPlainObject a) | None => false end);
    [done|].
  unfold bind at 1. rewrite hasNode_run.
  destruct (has (_nodes g) node) eqn:Hn; simpl; [done|].
  apply has_false in Hn. mrun. split; [done|].
  refine (consistent_insert_node g node _ Hn _ Hc).
  destruct (bool_decide (type (_options g) = Mixed) || bool_decide (type (_options g) = Directed)),
    (bool_decide (type (_options g) = Mixed) || bool_decide (type (_options g) = Undirected));
    apply fresh_record_sets_ok.
Qed.

Lemma inv_for_each {A} o (f : A → M unit) l g :
  (∀ x g, inv o g → inv o (state_after (f x) g)) →
  inv o g → inv o (state_after (for_each l f) g).
Proof.
  intros Hf. revert g. induction l as [|x l IH]; intros g Hg; simpl; [done|].
  unfold state_after, bind. specialize (Hf x g Hg). unfold state_after in Hf.
  destruct (f x g) as [[[]|err] g1]; simpl in *; [|done].
  by apply IH.
Qed.

Lemma inv_addNodesFrom o bunch g :
  inv o g → inv o (state_after (addNodesFrom bunch) g).
Proof.
  intros Hg. destruct bunch as [|items]; [done|].
  unfold addNodesFrom. apply inv_for_each; [|done].
  intros [node attributes] g' Hg'.
  pose proof (inv_addNode o node (Some attributes) g' Hg') as H.
  unfold state_after, bind in *.
  by destruct (addNode node (Some attributes) g') as [[a|err] g1].
Qed.

(** *** Edges *)

Lemma precheck_None u e s t a g :
  precheck u e s t a g = None →
  is_Some (_nodes g !! s) ∧ is_Some (_nodes g !! t) ∧ _edges g !! e = None
  ∧ isPlainObject (attr_or_empty a) = true.
Proof.
  unfold precheck.
  destruct (negb u && type_is Undirected (_options g)); [done|].
  destruct (u && type_is Directed (_options g)); [done|].
  destruct (isPlainObject (attr_or_empty a)); [|done].
  destruct (has (_nodes g) s) eqn:Hs; [|done].
  destruct (has (_nodes g) t) eqn:Ht; [|done].
  destruct (has (_edges g) e) eqn:He; [done|].
  intros _. repeat split; try by apply has_true. by apply has_false.
Qed.

Lemma add_edge_state_options u e s t attrs g :
  _options (add_edge_state u e s t attrs g) = _options g.
Proof. unfold add_edge_state. simpl. by destruct (computed (_indices_structure g)). Qed.

Lemma inv__addEdge o name u e s t a g :
  inv o g → inv o (state_after (_addEdge name u e s t a) g).
Proof.
  intros Hg. unfold state_after. rewrite _addEdge_run.
  destruct (precheck u e s t a g) eqn:Hp; [done|].
  apply precheck_None in Hp as (Hs & Ht & He & _).
  set (g1 := if multi (_options g) then g else computeIndex_state g).
  assert (inv o g1 ∧ is_Some (_nodes g1 !! s) ∧ is_Some (_nodes g1 !! t)
          ∧ _edges g1 !! e = None) as ([Ho1 Hc1] & Hs1 & Ht1 & He1).
  { unfold g1. destruct (multi (_options g)); [done|].
    split; [by apply inv_computeIndex_state|].
    rewrite <-!has_true, !computeIndex_state_has, !has_true.
    by rewrite computeIndex_state_edges. }
  simpl. destruct (negb (multi (_options g)) && connected u s t g1); simpl; [done|].
  split.
  - by rewrite add_edge_state_options.
  - by apply consistent_add_edge_state.
Qed.

Lemma inv_run_add_edge o c g :
  inv o g → inv o (state_after (run_add_edge c) g).
Proof. intros Hg. unfold state_after. rewrite run_add_edge_run. by apply inv__addEdge. Qed.

(** On a consistent instance [dropEdge] either finds no such edge or
    completes. *)
Lemma dropEdge_consistent_run e g :
  consistent g →
  (_edges g !! e = None ∧ dropEdge e g = (Throw NotFoundGraphError, g))
  ∨ (∃ d, _edges g !! e = Some d ∧ dropEdge e g = (Return tt, drop_edge_state e d g)).
Proof.
  intros Hc. rewrite dropEdge_run.
  destruct (_edges g !! e) as [d|] eqn:He; [right|by left].
  exists d. split; [done|].
  destruct (cons_ends g Hc e d He) as [Hs Ht].
  apply has_true in Hs, Ht. by rewrite Hs, Ht.
Qed.

Lemma drop_edge_state_options e d g : _options (drop_edge_state e d g) = _options g.
Proof. unfold drop_edge_state. simpl. by destruct (computed (_indices_structure g)). Qed.

Lemma drop_edge_state_order e d g : _order (drop_edge_state e d g) = _order g.
Proof. unfold drop_edge_state. simpl. by destruct (computed (_indices_structure g)). Qed.

Lemma drop_edge_state_edges e d g : _edges (drop_edge_state e d g) = delete e (_edges g).
Proof. unfold drop_edge_state. simpl. by destruct (computed (_indices_structure g)). Qed.

Lemma drop_edge_state_is_Some e d g k :
  is_Some (_nodes (drop_edge_state e d g) !! k) ↔ is_Some (_nodes g !! k).
Proof.
  unfold drop_edge_state. simpl. destruct (computed (_indices_structure g)); simpl.
  - by rewrite clearEdgeFromStructureIndex_is_Some, bump_degrees_is_Some.
  - by rewrite bump_degrees_is_Some.
Qed.

Lemma inv_dropEdge o e g : inv o g → inv o (state_after (dropEdge e) g).
Proof.
  intros [Ho Hc]. unfold state_after.
  destruct (dropEdge_consistent_run e g Hc) as [[_ ->]|(d & He & ->)]; simpl; [done|].
  split.
  - by rewrite drop_edge_state_options.
  - by apply consistent_drop_edge_state.
Qed.

(** The loop of [dropNode]: what holds of the instance it leaves, and, when
    it runs to its end, which edges are left. *)
Lemma for_each_dropEdge o l g :
  inv o g →
  inv o (state_after (for_each l dropEdge) g)
  ∧ _order (state_after (for_each l dropEdge) g) = _order g
  ∧ (∀ k, is_Some (_nodes (state_after (for_each l dropEdge) g) !! k)
          ↔ is_Some (_nodes g !! k))
  ∧ (outcome_of (for_each l dropEdge) g = Return tt →
     ∀ e d, _edges (state_after (for_each l dropEdge) g) !! e = Some d →
            _edges g !! e = Some d ∧ e ∉ l).
Proof.
  revert g. induction l as [|e0 l IH]; intros g Hg.
  - split; [done|]. split; [done|]. split; [done|].
    intros _ e d Hed. split; [done|]. apply not_elem_of_nil.
  - unfold state_after, outcome_of. simpl. unfold bind.
    destruct (dropEdge_consistent_run e0 g (proj2 Hg)) as [[_ ->]|(d0 & He0 & ->)].
    + simpl. split; [done|]. split; [done|]. split; done.
    + pose proof (consistent_drop_edge_state e0 d0 g He0 (proj2 Hg)) as Hc1.
      assert (inv o (drop_edge_state e0 d0 g)) as Hg1.
      { split; [|done]. rewrite drop_edge_state_options. apply Hg. }
      destruct (IH _ Hg1) as (Hi & Hord & Hkeys & Hedges).
      unfold state_after, outcome_of in *.
      split; [done|]. split; [by rewrite Hord, drop_edge_state_order|].
      split; [intros k; by rewrite Hkeys, drop_edge_state_is_Some|].
      intros Hr e d Hed. destruct (Hedges Hr e d Hed) as [H1 H2].
      rewrite drop_edge_state_edges in H1. apply lookup_delete_Some in H1 as [Hne H1].
      split; [done|]. intros Hin. apply elem_of_cons in Hin as [->|Hin]; done.
Qed.

Lemma elem_of_edges_of node g e d :
  _edges g !! e = Some d →
  e_source d = node ∨ e_target d = node →
  e ∈ edges_of node g.
Proof.
  intros He Hd. unfold edges_of. apply list_elem_of_fmap. exists (e, d).
  split; [done|]. apply elem_of_map_to_list. by apply map_lookup_filter_Some.
Qed.

Lemma edges_of_computeIndex_state node g :
  edges_of node (computeIndex_state g) = edges_of node g.
Proof. unfold edges_of. by rewrite computeIndex_state_edges. Qed.

Lemma edges_run node g : edges node g = (Return (edges_of node g), computeIndex_state g).
Proof.
  unfold edges. unfold bind at 1. rewrite computeIndex_run. mrun.
  by rewrite edges_of_computeIndex_state.
Qed.

(** [dropNode] on an existing node: the structure index is computed by
    [edges(node)], then the loop and the removal run. *)
Lemma dropNode_eq node g :
  dropNode node g =
  if has (_nodes g) node
  then (for_each (edges_of node (computeIndex_state g)) dropEdge ;;
        modify (with_nodes (delete node)) ;;
        modify (with_order Z.pred)) (computeIndex_state g)
  else (Throw NotFoundGraphError, g).
Proof.
  unfold dropNode. unfold bind at 1. rewrite hasNode_run.
  destruct (has (_nodes g) node); simpl; [|done].
  unfold bind at 1. by rewrite edges_run, edges_of_computeIndex_state.
Qed.

Lemma inv_dropNode o node g : inv o g → inv o (state_after (dropNode node) g).
Proof.
  intros Hg. unfold state_after. rewrite dropNode_eq.
  destruct (has (_nodes g) node) eqn:Hn; [|done].
  rewrite <-(computeIndex_state_has g node) in Hn.
  apply inv_computeIndex_state in Hg.
  generalize dependent (computeIndex_state g). clear g. intros g Hg Hn.
  unfold bind at 1.
  destruct (for_each_dropEdge o (edges_of node g) g Hg) as (Hi & Hord & Hkeys & Hedges).
  unfold state_after, outcome_of in *.
  destruct (for_each (edges_of node g) dropEdge g) as [[[]|err] g1]; simpl in *; [|done].
  mrun. destruct Hi as [Ho1 [Ho Hs He Hidx Hok]].
  assert (is_Some (_nodes g1 !! node)) as [nd Hnd].
  { apply Hkeys. by apply has_true. }
  assert (∀ e d, _edges g1 !! e = Some d → e_source d ≠ node ∧ e_target d ≠ node)
    as Hfar.
  { intros e d Hed. destruct (Hedges eq_refl e d Hed) as [H1 H2].
    split; intros Heq; apply H2; eapply elem_of_edges_of; eauto. }
  split; [done|]. constructor; simpl.
  - rewrite Ho. by apply size_delete_Some with nd.
  - done.
  - intros e d Hed. destruct (Hfar e d Hed) as [H1 H2].
    rewrite !lookup_delete_ne by done. by apply (He e d).
  - intros Hc e d Hed. destruct (Hfar e d Hed) as [H1 H2].
    destruct (Hidx Hc e d Hed) as [(n1 & r1 & l1 & Hn1 & ?) (n2 & r2 & l2 & Hn2 & ?)].
    split; [exists n1, r1, l1 | exists n2, r2, l2]; (split; [|done]);
      by rewrite lookup_delete_ne.
  - intros n nd' Hn'. apply lookup_delete_Some in Hn' as [_ Hn']. by eapply Hok.
Qed.

Lemma inv_clear o g : inv o g → inv o (state_after clear g).
Proof.
  intros [Ho _]. split; [done|]. constructor; simpl; done.
Qed.

(** Every call of the public interface keeps the invariant, also when it
    throws. *)
Lemma inv_run_call o c g : inv o g → inv o (state_after (run_call c) g).
Proof.
  intros Hg. destruct c; simpl; rewrite ?state_after_ignore.
  - by apply inv_addNode.
  - by apply inv_addNodesFrom.
  - by apply inv_run_add_edge.
  - by apply inv_dropNode.
  - by apply inv_dropEdge.
  - by apply inv_clear.
  - destruct (computeIndex_state_cases name g) as [-> | ->];
      [done | by apply inv_computeIndex_state].
  - destruct (clearIndex_state_cases name g) as [-> | ->];
      [done | by apply inv_clearIndex_state].
  - destruct (hasEdge_state_cases args g) as [-> | ->];
      [done | by apply inv_computeIndex_state].
  - destruct (hasDirectedEdge_state_cases args g) as [-> | ->];
      [done | by apply inv_computeIndex_state].
  - destruct (hasUndirectedEdge_state_cases args g) as [-> | ->];
      [done | by apply inv_computeIndex_state].
  - rewrite getEdge_state. by apply inv_computeIndex_state.
  - rewrite getDirectedEdge_state. by apply inv_computeIndex_state.
  - rewrite getUndirectedEdge_state. by apply inv_computeIndex_state.
Qed.

Lemma inv_run_calls o cs g : inv o g → inv o (run_calls cs g).
Proof.
  revert g. induction cs as [|c cs IH]; intros g Hg; simpl; [done|].
  apply IH. by apply inv_run_call.
Qed.

Lemma inv_reachable o cs : inv o (run_calls cs (new_Graph o)).
Proof. apply inv_run_calls. split; [done|]. apply consistent_new. Qed.

(** With membership taken among the stored keys, after any sequence of
    calls on a new graph [order] is the number of node records in the
    store and [size] the number of edge records. *)
Lemma order_and_size_count_records o cs :
  let g := run_calls cs (new_Graph o) in
  order g = Z.of_nat (size (_nodes g)) ∧ size_ g = Z.of_nat (size (_edges g)).
Proof.
  simpl. destruct (inv_reachable o cs) as [_ [Ho Hs _ _ _]]. by split.
Qed.

(** On keys that are not inherited names, and on a [Map] store, the two
    embeddings of [dropEdge] give the same result. *)
Lemma inherited_dropEdge_plain edge g :
  Inherited.plain g edge = true →
  (∀ d, _edges g !! edge = Some d →
        Inherited.plain g (e_source d) = true ∧ Inherited.plain g (e_target d) = true) →
  Inherited.dropEdge edge g = Some (dropEdge edge g).
Proof.
  intros He Hends.
  assert (∀ (set : (jsnum → jsnum) → NodeData → NodeData) k g',
            _options g' = _options g →
            Inherited.plain g k = true →
            Inherited.decrement set (Inherited.VString k) g' = Some (decrement set k g'))
    as Hdec.
  { intros set k g' Ho Hk. rewrite decrement_run.
    unfold Inherited.decrement, Inherited.node_slot, Inherited.slot, Inherited.plain in *.
    rewrite Ho. simpl.
    destruct (_nodes g' !! k) as [nd|] eqn:Hnd.
    - rewrite (has_Some _ _ _ Hnd). by destruct (map (_options g)).
    - apply has_false in Hnd as Hh. rewrite Hh.
      destruct (map (_options g)); simpl in *; [done|].
      apply negb_true_iff in Hk. by rewrite Hk. }
  unfold Inherited.dropEdge, Inherited.and_then, Inherited.lift, dropEdge.
  rewrite (inherited_hasEdge1_plain _ _ He). unfold bind at 1. rewrite hasEdge1_run.
  destruct (_edges g !! edge) as [d|] eqn:Hd.
  - destruct (Hends d eq_refl) as [Hs Ht].
    rewrite (has_Some _ _ _ Hd). simpl. unfold bind at 1.
    rewrite (edgeData_run _ _ _ Hd). unfold Inherited.slot. rewrite Hd. mrun.
    destruct (String.eqb (e_source d) (e_target d)).
    + rewrite Hdec by done. rewrite decrement_run. simpl.
      by destruct (has (_nodes g) (e_source d)).
    + destruct (e_undirected d).
      * rewrite Hdec by done. rewrite decrement_run. simpl.
        destruct (has (_nodes g) (e_source d)); [|done].
        rewrite Hdec by done. rewrite decrement_run. simpl.
        by destruct (has _ (e_target d)).
      * rewrite Hdec by done. rewrite decrement_run. simpl.
        destruct (has (_nodes g) (e_source d)); [|done].
        rewrite Hdec by done. rewrite decrement_run. simpl.
        by destruct (has _ (e_target d)).
  - apply has_false in Hd. by rewrite Hd.
Qed.

(** C3, the claim fails on the code: on an object store ['constructor'] is
    no edge of a new graph, yet [edge in this._edges] is true of it;
    [dropEdge('constructor')] passes the existence test, decrements [size]
    and then throws a [TypeError].  The graph is left with [size = -1] and
    no edge record. *)
Theorem dropEdge_inherited_name_breaks_size :
  let g := new_Graph (Scenario.options Mixed) in
  let g' := with_size Z.pred g in
  Inherited.dropEdge "constructor" g = Some (Throw TypeError, g')
  ∧ size_ g' = -1
  ∧ Z.of_nat (size (_edges g')) = 0.
Proof. repeat split; vm_compute; reflexivity. Qed.

(** ** A failed add-edge call *)

Lemma computeIndex_state_drop g :
  drop_registers <$> _nodes (computeIndex_state g) = drop_registers <$> _nodes g.
Proof.
  unfold computeIndex_state. destruct (computed (_indices_structure g)); [done|].
  simpl. apply index_all_drop.
Qed.

(** C5, the claim as stated fails: on Scenario A with its index discarded,
    a second 'A' to 'B' edge is refused, yet the call has recomputed the
    structure index, so the node store is not what it was (the record of 'A'
    has its [out] register back). *)
Lemma failed_add_edge_computes_index :
  let call := CallAddDirectedEdgeWithKey "e2" "A" "B" AttrUndefined in
  outcome_of (run_add_edge call) Scenario.cleared = Throw UsageGraphError
  ∧ n_out <$> _nodes Scenario.cleared !! "A" = Some None
  ∧ n_out <$> _nodes (state_after (run_add_edge call) Scenario.cleared) !! "A"
    = Some (Some {["B" := ["e1"]]})
  ∧ state_after (run_add_edge call) Scenario.cleared ≠ Scenario.cleared.
Proof.
  repeat split; try (vm_compute; reflexivity).
  intros H.
  apply (f_equal (fun g => computed (_indices_structure g))) in H.
  vm_compute in H. discriminate.
Qed.

(** C5, amended: an add-edge call that throws leaves [order], [size], the
    edge store, the node keys and every node's attributes and counters as
    they were.  When it fails at one of the first six checks (kind,
    attributes, source, target, key in use, self-loop) the whole instance,
    registers and [computed] flag included, is unchanged.  When it passes
    them and fails at the test for an edge already joining the nodes (on a
    graph with [multi = false]) the error is a [UsageGraphError] and the
    instance is the one [computeIndex('structure')] leaves. *)
Theorem failed_add_edge_keeps_entities g call err :
  outcome_of (run_add_edge call) g = Throw err →
  let g' := state_after (run_add_edge call) g in
  let o := _options g in
  order g' = order g
  ∧ size_ g' = size_ g
  ∧ _edges g' = _edges g
  ∧ drop_registers <$> _nodes g' = drop_registers <$> _nodes g
  ∧ match precheck (call_undirected o call) (call_key o call) (call_source call)
            (call_target call) (call_attributes call) g with
    | Some early => err = early ∧ g' = g
    | None =>
        multi o = false
        ∧ err = UsageGraphError
        ∧ (if call_undirected o call then hasUndirectedEdge else hasDirectedEdge)
            [call_source call; call_target call] g'
          = (Return true, g')
        ∧ g' = state_after (computeIndex "structure") g
    end.
Proof.
  unfold outcome_of, state_after, order, size_.
  rewrite run_add_edge_run, _addEdge_run, computeIndex_run.
  destruct (precheck _ _ _ _ _ g) as [err'|]; simpl.
  - intros [= <-]. by repeat split.
  - destruct (multi (_options g)); simpl; [done|].
    destruct (connected _ _ _ (computeIndex_state g)) eqn:Hc; simpl; [|done].
    intros [= <-].
    rewrite computeIndex_state_order, computeIndex_state_size,
      computeIndex_state_edges, computeIndex_state_drop.
    repeat split.
    unfold connected in Hc. destruct (call_undirected (_options g) call).
    + by rewrite hasUndirectedEdge2_run, computeIndex_state_idem, Hc.
    + by rewrite hasDirectedEdge2_run, computeIndex_state_idem, Hc.
Qed.

Lemma failed_add_edge_keeps_entities_witness :
  let call := CallAddDirectedEdgeWithKey "e2" "A" "B" AttrUndefined in
  let g := Scenario.cleared in
  let g' := state_after (run_add_edge call) g in
  outcome_of (run_add_edge call) g = Throw UsageGraphError
  ∧ order g' = order g
  ∧ size_ g' = size_ g
  ∧ _edges g' = _edges g
  ∧ drop_registers <$> _nodes g' = drop_registers <$> _nodes g
  ∧ multi (_options g) = false
  ∧ hasDirectedEdge ["A"; "B"] g' = (Return true, g')
  ∧ g' = state_after (computeIndex "structure") g.
Proof.
  split; [vm_compute; reflexivity|].
  pose proof (failed_add_edge_keeps_entities Scenario.cleared
                (CallAddDirectedEdgeWithKey "e2" "A" "B" AttrUndefined) UsageGraphError)
    as H.
  destruct H as (H1 & H2 & H3 & H4 & H5); [vm_compute; reflexivity|].
  split; [exact H1|]. split; [exact H2|]. split; [exact H3|]. split; [exact H4|].
  assert (precheck false "e2" "A" "B" AttrUndefined Scenario.cleared = None) as Hp
    by (vm_compute; reflexivity).
  cbv zeta in H5. simpl call_undirected in H5. simpl call_key in H5.
  simpl call_source in H5. simpl call_target in H5. simpl call_attributes in H5.
  rewrite Hp in H5. destruct H5 as (Hm & _ & Hh & Hs).
  split; [exact Hm|]. split; [exact Hh|exact Hs].
Defined.

(** ** An edge that already joins the nodes *)

Lemma nonempty_length (l : list string) e : e ∈ l → negb (length l =? 0)%nat = true.
Proof. intros H. by destruct l; [inversion H|]. Qed.

Lemma connected_registered u s t g :
  consistent g →
  computed (_indices_structure g) = true →
  already_connected u s t g →
  connected u s t g = true.
Proof.
  intros Hc Hcomp (e0 & d0 & He0 & Hu & Hends).
  destruct (cons_ends g Hc e0 d0 He0) as [Hs0 Ht0].
  destruct (cons_index g Hc Hcomp e0 d0 He0) as [Hout Hin].
  assert (has (_nodes g) s = true ∧ has (_nodes g) t = true) as [Hs Ht].
  { rewrite !has_true.
    destruct Hends as [[<- <-]|(_ & <- & <-)]; by split. }
  unfold connected, directed_connected, undirected_connected.
  rewrite Hs, Ht. simpl.
  destruct Hends as [[<- <-]|(-> & <- & <-)].
  - rewrite Hu in Hout. destruct Hout as (nd & r & l & Hn & Hr & Hl & Hel).
    rewrite Hn. destruct u; simpl in Hr.
    + unfold undirected_edges, register_get. rewrite Hr, Hl. by eapply nonempty_length.
    + unfold register_get. rewrite Hr, Hl. by eapply nonempty_length.
  - rewrite Hu in Hin. destruct Hin as (nd & r & l & Hn & Hr & Hl & Hel).
    rewrite Hn. simpl in Hr. unfold undirected_edges.
    destruct (register_get (n_undirectedOut nd) (e_source d0)) as [l'|] eqn:Hl'.
    + unfold register_get in Hl'.
      destruct (n_undirectedOut nd) as [r'|] eqn:Hr'; [|done].
      pose proof (cons_sets g Hc _ _ Hn undirectedOut r' _ l' Hr' Hl') as Hne.
      by destruct l'.
    + unfold register_get. rewrite Hr, Hl. by eapply nonempty_length.
Qed.





(** * Further properties of the class

    A reachable state is the instance after any sequence of public calls
    on a new graph, refused calls included.  Node and edge keys are strings
    and a store holds the keys the instance has put there: on an object
    store ([map = false]) the names every JavaScript object inherits, such
    as [constructor], are outside the keys considered; what the methods do
    on them is the matter of [Inherited]. *)

(** ** Public calls as sequences of elementary changes *)

Lemma addNode_run node attributes g :
  addNode node attributes g =
  if (match attributes with Some a => negb (isPlainObject a) | None => false end)
  then (Throw InvalidArgumentsGraphError, g)
  else if has (_nodes g) node then (Throw UsageGraphError, g)
  else (Return node,
        add_node_state node
          (attr_stored (attr_or_empty (default AttrUndefined attributes))) g).
Proof.
  unfold addNode.
  destruct (match attributes with Some a => negb (isPlainObject a) | None => false end);
    [done|].
  unfold bind at 1. rewrite hasNode_run.
  destruct (has (_nodes g) node); [done|]. reflexivity.
Qed.

Lemma inv_step o g g' : inv o g → step g g' → inv o g'.
Proof.
  intros [Ho Hc] Hs. destruct Hs.
  - by apply inv_computeIndex_state.
  - by apply inv_clearIndex_state.
  - split; [done|]. apply consistent_insert_node; [done| |done].
    unfold new_node_data.
    destruct (bool_decide (type (_options g) = Mixed) || bool_decide (type (_options g) = Directed)),
      (bool_decide (type (_options g) = Mixed) || bool_decide (type (_options g) = Undirected));
      apply fresh_record_sets_ok.
  - match goal with H : precheck _ _ _ _ _ _ = None |- _ =>
      apply precheck_None in H as (Hs & Ht & He & _) end.
    split; [by rewrite add_edge_state_options|]. by apply consistent_add_edge_state.
  - split; [by rewrite drop_edge_state_options|]. by apply consistent_drop_edge_state.
  - match goal with H : is_Some _ |- _ => destruct H as [nd Hnd] end.
    destruct Hc as [Hord Hsz He Hidx Hok].
    split; [done|]. constructor; simpl.
    + rewrite Hord. by apply size_delete_Some with nd.
    + done.
    + intros e d Hed.
      match goal with H : ∀ e d, _ → _ ∧ _ |- _ => destruct (H e d Hed) as [H1 H2] end.
      rewrite !lookup_delete_ne by done. by apply (He e d).
    + intros Hcomp e d Hed.
      match goal with H : ∀ e d, _ → _ ∧ _ |- _ => destruct (H e d Hed) as [H1 H2] end.
      destruct (Hidx Hcomp e d Hed) as [(n1 & r1 & l1 & Hn1 & ?) (n2 & r2 & l2 & Hn2 & ?)].
      split; [exists n1, r1, l1 | exists n2, r2, l2]; (split; [|done]);
        by rewrite lookup_delete_ne.
    + intros n nd' Hn'. apply lookup_delete_Some in Hn' as [_ Hn']. by eapply Hok.
  - by apply inv_clear.
Qed.

Lemma inv_steps o g g' : inv o g → rtc step g g' → inv o g'.
Proof. intros Hg Hs. induction Hs; [done|]. eauto using inv_step. Qed.

Lemma precheck_computeIndex_state u e s t a g :
  precheck u e s t a (computeIndex_state g) = precheck u e s t a g.
Proof.
  unfold precheck.
  by rewrite computeIndex_state_options, !computeIndex_state_has, computeIndex_state_edges.
Qed.

Lemma steps__addEdge name u e s t a g :
  rtc step g (state_after (_addEdge name u e s t a) g).
Proof.
  unfold state_after. rewrite _addEdge_run.
  destruct (precheck u e s t a g) eqn:Hp; [done|]. simpl.
  destruct (multi (_options g)) eqn:Hm; simpl.
  - apply rtc_once. apply step_addEdge; [done|]. by rewrite Hm.
  - eapply rtc_l; [apply step_computeIndex|].
    destruct (connected u s t (computeIndex_state g)) eqn:Hconn; simpl; [done|].
    apply rtc_once. apply step_addEdge.
    + by rewrite precheck_computeIndex_state.
    + intros _. split; [apply computeIndex_state_computed | done].
Qed.

Lemma steps_for_each o {A} (f : A → M unit) l g :
  (∀ x g, inv o g → rtc step g (state_after (f x) g)) →
  inv o g → rtc step g (state_after (for_each l f) g).
Proof.
  intros Hf. revert g. induction l as [|x l IH]; intros g Hg; simpl; [done|].
  unfold state_after, bind. pose proof (Hf x g Hg) as Hx. unfold state_after in Hx.
  destruct (f x g) as [[[]|err] g1] eqn:E; simpl in *; [|done].
  etrans; [exact Hx|]. apply IH. by eapply inv_steps.
Qed.

Lemma steps_addNode node attributes g :
  rtc step g (state_after (addNode node attributes) g).
Proof.
  unfold state_after. rewrite addNode_run.
  destruct (match attributes with Some a => negb (isPlainObject a) | None => false end);
    [done|].
  destruct (has (_nodes g) node) eqn:Hn; [done|]. simpl.
  apply rtc_once, step_addNode. by apply has_false.
Qed.

Lemma steps_dropEdge o e g : inv o g → rtc step g (state_after (dropEdge e) g).
Proof.
  intros [_ Hc]. unfold state_after.
  destruct (dropEdge_consistent_run e g Hc) as [[_ ->]|(d & He & ->)]; simpl; [done|].
  by apply rtc_once, step_dropEdge.
Qed.

Lemma steps_dropNode o node g : inv o g → rtc step g (state_after (dropNode node) g).
Proof.
  intros Hg. unfold state_after. rewrite dropNode_eq.
  destruct (has (_nodes g) node) eqn:Hn; [|done].
  eapply rtc_l; [apply step_computeIndex|].
  rewrite <-(computeIndex_state_has g node) in Hn.
  apply inv_computeIndex_state in Hg.
  generalize dependent (computeIndex_state g). clear g. intros g Hg Hn.
  unfold bind at 1.
  destruct (for_each_dropEdge o (edges_of node g) g Hg) as (Hi & Hord & Hkeys & Hedges).
  pose proof (steps_for_each o dropEdge (edges_of node g) g (steps_dropEdge o) Hg) as Hsteps.
  unfold state_after, outcome_of in *.
  destruct (for_each (edges_of node g) dropEdge g) as [[[]|err] g1]; simpl in *; [|done].
  eapply rtc_r; [exact Hsteps|].
  apply (step_deleteNode g1 node).
  - apply Hkeys. by apply has_true.
  - intros e d Hed. destruct (Hedges eq_refl e d Hed) as [H1 H2].
    split; intros Heq; apply H2; eapply elem_of_edges_of; eauto.
Qed.

(** Every public call is a sequence of elementary changes. *)
Lemma steps_run_call o c g : inv o g → rtc step g (state_after (run_call c) g).
Proof.
  intros Hg. destruct c; simpl; rewrite ?state_after_ignore.
  - apply steps_addNode.
  - destruct bunch as [|items]; [done|].
    apply (steps_for_each o); [|done]. intros [node attributes] g' _.
    pose proof (steps_addNode node (Some attributes) g') as H.
    unfold state_after, bind in *.
    by destruct (addNode node (Some attributes) g') as [[a|err] g1].
  - unfold state_after. rewrite run_add_edge_run. apply steps__addEdge.
  - by apply (steps_dropNode o).
  - by apply (steps_dropEdge o).
  - apply rtc_once, step_clear.
  - destruct (computeIndex_state_cases name g) as [-> | ->];
      [done | apply rtc_once, step_computeIndex].
  - destruct (clearIndex_state_cases name g) as [-> | ->];
      [done | apply rtc_once, step_clearIndex].
  - destruct (hasEdge_state_cases args g) as [-> | ->];
      [done | apply rtc_once, step_computeIndex].
  - destruct (hasDirectedEdge_state_cases args g) as [-> | ->];
      [done | apply rtc_once, step_computeIndex].
  - destruct (hasUndirectedEdge_state_cases args g) as [-> | ->];
      [done | apply rtc_once, step_computeIndex].
  - rewrite getEdge_state. apply rtc_once, step_computeIndex.
  - rewrite getDirectedEdge_state. apply rtc_once, step_computeIndex.
  - rewrite getUndirectedEdge_state. apply rtc_once, step_computeIndex.
Qed.

(** Induction over the states a new graph can reach: a property of the new
    graph that every elementary change keeps holds after any sequence of
    calls. *)
Lemma reachable_ind o (P : Graph → Prop) :
  P (new_Graph o) →
  (∀ g g', inv o g → P g → step g g' → P g') →
  ∀ cs, P (run_calls cs (new_Graph o)).
Proof.
  intros H0 Hstep cs.
  assert (∀ g g', inv o g → P g → rtc step g g' → P g') as Hsteps.
  { intros g g' Hg HP Hs. induction Hs; [done|].
    apply IHHs; [by eapply inv_step | by eapply Hstep]. }
  assert (∀ g, inv o g → P g → inv o (run_calls cs g) ∧ P (run_calls cs g)) as H.
  { induction cs as [|c cs IH]; intros g Hg HP; simpl; [done|].
    apply IH; [by apply inv_run_call|].
    eapply Hsteps; [done|done|]. by apply (steps_run_call o). }
  apply H; [|done]. split; [done|apply consistent_new].
Qed.

(** ** The policies of the options hold in every reachable state *)

Lemma precheck_None_policy u e s t a g :
  precheck u e s t a g = None →
  (u = false → type (_options g) ≠ Undirected)
  ∧ (u = true → type (_options g) ≠ Directed)
  ∧ (selfLoops (_options g) = false → s ≠ t).
Proof.
  unfold precheck, type_is.
  destruct u, (type (_options g)) eqn:Ht; simpl; try done;
    repeat case_match; try done; intros _; repeat split; try done.
  all: intros Hl Heq; subst; rewrite Hl, String.eqb_refl in *; done.
Qed.

(** The edges an elementary change leaves were there, or it is the edge
    just added. *)
Lemma step_edges g g' e d :
  step g g' →
  _edges g' !! e = Some d →
  _edges g !! e = Some d
  ∨ ∃ u s t a, d = mkEdgeData u (attr_stored (attr_or_empty a)) s t
      ∧ precheck u e s t a g = None
      ∧ (multi (_options g) = false →
         computed (_indices_structure g) = true ∧ connected u s t g = false)
      ∧ _edges g' = <[e := d]> (_edges g).
Proof.
  intros Hs Hed.
  destruct Hs as [ | | node attrs Hn | u0 e0 s0 t0 a0 Hp0 Hc0 | e0 d0 He0
                 | node Hn Hfar | ]; simpl in *.
  - left. by rewrite computeIndex_state_edges in Hed.
  - left. unfold clearIndex_state in Hed.
    by destruct (computed (_indices_structure g)).
  - by left.
  - assert (_edges (add_edge_state u0 e0 s0 t0 (attr_stored (attr_or_empty a0)) g)
            = <[e0 := mkEdgeData u0 (attr_stored (attr_or_empty a0)) s0 t0]> (_edges g))
      as Heq.
    { unfold add_edge_state. simpl. by destruct (computed (_indices_structure g)). }
    rewrite Heq in Hed. apply lookup_insert_Some in Hed as [[<- <-]|[_ Hed]]; [|by left].
    right. by exists u0, s0, t0, a0.
  - left. rewrite drop_edge_state_edges in Hed. by apply lookup_delete_Some in Hed as [_ ?].
  - by left.
  - by rewrite lookup_empty in Hed.
Qed.

Lemma policy_step o g g' : inv o g → policy o g → step g g' → policy o g'.
Proof.
  intros [Ho Hc] [Hl Hd Hu Hm] Hs. constructor.
  - intros Hsl e d Hed. destruct (step_edges g g' e d Hs Hed) as [H|(u & s & t & a & -> & Hp & _)].
    + by apply (Hl Hsl e d).
    + apply precheck_None_policy in Hp as (_ & _ & Hp). simpl. apply Hp. by rewrite Ho.
  - intros Ht e d Hed. destruct (step_edges g g' e d Hs Hed) as [H|(u & s & t & a & -> & Hp & _)].
    + by apply (Hd Ht e d).
    + apply precheck_None_policy in Hp as (_ & Hp & _). simpl.
      destruct u; [|done]. exfalso. apply Hp; [done|]. by rewrite Ho.
  - intros Ht e d Hed. destruct (step_edges g g' e d Hs Hed) as [H|(u & s & t & a & -> & Hp & _)].
    + by apply (Hu Ht e d).
    + apply precheck_None_policy in Hp as (Hp & _ & _). simpl.
      destruct u; [done|]. exfalso. apply Hp; [done|]. by rewrite Ho.
  - intros Hmu e1 d1 e2 d2 H1 H2 Hk Hpair.
    destruct (step_edges g g' e1 d1 Hs H1) as [H1'|(u & s & t & a & -> & Hp & Hconn & Heq)];
      destruct (step_edges g g' e2 d2 Hs H2) as [H2'|(u' & s' & t' & a' & -> & Hp' & Hconn' & Heq')].
    + by apply (Hm Hmu e1 d1 e2 d2).
    + (* the second edge is the one just added *)
      destruct (decide (e1 = e2)) as [|Hne]; [done|]. exfalso.
      rewrite Ho in Hconn'. destruct (Hconn' Hmu) as [Hcomp Hfalse].
      assert (connected u' s' t' g = true) as Htrue; [|congruence].
      apply connected_registered; [done|done|].
      exists e1, d1. split; [done|]. split; [done|]. simpl in *.
      destruct Hpair as [[? ?]|(Hu1 & ? & ?)]; [by left|].
      right. split; [congruence|done].
    + destruct (decide (e1 = e2)) as [|Hne]; [done|]. exfalso.
      rewrite Ho in Hconn. destruct (Hconn Hmu) as [Hcomp Hfalse].
      assert (connected u s t g = true) as Htrue; [|congruence].
      apply connected_registered; [done|done|].
      exists e2, d2. split; [done|]. split; [done|]. simpl in *.
      destruct Hpair as [[? ?]|(Hu1 & ? & ?)]; [by left|].
      right. by subst.
    + (* both are the edge just added *)
      rewrite Heq in H1, H2.
      apply precheck_None in Hp as (_ & _ & Hf & _).
      apply precheck_None in Hp' as (_ & _ & Hf' & _).
      destruct (decide (e1 = e2)) as [|Hne]; [done|].
      rewrite lookup_insert_ne in H2 by done. congruence.
Qed.

Lemma policy_reachable o cs : policy o (run_calls cs (new_Graph o)).
Proof.
  apply reachable_ind.
  - constructor; simpl; intros; by rewrite ?lookup_empty in *.
  - apply policy_step.
Qed.

(** X1: on a graph built with [allowSelfLoops = false], no sequence of
    calls whose node ids are strings leaves a stored edge whose source is
    its target.  (Ids of other types are outside: [source === target]
    tells [1] from ['1'], which an object store takes for one node.) *)
Theorem no_self_loop_stored o cs e d :
  selfLoops o = false →
  _edges (run_calls cs (new_Graph o)) !! e = Some d →
  e_source d ≠ e_target d.
Proof. intros Hl. by apply (pol_loops o _ (policy_reachable o cs)). Qed.

Lemma no_self_loop_stored_witness :
  selfLoops Scenario2.options = false
  ∧ _edges (run_calls Scenario2.calls (new_Graph Scenario2.options)) !! "ab"
    = Some (mkEdgeData false ∅ "A" "B")
  ∧ "A" ≠ "B".
Proof.
  split; [reflexivity|]. split; [vm_compute; reflexivity|].
  apply (no_self_loop_stored Scenario2.options Scenario2.calls "ab"
           (mkEdgeData false ∅ "A" "B")).
  - reflexivity.
  - vm_compute. reflexivity.
Defined.

(** X2: a directed graph stores directed edges only, and an undirected
    graph undirected edges only, whatever the calls made. *)
Theorem stored_edges_have_graph_kind o cs e d :
  type o ≠ Mixed →
  _edges (run_calls cs (new_Graph o)) !! e = Some d →
  e_undirected d = bool_decide (type o = Undirected).
Proof.
  intros Ht Hed. pose proof (policy_reachable o cs) as [_ Hd Hu _].
  destruct (type o) eqn:E; [|  |done].
  - by apply (Hd eq_refl e d).
  - by apply (Hu eq_refl e d).
Qed.

Lemma stored_edges_have_graph_kind_witness :
  type (Scenario.options Undirected) ≠ Mixed
  ∧ _edges (run_calls Scenario2.undirected_calls (new_Graph (Scenario.options Undirected)))
      !! "undirected:A-B" = Some (mkEdgeData true ∅ "A" "B")
  ∧ true = bool_decide (type (Scenario.options Undirected) = Undirected).
Proof.
  split; [discriminate|]. split; [vm_compute; reflexivity|].
  apply (stored_edges_have_graph_kind (Scenario.options Undirected)
           Scenario2.undirected_calls "undirected:A-B" (mkEdgeData true ∅ "A" "B")).
  - discriminate.
  - vm_compute. reflexivity.
Defined.



(** ** The degree counters count the stored edges *)

Section Counting.
Context (P : EdgeData → Prop) `{!∀ d, Decision (P d)}.

Lemma count_insert (m : gmap string EdgeData) e d :
  m !! e = None →
  count P (<[e:=d]> m) = count P m + (if decide (P d) then 1 else 0).
Proof.
  intros He. unfold count. rewrite map_filter_insert. simpl. case_decide.
  - rewrite map_size_insert_None; [lia|]. apply map_lookup_filter_None_2. by left.
  - rewrite delete_id by done. lia.
Qed.

Lemma count_delete (m : gmap string EdgeData) e d :
  m !! e = Some d →
  count P (delete e m) = count P m - (if decide (P d) then 1 else 0).
Proof.
  intros He. unfold count. rewrite map_filter_delete. case_decide.
  - rewrite <-(size_delete_Some _ e d); [lia|]. by apply map_lookup_filter_Some_2.
  - rewrite map_size_delete_None; [lia|].
    apply map_lookup_filter_None_2. right. intros x Hx. simpl. congruence.
Qed.

Lemma count_zero (m : gmap string EdgeData) :
  (∀ e d, m !! e = Some d → ¬ P d) → count P m = 0.
Proof.
  intros Hno. unfold count. rewrite map_empty_filter_2; [by rewrite map_size_empty|].
  intros e d Hed. simpl. by eapply Hno.
Qed.
End Counting.

Lemma counters_of_drop nd nd' :
  drop_registers nd' = drop_registers nd →
  n_attributes nd' = n_attributes nd ∧ n_selfLoops nd' = n_selfLoops nd
  ∧ n_outDegree nd' = n_outDegree nd ∧ n_inDegree nd' = n_inDegree nd
  ∧ n_undirectedDegree nd' = n_undirectedDegree nd.
Proof. destruct nd, nd'. unfold drop_registers. simpl. by intros [= -> -> -> -> ->]. Qed.

Lemma lookup_of_drop (nodes nodes' : gmap string NodeData) n nd' :
  drop_registers <$> nodes' = drop_registers <$> nodes →
  nodes' !! n = Some nd' →
  ∃ nd, nodes !! n = Some nd ∧ drop_registers nd' = drop_registers nd.
Proof.
  intros Heq Hn. apply (f_equal (lookup n)) in Heq. rewrite !lookup_fmap, Hn in Heq.
  destruct (nodes !! n) as [nd|]; simpl in Heq; [|done].
  exists nd. split; [done|]. congruence.
Qed.

Lemma clearEdgeFromStructureIndex_drop e d nodes :
  drop_registers <$> clearEdgeFromStructureIndex e d nodes = drop_registers <$> nodes.
Proof.
  unfold clearEdgeFromStructureIndex.
  rewrite !(fmap_alter drop_registers _ id), !alter_id; try done.
  all: intros; apply drop_registers_set_register.
Qed.

Lemma clearStructureIndex_drop nodes :
  drop_registers <$> clearStructureIndex nodes = drop_registers <$> nodes.
Proof.
  unfold clearStructureIndex. rewrite <-map_fmap_compose. apply map_fmap_ext.
  by intros n [].
Qed.

(** The record of [n] after the counters were moved for an edge [d]. *)
Lemma bump_degrees_lookup f d nodes n nd' :
  bump_degrees f (e_undirected d) (e_source d) (e_target d) nodes !! n = Some nd' →
  ∃ nd, nodes !! n = Some nd
    ∧ n_selfLoops nd' = (if decide (is_loop n d) then f (n_selfLoops nd) else n_selfLoops nd)
    ∧ n_outDegree nd' = (if decide (is_out n d) then f (n_outDegree nd) else n_outDegree nd)
    ∧ n_inDegree nd' = (if decide (is_in n d) then f (n_inDegree nd) else n_inDegree nd)
    ∧ n_undirectedDegree nd'
      = (if decide (is_undirected_at n d) then f (n_undirectedDegree nd)
         else n_undirectedDegree nd).
Proof.
  unfold bump_degrees, is_loop, is_out, is_in, is_undirected_at.
  destruct d as [u a s t]. simpl.
  destruct (String.eqb_spec s t) as [->|Hst], u;
    rewrite ?lookup_alter; intros H;
    repeat (case_decide; simplify_eq/=);
    destruct (nodes !! n) as [nd|] eqn:Hn; simplify_eq/=;
    (eexists; split; [done|]); simpl;
    repeat split; repeat case_decide; try done; intuition congruence.
Qed.

Lemma counted_transfer o g g' :
  _edges g' = _edges g →
  drop_registers <$> _nodes g' = drop_registers <$> _nodes g →
  counted o g → counted o g'.
Proof.
  intros He Hn Hc n nd' Hnd'.
  destruct (lookup_of_drop _ _ n nd' Hn Hnd') as (nd & Hnd & Hd).
  apply counters_of_drop in Hd as (_ & -> & -> & -> & ->). rewrite He. by apply Hc.
Qed.

Lemma counted_step o g g' : inv o g → counted o g → step g g' → counted o g'.
Proof.
  intros [Ho Hc] Hcnt Hs.
  destruct Hs as [ | | node attrs Hn | u0 e0 s0 t0 a0 Hp0 Hc0 | e0 d0 He0
                 | node Hn Hfar | ].
  - apply (counted_transfer o g); [apply computeIndex_state_edges|
      apply computeIndex_state_drop|done].
  - apply (counted_transfer o g); [| |done]; unfold clearIndex_state;
      destruct (computed (_indices_structure g)); simpl; try done.
    apply clearStructureIndex_drop.
  - intros n nd Hnd. unfold add_node_state in Hnd. simpl in *.
    destruct (decide (node = n)) as [->|Hne].
    + rewrite lookup_insert_eq in Hnd. injection Hnd as <-.
      assert (∀ e d, _edges g !! e = Some d → e_source d ≠ n ∧ e_target d ≠ n) as Hfar.
      { intros e d Hed. destruct (cons_ends g Hc e d Hed) as [[x Hx] [y Hy]].
        split; intros <-; congruence. }
      rewrite !count_zero;
        try (intros e d Hed; destruct (Hfar e d Hed);
             unfold is_loop, is_out, is_in, is_undirected_at; intuition congruence).
      unfold new_node_data. rewrite Ho. destruct (type o); simpl; done.
    + rewrite lookup_insert_ne in Hnd by done. by apply Hcnt.
  - apply precheck_None in Hp0 as (_ & _ & Hfresh & _).
    set (d := mkEdgeData u0 (attr_stored (attr_or_empty a0)) s0 t0).
    intros n nd' Hnd'.
    assert (_edges (add_edge_state u0 e0 s0 t0 (attr_stored (attr_or_empty a0)) g)
            = <[e0 := d]> (_edges g)) as ->.
    { unfold add_edge_state. simpl. by destruct (computed (_indices_structure g)). }
    assert (∃ ndb, bump_degrees js_incr (e_undirected d) (e_source d) (e_target d)
                     (_nodes g) !! n = Some ndb
                   ∧ drop_registers nd' = drop_registers ndb) as (ndb & Hndb & Hd).
    { unfold add_edge_state in Hnd'. simpl in Hnd'.
      destruct (computed (_indices_structure g)); simpl in Hnd'; [|eauto].
      eapply lookup_of_drop; [|exact Hnd']. apply updateStructureIndex_drop. }
    apply counters_of_drop in Hd as (_ & -> & -> & -> & ->).
    apply bump_degrees_lookup in Hndb as (nd & Hnd & -> & -> & -> & ->).
    destruct (Hcnt n nd Hnd) as (Hl & Hdir & Hund).
    rewrite !count_insert by done. rewrite Hl.
    split; [by case_decide; simpl; f_equal; lia|]. split.
    + intros Ht. destruct (Hdir Ht) as [-> ->].
      split; case_decide; simpl; f_equal; lia.
    + intros Ht. rewrite (Hund Ht). case_decide; simpl; f_equal; lia.
  - intros n nd' Hnd'. rewrite drop_edge_state_edges.
    assert (∃ ndb, bump_degrees js_decr (e_undirected d0) (e_source d0) (e_target d0)
                     (_nodes g) !! n = Some ndb
                   ∧ drop_registers nd' = drop_registers ndb) as (ndb & Hndb & Hd).
    { unfold drop_edge_state in Hnd'. simpl in Hnd'.
      destruct (computed (_indices_structure g)); simpl in Hnd'; [|eauto].
      eapply lookup_of_drop; [|exact Hnd']. apply clearEdgeFromStructureIndex_drop. }
    apply counters_of_drop in Hd as (_ & -> & -> & -> & ->).
    apply bump_degrees_lookup in Hndb as (nd & Hnd & -> & -> & -> & ->).
    destruct (Hcnt n nd Hnd) as (Hl & Hdir & Hund).
    rewrite !(count_delete _ _ e0 d0) by done. rewrite Hl.
    split; [by case_decide; simpl; f_equal; lia|]. split.
    + intros Ht. destruct (Hdir Ht) as [-> ->].
      split; case_decide; simpl; f_equal; lia.
    + intros Ht. rewrite (Hund Ht). case_decide; simpl; f_equal; lia.
  - intros n nd Hnd. unfold delete_node_state in Hnd. simpl in *.
    apply lookup_delete_Some in Hnd as [_ Hnd]. by apply Hcnt.
  - intros n nd Hnd. simpl in Hnd. by rewrite lookup_empty in Hnd.
Qed.

Lemma counted_reachable o cs : counted o (run_calls cs (new_Graph o)).
Proof.
  apply reachable_ind.
  - intros n nd Hnd. simpl in Hnd. by rewrite lookup_empty in Hnd.
  - apply counted_step.
Qed.

Lemma degree_method_run sum node flag b g nd :
  flag_boolean flag = Some b →
  _nodes g !! node = Some nd →
  degree_method sum node flag g
  = (Return (js_add (sum nd) (if b then n_selfLoops nd else Num 0)), g).
Proof.
  intros Hf Hn. unfold degree_method. rewrite Hf. unfold bind at 1.
  rewrite hasNode_run, (has_Some _ _ _ Hn). simpl.
  unfold bind. by rewrite (nodeData_run _ _ _ Hn).
Qed.

(** X4: on a directed or mixed graph, after any sequence of calls whose
    keys are strings and, on an object store, no names inherited from
    [Object.prototype], [outDegree(n)] and [inDegree(n)] are the numbers
    of stored directed edges, self-loops apart, that leave and enter [n],
    and [directedDegree] is their sum; the self-loops on [n] are added once
    when the [selfLoops] flag is true or left out. *)
Theorem directed_degrees_count_edges o cs n flag b :
  let g := run_calls cs (new_Graph o) in
  plain_calls o cs = true →
  type o ≠ Undirected →
  has (_nodes g) n = true →
  flag_boolean flag = Some b →
  let loops := if b then count (is_loop n) (_edges g) else 0 in
  outDegree n flag g = (Return (Num (count (is_out n) (_edges g) + loops)), g)
  ∧ inDegree n flag g = (Return (Num (count (is_in n) (_edges g) + loops)), g)
  ∧ directedDegree n flag g
    = (Return (Num (count (is_out n) (_edges g) + count (is_in n) (_edges g) + loops)), g).
Proof.
  intros g _ Ht Hn Hf loops. apply has_true in Hn as [nd Hnd].
  destruct (counted_reachable o cs n nd Hnd) as (Hl & Hdir & _).
  destruct (Hdir Ht) as [Hout Hin]. fold g in Hl, Hout, Hin.
  unfold outDegree, inDegree, directedDegree.
  rewrite !(degree_method_run _ n flag b g nd Hf Hnd), Hl, Hout, Hin.
  unfold loops. by destruct b.
Qed.

Lemma directed_degrees_count_edges_witness :
  let g := run_calls Scenario2.calls (new_Graph Scenario2.options) in
  plain_calls Scenario2.options Scenario2.calls = true
  ∧ type Scenario2.options ≠ Undirected
  ∧ has (_nodes g) "B" = true
  ∧ flag_boolean FlagOmitted = Some true
  ∧ outDegree "B" FlagOmitted g = (Return (Num 1), g)
  ∧ inDegree "B" FlagOmitted g = (Return (Num 1), g)
  ∧ directedDegree "B" FlagOmitted g = (Return (Num 2), g).
Proof.
  split; [vm_compute; reflexivity|].
  split; [discriminate|]. split; [vm_compute; reflexivity|]. split; [reflexivity|].
  apply (directed_degrees_count_edges Scenario2.options Scenario2.calls "B"
           FlagOmitted true).
  - vm_compute. reflexivity.
  - discriminate.
  - vm_compute. reflexivity.
  - reflexivity.
Defined.

(** X5: on an undirected or mixed graph, after any sequence of calls whose
    keys are strings and, on an object store, no names inherited from
    [Object.prototype], [undirectedDegree(n)] is the number of stored
    undirected edges, self-loops apart, that have [n] as an end, plus the
    self-loops on [n] when the flag asks for them. *)
Theorem undirected_degree_counts_edges o cs n flag b :
  let g := run_calls cs (new_Graph o) in
  plain_calls o cs = true →
  type o ≠ Directed →
  has (_nodes g) n = true →
  flag_boolean flag = Some b →
  undirectedDegree n flag g
  = (Return (Num (count (is_undirected_at n) (_edges g)
                  + (if b then count (is_loop n) (_edges g) else 0))), g).
Proof.
  intros g _ Ht Hn Hf. apply has_true in Hn as [nd Hnd].
  destruct (counted_reachable o cs n nd Hnd) as (Hl & _ & Hund).
  specialize (Hund Ht). fold g in Hl, Hund.
  unfold undirectedDegree.
  rewrite !(degree_method_run _ n flag b g nd Hf Hnd), Hl, Hund. by destruct b.
Qed.

Lemma undirected_degree_counts_edges_witness :
  let g := run_calls Scenario2.calls (new_Graph Scenario2.options) in
  plain_calls Scenario2.options Scenario2.calls = true
  ∧ type Scenario2.options ≠ Directed
  ∧ has (_nodes g) "A" = true
  ∧ flag_boolean (FlagBool false) = Some false
  ∧ undirectedDegree "A" (FlagBool false) g = (Return (Num 1), g).
Proof.
  split; [vm_compute; reflexivity|].
  split; [discriminate|]. split; [vm_compute; reflexivity|]. split; [reflexivity|].
  apply (undirected_degree_counts_edges Scenario2.options Scenario2.calls "A"
           (FlagBool false) false).
  - vm_compute. reflexivity.
  - discriminate.
  - vm_compute. reflexivity.
  - reflexivity.
Defined.

(** X6: on a mixed graph, after any sequence of calls whose keys are
    strings and, on an object store, no names inherited from
    [Object.prototype], [degree(n)] counts every stored edge at [n] once:
    the directed edges leaving it, those entering it, the undirected edges
    at it and, when the flag asks for them, its self-loops. *)
Theorem mixed_degree_counts_edges o cs n flag b :
  let g := run_calls cs (new_Graph o) in
  plain_calls o cs = true →
  type o = Mixed →
  has (_nodes g) n = true →
  flag_boolean flag = Some b →
  degree n flag g
  = (Return (Num (count (is_out n) (_edges g) + count (is_in n) (_edges g)
                  + count (is_undirected_at n) (_edges g)
                  + (if b then count (is_loop n) (_edges g) else 0))), g).
Proof.
  intros g _ Ht Hn Hf. apply has_true in Hn as [nd Hnd].
  destruct (counted_reachable o cs n nd Hnd) as (Hl & Hdir & Hund).
  destruct Hdir as [Hout Hin]; [by rewrite Ht|].
  specialize (Hund ltac:(by rewrite Ht)). fold g in Hl, Hout, Hin, Hund.
  unfold degree.
  rewrite !(degree_method_run _ n flag b g nd Hf Hnd), Hl, Hout, Hin, Hund.
  by destruct b.
Qed.

Lemma mixed_degree_counts_edges_witness :
  let g := run_calls Scenario2.calls (new_Graph Scenario2.options) in
  plain_calls Scenario2.options Scenario2.calls = true
  ∧ type Scenario2.options = Mixed
  ∧ has (_nodes g) "B" = true
  ∧ flag_boolean FlagOmitted = Some true
  ∧ degree "B" FlagOmitted g = (Return (Num 3), g).
Proof.
  split; [vm_compute; reflexivity|].
  split; [reflexivity|]. split; [vm_compute; reflexivity|]. split; [reflexivity|].
  apply (mixed_degree_counts_edges Scenario2.options Scenario2.calls "B"
           FlagOmitted true).
  - vm_compute. reflexivity.
  - reflexivity.
  - vm_compute. reflexivity.
  - reflexivity.
Defined.

(** ** The structure index holds stored edges only *)

Lemma elem_of_set_add_inv e e' l : e ∈ set_add e' l → e ∈ l ∨ e = e'.
Proof.
  unfold set_add. case_bool_decide; [by left|].
  rewrite elem_of_app, list_elem_of_singleton. tauto.
Qed.

Lemma elem_of_set_delete_inv e e' l : e ∈ set_delete e' l → e ∈ l ∧ e ≠ e'.
Proof. unfold set_delete. rewrite list_elem_of_filter. tauto. Qed.

Lemma in_register_alter_insert_inv rk n k e rk0 k0 e0 n0 nodes :
  in_register rk n k e (alter (set_register rk0 (register_insert k0 e0)) n0 nodes) →
  in_register rk n k e nodes ∨ (e = e0 ∧ rk = rk0 ∧ n = n0 ∧ k = k0).
Proof.
  intros (nd' & r' & l' & Hn & Hr & Hl & He).
  destruct (decide (n0 = n)) as [->|Hne];
    [|left; exists nd', r', l'; by rewrite lookup_alter_ne in Hn].
  rewrite lookup_alter_eq in Hn.
  destruct (nodes !! n) as [nd|] eqn:Hnd; simplify_eq/=.
  destruct (decide (rk = rk0)) as [->|Hrk];
    [|left; exists nd, r', l'; by rewrite get_set_register_ne in Hr].
  rewrite get_set_register in Hr. unfold register_insert in Hr. injection Hr as <-.
  destruct (decide (k0 = k)) as [->|Hk].
  - rewrite lookup_insert_eq in Hl. injection Hl as <-.
    apply elem_of_set_add_inv in He as [He | ->]; [left|by right].
    destruct (get_register rk0 nd) as [r0|] eqn:Hr0; simpl in He.
    + destruct (r0 !! k) as [l0|] eqn:Hl0; simpl in He; [|by inversion He].
      by exists nd, r0, l0.
    + rewrite lookup_empty in He. by inversion He.
  - rewrite lookup_insert_ne in Hl by done. left.
    destruct (get_register rk0 nd) as [r0|] eqn:Hr0; simpl in Hl.
    + by exists nd, r0, l'.
    + by rewrite lookup_empty in Hl.
Qed.

Lemma in_register_alter_remove_inv rk n k e rk0 k0 e0 n0 nodes :
  in_register rk n k e (alter (set_register rk0 (register_remove k0 e0)) n0 nodes) →
  in_register rk n k e nodes ∧ ¬ (e = e0 ∧ rk = rk0 ∧ n = n0 ∧ k = k0).
Proof.
  intros (nd' & r' & l' & Hn & Hr & Hl & He).
  destruct (decide (n0 = n)) as [->|Hne].
  2:{ split; [|intuition congruence]. exists nd', r', l'. by rewrite lookup_alter_ne in Hn. }
  rewrite lookup_alter_eq in Hn.
  destruct (nodes !! n) as [nd|] eqn:Hnd; simplify_eq/=.
  destruct (decide (rk = rk0)) as [->|Hrk].
  2:{ split; [|intuition congruence]. exists nd, r', l'. by rewrite get_set_register_ne in Hr. }
  rewrite get_set_register in Hr. unfold register_remove in Hr.
  destruct (get_register rk0 nd) as [r0|] eqn:Hr0; [|done].
  destruct (r0 !! k0) as [s0|] eqn:Hs0.
  - destruct (set_delete e0 s0) as [|x s'] eqn:Hd; injection Hr as <-.
    + destruct (decide (k0 = k)) as [->|Hk]; [by rewrite lookup_delete_eq in Hl|].
      rewrite lookup_delete_ne in Hl by done.
      split; [by exists nd, r0, l' | intuition congruence].
    + destruct (decide (k0 = k)) as [->|Hk].
      * rewrite lookup_insert_eq in Hl. injection Hl as <-. rewrite <-Hd in He.
        apply elem_of_set_delete_inv in He as [He Hne].
        split; [by exists nd, r0, s0 | intuition congruence].
      * rewrite lookup_insert_ne in Hl by done.
        split; [by exists nd, r0, l' | intuition congruence].
  - injection Hr as <-. split; [by exists nd, r0, l'|].
    intros (-> & _ & _ & ->). congruence.
Qed.

Lemma in_register_alter_counter_inv rk n k e f n0 nodes :
  (∀ nd rk, get_register rk (f nd) = get_register rk nd) →
  in_register rk n k e (alter f n0 nodes) → in_register rk n k e nodes.
Proof.
  intros Hf (nd' & r' & l' & Hn & Hr & Hl & He).
  destruct (decide (n0 = n)) as [->|Hne].
  - rewrite lookup_alter_eq in Hn.
    destruct (nodes !! n) as [nd|] eqn:Hnd; simplify_eq/=.
    rewrite Hf in Hr. by exists nd, r', l'.
  - rewrite lookup_alter_ne in Hn by done. by exists nd', r', l'.
Qed.

Lemma updateStructureIndex_in_register_inv e0 d0 rk n k e nodes :
  in_register rk n k e (updateStructureIndex e0 d0 nodes) →
  in_register rk n k e nodes ∨ (e = e0 ∧ registered_as rk n k d0).
Proof.
  unfold updateStructureIndex, registered_as. intros H.
  apply in_register_alter_insert_inv in H as [H|(-> & -> & -> & ->)].
  - apply in_register_alter_insert_inv in H as [H|(-> & -> & -> & ->)]; [by left|].
    right. split; [done|]. by left.
  - right. split; [done|]. by right.
Qed.

Lemma clearEdgeFromStructureIndex_in_register_inv e0 d0 rk n k e nodes :
  in_register rk n k e (clearEdgeFromStructureIndex e0 d0 nodes) →
  in_register rk n k e nodes ∧ ¬ (e = e0 ∧ registered_as rk n k d0).
Proof.
  unfold clearEdgeFromStructureIndex, registered_as. intros H.
  apply in_register_alter_remove_inv in H as [H H2].
  apply in_register_alter_remove_inv in H as [H H1].
  split; [done|]. intuition congruence.
Qed.

Lemma bump_degrees_in_register_inv f u s t rk n k e nodes :
  in_register rk n k e (bump_degrees f u s t nodes) → in_register rk n k e nodes.
Proof.
  unfold bump_degrees. intros H.
  destruct (String.eqb s t), u;
    repeat (apply in_register_alter_counter_inv in H; [|by intros ? []]); done.
Qed.

Lemma index_all_in_register_inv l rk n k e nodes :
  in_register rk n k e (index_all l nodes) →
  in_register rk n k e nodes ∨ ∃ d, (e, d) ∈ l ∧ registered_as rk n k d.
Proof.
  revert nodes. induction l as [|[e0 d0] l IH]; intros nodes H; simpl in *; [by left|].
  apply IH in H as [H|(d & Hin & Hd)].
  - apply updateStructureIndex_in_register_inv in H as [H | [-> Hd]]; [by left|].
    right. exists d0. split; [by left|done].
  - right. exists d. split; [by right|done].
Qed.

Lemma bump_degrees_get_register f u s t nodes n nd' rk :
  bump_degrees f u s t nodes !! n = Some nd' →
  ∃ nd, nodes !! n = Some nd ∧ get_register rk nd' = get_register rk nd.
Proof.
  unfold bump_degrees.
  destruct (String.eqb s t), u; rewrite ?lookup_alter; intros H;
    repeat (case_decide; simplify_eq/=);
    destruct (nodes !! n) as [nd|] eqn:Hn; simplify_eq/=;
    (eexists; split; [done|]); by destruct rk.
Qed.

Lemma index_sound_step o g g' : inv o g → index_sound g → step g g' → index_sound g'.
Proof.
  intros [Ho Hc] Hidx Hs.
  destruct Hs as [ | | node attrs Hn | u0 e0 s0 t0 a0 Hp0 Hc0 | e0 d0 He0
                 | node Hn Hfar | ].
  - unfold computeIndex_state.
    destruct (computed (_indices_structure g)) eqn:Hcomp; [done|].
    destruct Hidx as [Habs Hsnd].
    constructor; simpl; [done|]. intros rk n k e H.
    apply index_all_in_register_inv in H as [H|(d & Hin & Hd)]; [by apply Hsnd|].
    exists d. split; [|done]. by apply elem_of_map_to_list.
  - unfold clearIndex_state.
    destruct (computed (_indices_structure g)) eqn:Hcomp; [|done].
    constructor; simpl.
    + intros _ n nd rk Hnd. unfold clearStructureIndex in Hnd.
      apply lookup_fmap_Some in Hnd as (nd0 & <- & _). by destruct rk.
    + intros rk n k e (nd & r & l & Hnd & Hr & _). unfold clearStructureIndex in Hnd.
      apply lookup_fmap_Some in Hnd as (nd0 & <- & _). by destruct rk.
  - destruct Hidx as [Habs Hsnd]. constructor; simpl.
    + intros Hcomp n nd rk Hnd. destruct (decide (node = n)) as [->|Hne].
      * rewrite lookup_insert_eq in Hnd. injection Hnd as <-. unfold new_node_data.
        destruct (type (_options g)), rk; done.
      * rewrite lookup_insert_ne in Hnd by done. by eapply Habs.
    + intros rk n k e (nd & r & l & Hnd & Hr & Hl & He). apply Hsnd.
      destruct (decide (node = n)) as [->|Hne].
      * rewrite lookup_insert_eq in Hnd. injection Hnd as <-. unfold new_node_data in Hr.
        destruct (type (_options g)), rk; done.
      * rewrite lookup_insert_ne in Hnd by done. by exists nd, r, l.
  - destruct Hidx as [Habs Hsnd].
    apply precheck_None in Hp0 as (_ & _ & Hfresh & _).
    set (d := mkEdgeData u0 (attr_stored (attr_or_empty a0)) s0 t0).
    unfold add_edge_state. fold d. simpl.
    destruct (computed (_indices_structure g)) eqn:Hcomp; constructor; simpl;
      rewrite ?Hcomp; try done.
    + intros rk n k e H.
      apply updateStructureIndex_in_register_inv in H as [H | [-> Hd]].
      * apply bump_degrees_in_register_inv in H. destruct (Hsnd _ _ _ _ H) as (d' & Hd' & ?).
        exists d'. split; [|done]. rewrite lookup_insert_ne; [done|congruence].
      * exists d. by rewrite lookup_insert_eq.
    + intros _ n nd rk Hnd.
      apply (bump_degrees_get_register _ _ _ _ _ _ _ rk) in Hnd as (nd0 & Hnd0 & ->).
      by eapply Habs.
    + intros rk n k e H. apply bump_degrees_in_register_inv in H.
      destruct (Hsnd _ _ _ _ H) as (d' & Hd' & ?).
      exists d'. split; [|done]. rewrite lookup_insert_ne; [done|congruence].
  - destruct Hidx as [Habs Hsnd]. unfold drop_edge_state. simpl.
    destruct (computed (_indices_structure g)) eqn:Hcomp; constructor; simpl;
      rewrite ?Hcomp; try done.
    + intros rk n k e H.
      apply clearEdgeFromStructureIndex_in_register_inv in H as [H Hnot].
      apply bump_degrees_in_register_inv in H. destruct (Hsnd _ _ _ _ H) as (d' & Hd' & Hreg).
      exists d'. split; [|done]. apply lookup_delete_Some. split; [|done].
      intros <-. apply Hnot. split; [done|]. congruence.
    + intros _ n nd rk Hnd.
      apply (bump_degrees_get_register _ _ _ _ _ _ _ rk) in Hnd as (nd0 & Hnd0 & ->).
      by eapply Habs.
    + intros rk n k e H. apply bump_degrees_in_register_inv in H.
      destruct H as (nd & r & l & Hnd & Hr & _).
      by rewrite (Habs eq_refl n nd rk Hnd) in Hr.
  - destruct Hidx as [Habs Hsnd]. constructor; simpl.
    + intros Hcomp n nd rk Hnd. apply lookup_delete_Some in Hnd as [_ Hnd]. by eapply Habs.
    + intros rk n k e (nd & r & l & Hnd & Hr & Hl & He). apply Hsnd.
      apply lookup_delete_Some in Hnd as [_ Hnd]. by exists nd, r, l.
  - constructor; simpl.
    + intros _ n nd rk Hnd. by rewrite lookup_empty in Hnd.
    + intros rk n k e (nd & r & l & Hnd & _). by rewrite lookup_empty in Hnd.
Qed.

Lemma index_sound_reachable o cs : index_sound (run_calls cs (new_Graph o)).
Proof.
  apply (reachable_ind o).
  - constructor; simpl.
    + intros _ n nd rk Hnd. by rewrite lookup_empty in Hnd.
    + intros rk n k e (nd & r & l & Hnd & _). by rewrite lookup_empty in Hnd.
  - apply index_sound_step.
Qed.

(** ** The existence tests and lookups answer from the stored edges *)


Lemma nonempty_elem (l : list string) : negb (length l =? 0)%nat = true → ∃ e, e ∈ l.
Proof. destruct l as [|e l]; [done|]. intros _. exists e. by left. Qed.

Lemma directed_connected_stored s t g :
  index_sound g → directed_connected s t g = true → already_connected false s t g.
Proof.
  intros [_ Hsnd]. unfold directed_connected, register_get.
  destruct (negb (has (_nodes g) s) || negb (has (_nodes g) t)); [done|].
  destruct (_nodes g !! s) as [nd|] eqn:Hnd; [|done].
  destruct (n_out nd) as [r|] eqn:Hr; [|done].
  destruct (r !! t) as [l|] eqn:Hl; [|done].
  intros [e He]%nonempty_elem.
  destruct (Hsnd out s t e) as (d & Hd & Hreg); [by exists nd, r, l|].
  exists e, d. split; [done|].
  destruct Hreg as [(Hk & -> & ->)|(Hk & _)]; destruct (e_undirected d); try done.
  split; [done|]. by left.
Qed.

Lemma undirected_connected_stored s t g :
  index_sound g → undirected_connected s t g = true → already_connected true s t g.
Proof.
  intros [_ Hsnd]. unfold undirected_connected, undirected_edges, register_get.
  destruct (negb (has (_nodes g) s) || negb (has (_nodes g) t)); [done|].
  destruct (_nodes g !! s) as [nd|] eqn:Hnd; [|done].
  destruct (n_undirectedOut nd) as [r|] eqn:Hr.
  - destruct (r !! t) as [l|] eqn:Hl.
    + intros [e He]%nonempty_elem.
      destruct (Hsnd undirectedOut s t e) as (d & Hd & Hreg); [by exists nd, r, l|].
      exists e, d. split; [done|].
      destruct Hreg as [(Hk & -> & ->)|(Hk & _)]; destruct (e_undirected d); try done.
      split; [done|]. by left.
    + destruct (n_undirectedIn nd) as [r'|] eqn:Hr'; [|done].
      destruct (r' !! t) as [l|] eqn:Hl'; [|done].
      intros [e He]%nonempty_elem.
      destruct (Hsnd undirectedIn s t e) as (d & Hd & Hreg); [by exists nd, r', l|].
      exists e, d. split; [done|].
      destruct Hreg as [(Hk & _)|(Hk & -> & ->)]; destruct (e_undirected d); try done.
      split; [done|]. by right.
  - destruct (n_undirectedIn nd) as [r'|] eqn:Hr'; [|done].
    destruct (r' !! t) as [l|] eqn:Hl'; [|done].
    intros [e He]%nonempty_elem.
    destruct (Hsnd undirectedIn s t e) as (d & Hd & Hreg); [by exists nd, r', l|].
    exists e, d. split; [done|].
    destruct Hreg as [(Hk & _)|(Hk & -> & ->)]; destruct (e_undirected d); try done.
    split; [done|]. by right.
Qed.

Lemma already_connected_computeIndex_state u s t g :
  already_connected u s t (computeIndex_state g) ↔ already_connected u s t g.
Proof. unfold already_connected. by rewrite computeIndex_state_edges. Qed.

(** The state an index computation leaves a reachable state in. *)
Lemma computed_reachable o cs :
  let g1 := computeIndex_state (run_calls cs (new_Graph o)) in
  consistent g1 ∧ index_sound g1 ∧ computed (_indices_structure g1) = true.
Proof.
  simpl. pose proof (inv_reachable o cs) as Hinv.
  split; [by apply consistent_computeIndex_state, Hinv|].
  split; [|apply computeIndex_state_computed].
  eapply index_sound_step; [exact Hinv|apply index_sound_reachable|apply step_computeIndex].
Qed.

Lemma connected_iff o cs u s t :
  let g := run_calls cs (new_Graph o) in
  connected u s t (computeIndex_state g) = true ↔ already_connected u s t g.
Proof.
  simpl. destruct (computed_reachable o cs) as (Hc & Hsnd & Hcomp).
  rewrite <-already_connected_computeIndex_state. split.
  - destruct u; simpl; [by apply undirected_connected_stored
                       | by apply directed_connected_stored].
  - by apply connected_registered.
Qed.






Lemma getDirectedEdge_outcome s t g :
  ∃ r, outcome_of (getDirectedEdge s t) g = Return r
    ∧ match r with
      | Some e => in_register out s t e (_nodes (computeIndex_state g))
      | None => directed_connected s t (computeIndex_state g) = false
      end.
Proof.
  unfold outcome_of, getDirectedEdge, directed_connected, register_get.
  unfold bind at 1. rewrite computeIndex_run. set (g1 := computeIndex_state g).
  unfold bind at 1. rewrite hasNode_run. unfold bind at 1. rewrite hasNode_run.
  destruct (has (_nodes g1) s) eqn:Hs; [|by exists None].
  destruct (has (_nodes g1) t) eqn:Ht; [|by exists None].
  simpl. apply has_true in Hs as [nd Hnd].
  unfold bind. rewrite (nodeData_run _ _ _ Hnd), Hnd.
  destruct (n_out nd) as [r|] eqn:Hr; [|by exists None].
  destruct (r !! t) as [l|] eqn:Hl; [|by exists None].
  destruct l as [|e l]; [by exists None|].
  exists (Some e). split; [done|]. exists nd, r, (e :: l). repeat split; try done. by left.
Qed.

Lemma getUndirectedEdge_outcome s t g :
  ∃ r, outcome_of (getUndirectedEdge s t) g = Return r
    ∧ match r with
      | Some e => in_register undirectedOut s t e (_nodes (computeIndex_state g))
                  ∨ in_register undirectedIn s t e (_nodes (computeIndex_state g))
      | None => undirected_connected s t (computeIndex_state g) = false
      end.
Proof.
  unfold outcome_of, getUndirectedEdge, undirected_connected.
  unfold bind at 1. rewrite computeIndex_run. set (g1 := computeIndex_state g).
  unfold bind at 1. rewrite hasNode_run. unfold bind at 1. rewrite hasNode_run.
  destruct (has (_nodes g1) s) eqn:Hs; [|by exists None].
  destruct (has (_nodes g1) t) eqn:Ht; [|by exists None].
  simpl. apply has_true in Hs as [nd Hnd].
  unfold bind. rewrite (nodeData_run _ _ _ Hnd), Hnd.
  destruct (undirected_edges nd t) as [l|] eqn:Hl; [|by exists None].
  destruct l as [|e l]; [by exists None|].
  exists (Some e). split; [done|].
  unfold undirected_edges, register_get in Hl.
  destruct (n_undirectedOut nd) as [r|] eqn:Hr.
  - destruct (r !! t) as [l'|] eqn:Hl'.
    + injection Hl as ->. left. exists nd, r, (e :: l). repeat split; try done. by left.
    + destruct (n_undirectedIn nd) as [r'|] eqn:Hr'; [|done].
      right. exists nd, r', (e :: l). repeat split; try done. by left.
  - destruct (n_undirectedIn nd) as [r'|] eqn:Hr'; [|done].
    right. exists nd, r', (e :: l). repeat split; try done. by left.
Qed.



Lemma getEdge_outcome_cases s t g :
  outcome_of (getEdge s t) g = outcome_of (getDirectedEdge s t) g
  ∨ outcome_of (getEdge s t) g = outcome_of (getUndirectedEdge s t) g.
Proof.
  pose proof (getDirectedEdge_state s t g) as Hd.
  unfold outcome_of, state_after in *. unfold getEdge, bind, get.
  cbv beta iota zeta.
  destruct (type (_options g)) eqn:Ht; simpl.
  - left. destruct (getDirectedEdge s t g) as [[r|err] g1]; [|done].
    by destruct (truthy_edge r).
  - by right.
  - destruct (getDirectedEdge s t g) as [[r|err] g1]; simpl in *; [|by left]. subst g1.
    destruct (truthy_edge r); [by left|]. right.
    by rewrite getUndirectedEdge_after_compute.
Qed.

Lemma directed_lookup_stored o cs s t e :
  let g := run_calls cs (new_Graph o) in
  outcome_of (getDirectedEdge s t) g = Return (Some e) →
  ∃ d, _edges g !! e = Some d ∧ e_undirected d = false ∧ e_source d = s ∧ e_target d = t.
Proof.
  intros g Hout.
  destruct (computed_reachable o cs) as (_ & [_ Hsnd] & _). fold g in Hsnd.
  destruct (getDirectedEdge_outcome s t g) as (r & Hr & Hspec).
  rewrite Hr in Hout. injection Hout as ->.
  destruct (Hsnd _ _ _ _ Hspec) as (d & Hd & Hreg).
  rewrite computeIndex_state_edges in Hd. exists d. split; [done|].
  destruct Hreg as [(Hk & -> & ->)|(Hk & _)]; by destruct (e_undirected d).
Qed.

Lemma undirected_lookup_stored o cs s t e :
  let g := run_calls cs (new_Graph o) in
  outcome_of (getUndirectedEdge s t) g = Return (Some e) →
  ∃ d, _edges g !! e = Some d ∧ e_undirected d = true
       ∧ ((e_source d = s ∧ e_target d = t) ∨ (e_source d = t ∧ e_target d = s)).
Proof.
  intros g Hout.
  destruct (computed_reachable o cs) as (_ & [_ Hsnd] & _). fold g in Hsnd.
  destruct (getUndirectedEdge_outcome s t g) as (r & Hr & Hspec).
  rewrite Hr in Hout. injection Hout as ->.
  destruct Hspec as [H|H]; destruct (Hsnd _ _ _ _ H) as (d & Hd & Hreg);
    rewrite computeIndex_state_edges in Hd; exists d; (split; [done|]).
  - destruct Hreg as [(Hk & -> & ->)|(Hk & _)]; destruct (e_undirected d); try done.
    split; [done|]. by left.
  - destruct Hreg as [(Hk & _)|(Hk & -> & ->)]; destruct (e_undirected d); try done.
    split; [done|]. by right.
Qed.

(** X13: in every reachable state, [getEdge(source, target)] never throws,
    and a key it returns is the key of a stored edge that joins the two
    nodes: a directed edge from [source] to [target], or an undirected edge
    between them. *)
Theorem getEdge_returns_stored_edge o cs s t :
  let g := run_calls cs (new_Graph o) in
  (∃ r, outcome_of (getEdge s t) g = Return r)
  ∧ (∀ e, outcome_of (getEdge s t) g = Return (Some e) →
       ∃ d, _edges g !! e = Some d
         ∧ ((e_undirected d = false ∧ e_source d = s ∧ e_target d = t)
            ∨ (e_undirected d = true
               ∧ ((e_source d = s ∧ e_target d = t)
                  ∨ (e_source d = t ∧ e_target d = s))))).
Proof.
  intros g. destruct (getEdge_outcome_cases s t g) as [-> | ->].
  - split; [destruct (getDirectedEdge_outcome s t g) as (r & Hr & _); eauto|].
    intros e He. destruct (directed_lookup_stored o cs s t e He) as (d & Hd & H).
    exists d. split; [done|]. by left.
  - split; [destruct (getUndirectedEdge_outcome s t g) as (r & Hr & _); eauto|].
    intros e He. destruct (undirected_lookup_stored o cs s t e He) as (d & Hd & H).
    exists d. split; [done|]. by right.
Qed.

(** ** Adding an edge *)

Lemma add_edge_success call g e g' :
  run_add_edge call g = (Return e, g') →
  let o := _options g in
  let g1 := if multi o then g else computeIndex_state g in
  e = call_key o call
  ∧ precheck (call_undirected o call) e (call_source call) (call_target call)
      (call_attributes call) g = None
  ∧ (multi o = false →
     connected (call_undirected o call) (call_source call) (call_target call) g1 = false)
  ∧ g' = add_edge_state (call_undirected o call) e (call_source call) (call_target call)
           (attr_stored (attr_or_empty (call_attributes call))) g1.
Proof.
  rewrite run_add_edge_run, _addEdge_run. simpl.
  destruct (precheck _ _ _ _ _ g) eqn:Hp; [done|].
  destruct (multi (_options g)); simpl.
  - intros [= <- <-]. by rewrite Hp.
  - destruct (connected _ _ _ (computeIndex_state g)) eqn:Hc; simpl; [done|].
    intros [= <- <-]. by rewrite Hp.
Qed.

Lemma add_edge_state_edges u e s t a g :
  _edges (add_edge_state u e s t a g) = <[e := mkEdgeData u a s t]> (_edges g).
Proof. unfold add_edge_state. simpl. by destruct (computed (_indices_structure g)). Qed.

Lemma add_edge_state_size u e s t a g :
  _size (add_edge_state u e s t a g) = Z.succ (_size g).
Proof. unfold add_edge_state. simpl. by destruct (computed (_indices_structure g)). Qed.

Lemma add_edge_state_order u e s t a g :
  _order (add_edge_state u e s t a g) = _order g.
Proof. unfold add_edge_state. simpl. by destruct (computed (_indices_structure g)). Qed.

Lemma add_edge_state_is_Some u e s t a g k :
  is_Some (_nodes (add_edge_state u e s t a g) !! k) ↔ is_Some (_nodes g !! k).
Proof.
  unfold add_edge_state. simpl. destruct (computed (_indices_structure g)); simpl.
  - by rewrite updateStructureIndex_is_Some, bump_degrees_is_Some.
  - by rewrite bump_degrees_is_Some.
Qed.

Lemma undirected_run edge g data :
  _edges g !! edge = Some data → undirected edge g = (Return (e_undirected data), g).
Proof.
  intros He. unfold undirected, hasEdge1. mrun.
  rewrite (has_Some _ _ _ He). destruct (map (_options g)); simpl;
    unfold edgeData; mrun; by rewrite He.
Qed.

Lemma directed_run edge g data :
  _edges g !! edge = Some data → directed edge g = (Return (negb (e_undirected data)), g).
Proof.
  intros He. unfold directed. unfold bind at 1.
  change (hasEdge1 edge) with (hasEdge [edge]). rewrite hasEdge1_run, (has_Some _ _ _ He).
  simpl. unfold bind. by rewrite (undirected_run _ _ _ He).
Qed.

(** X14: when a call of one of the six add-edge methods returns a key, the
    key was free before the call and names the new edge afterwards:
    [hasEdge(key)] is true, and [source], [target] and [undirected] read back
    the source, the target and the kind of the call.  [size] has grown by
    one, [order] and the set of nodes are unchanged, and every other edge is
    stored as before. *)
Theorem add_edge_then_read_back call g e g' :
  run_add_edge call g = (Return e, g') →
  _edges g !! e = None
  ∧ hasEdge [e] g' = (Return true, g')
  ∧ source e g' = (Return (call_source call), g')
  ∧ target e g' = (Return (call_target call), g')
  ∧ undirected e g' = (Return (call_undirected (_options g) call), g')
  ∧ size_ g' = size_ g + 1
  ∧ order g' = order g
  ∧ (∀ n, has (_nodes g') n = has (_nodes g) n)
  ∧ (∀ e', e' ≠ e → _edges g' !! e' = _edges g !! e').
Proof.
  intros Hrun. apply add_edge_success in Hrun as (_ & Hp & _ & ->).
  apply precheck_None in Hp as (_ & _ & Hfresh & _).
  set (o := _options g). set (g1 := if multi o then g else computeIndex_state g).
  set (d := mkEdgeData (call_undirected o call)
              (attr_stored (attr_or_empty (call_attributes call)))
              (call_source call) (call_target call)).
  assert (_edges g1 = _edges g) as He1.
  { unfold g1. destruct (multi o); [done|apply computeIndex_state_edges]. }
  assert (_edges (add_edge_state (call_undirected o call) e (call_source call)
                    (call_target call)
                    (attr_stored (attr_or_empty (call_attributes call))) g1) !! e
          = Some d) as Hd.
  { by rewrite add_edge_state_edges, lookup_insert_eq. }
  split; [done|].
  split; [by rewrite hasEdge1_run, (has_Some _ _ _ Hd)|].
  split; [by rewrite (source_run _ _ _ Hd)|].
  split; [by rewrite (target_run _ _ _ Hd)|].
  split; [by rewrite (undirected_run _ _ _ Hd)|].
  unfold size_, order. rewrite add_edge_state_size, add_edge_state_order.
  split; [unfold g1; destruct (multi o); rewrite ?computeIndex_state_size; lia|].
  split; [unfold g1; destruct (multi o); by rewrite ?computeIndex_state_order|].
  split.
  - intros n. apply has_is_Some. rewrite add_edge_state_is_Some.
    unfold g1. destruct (multi o); [done|].
    by rewrite <-!has_true, computeIndex_state_has.
  - intros e' Hne. by rewrite add_edge_state_edges, lookup_insert_ne, He1.
Qed.

Lemma add_edge_then_read_back_witness :
  let call := CallAddEdge "A" "B" (AttrObject {["weight" := "3"]}) in
  let g := Scenario.AB in
  let e := "directed:A-B" in
  let g' := state_after (run_add_edge call) g in
  run_add_edge call g = (Return e, g')
  ∧ _edges g !! e = None
  ∧ hasEdge [e] g' = (Return true, g')
  ∧ source e g' = (Return "A", g')
  ∧ target e g' = (Return "B", g')
  ∧ undirected e g' = (Return false, g')
  ∧ size_ g' = size_ g + 1
  ∧ order g' = order g
  ∧ (∀ n, has (_nodes g') n = has (_nodes g) n)
  ∧ (∀ e', e' ≠ e → _edges g' !! e' = _edges g !! e').
Proof.
  split; [vm_compute; reflexivity|].
  apply (add_edge_then_read_back
           (CallAddEdge "A" "B" (AttrObject {["weight" := "3"]})) Scenario.AB
           "directed:A-B"
           (state_after (run_add_edge (CallAddEdge "A" "B" (AttrObject {["weight" := "3"]})))
              Scenario.AB)).
  vm_compute. reflexivity.
Defined.

Lemma precheck_cases u e s t a g :
  precheck u e s t a g =
  let o := _options g in
  if negb (kind_allowed o u) then Some UsageGraphError
  else if negb (isPlainObject (attr_or_empty a)) then Some InvalidArgumentsGraphError
  else if negb (has (_nodes g) s && has (_nodes g) t) then Some NotFoundGraphError
  else if has (_edges g) e || negb (selfLoops o) && String.eqb s t
       then Some UsageGraphError
  else None.
Proof.
  unfold precheck, kind_allowed. cbv zeta.
  destruct (negb u && type_is Undirected (_options g)); [done|].
  destruct (u && type_is Directed (_options g)); [done|].
  destruct (isPlainObject (attr_or_empty a)); [|done].
  destruct (has (_nodes g) s); [|done].
  destruct (has (_nodes g) t); [|done].
  by destruct (has (_edges g) e).
Qed.

Lemma attributes_accepted_spec a :
  isPlainObject (attr_or_empty a) = attributes_accepted a.
Proof. by destruct a as [| |[]]. Qed.

(** X15: in every reachable state, a call of one of the six add-edge
    methods returns a key exactly when: the type of the graph allows the
    kind of edge, the attributes argument is [undefined], another falsy
    value ([null], [0], the empty string, [false]: [attributes || {}] puts
    an empty object in its place) or a plain object, both end nodes exist,
    the key is free, the edge is no self-loop unless the graph takes them,
    and, unless the graph is a multigraph, no stored edge of the same kind
    joins the two nodes already. *)
Theorem add_edge_succeeds_iff o cs call :
  let g := run_calls cs (new_Graph o) in
  let u := call_undirected o call in
  let s := call_source call in
  let t := call_target call in
  (∃ e, outcome_of (run_add_edge call) g = Return e)
  ↔ kind_allowed o u = true
    ∧ attributes_accepted (call_attributes call) = true
    ∧ is_Some (_nodes g !! s) ∧ is_Some (_nodes g !! t)
    ∧ _edges g !! call_key o call = None
    ∧ (selfLoops o = true ∨ s ≠ t)
    ∧ (multi o = true ∨ ¬ already_connected u s t g).
Proof.
  intros g u s t.
  destruct (inv_reachable o cs) as [Ho _]. fold g in Ho.
  pose proof (connected_iff o cs u s t) as Hconn. cbv zeta in Hconn. fold g in Hconn.
  unfold outcome_of. rewrite run_add_edge_run, _addEdge_run, precheck_cases. cbv zeta.
  rewrite Ho. fold u s t.
  rewrite <-!has_true, <-has_false, <-Hconn, <-attributes_accepted_spec.
  destruct (kind_allowed o u); simpl; [|split; [by intros [? ?]|by intros [? _]]].
  destruct (isPlainObject (attr_or_empty (call_attributes call))); simpl;
    [|split; [by intros [? ?]|by intros (_ & ? & _)]].
  destruct (has (_nodes g) s); simpl; [|split; [by intros [? ?]|by intros (_ & _ & ? & _)]].
  destruct (has (_nodes g) t); simpl;
    [|split; [by intros [? ?]|by intros (_ & _ & _ & ? & _)]].
  destruct (has (_edges g) (call_key o call)); simpl;
    [split; [by intros [? ?]|by intros (_ & _ & _ & _ & ? & _)]|].
  destruct (selfLoops o); simpl.
  - destruct (multi o); simpl.
    + split; [intros _|by eauto]. repeat split; auto.
    + destruct (connected u s t (computeIndex_state g)); simpl.
      * split; [by intros [? ?]|]. intros (_ & _ & _ & _ & _ & _ & [?|Hn]); [done|].
        by destruct Hn.
      * split; [intros _|by eauto]. repeat split; auto.
  - destruct (String.eqb_spec s t) as [Heq|Hne]; simpl.
    + split; [by intros [? ?]|]. by intros (_ & _ & _ & _ & _ & [?|?] & _).
    + destruct (multi o); simpl.
      * split; [intros _|by eauto]. repeat split; auto.
      * destruct (connected u s t (computeIndex_state g)); simpl.
        -- split; [by intros [? ?]|]. intros (_ & _ & _ & _ & _ & _ & [?|Hn]); [done|].
           by destruct Hn.
        -- split; [intros _|by eauto]. repeat split; auto.
Qed.

(** X16: in any state, a call of one of the six add-edge methods throws
    [InvalidArgumentsGraphError] exactly when the type of the graph allows
    the kind of edge and the attributes argument is a truthy value that is
    no plain object (a falsy one, [null] or [0] say, is replaced by an
    empty object and accepted); it throws [NotFoundGraphError] exactly when
    these two checks pass and the source or the target is no node of the
    graph; it never throws a [TypeError]. *)
Theorem add_edge_errors call g :
  let o := _options g in
  let u := call_undirected o call in
  let accepted := attributes_accepted (call_attributes call) in
  (outcome_of (run_add_edge call) g = Throw InvalidArgumentsGraphError
   ↔ kind_allowed o u = true ∧ accepted = false)
  ∧ (outcome_of (run_add_edge call) g = Throw NotFoundGraphError
     ↔ kind_allowed o u = true ∧ accepted = true
       ∧ (has (_nodes g) (call_source call) = false
          ∨ has (_nodes g) (call_target call) = false))
  ∧ outcome_of (run_add_edge call) g ≠ Throw TypeError.
Proof.
  intros o u accepted. unfold outcome_of.
  rewrite run_add_edge_run, _addEdge_run, precheck_cases. cbv zeta.
  rewrite attributes_accepted_spec. fold o u accepted.
  destruct (kind_allowed o u); simpl; [|intuition congruence].
  destruct accepted; simpl; [|intuition congruence].
  destruct (has (_nodes g) (call_source call)); simpl; [|intuition congruence].
  destruct (has (_nodes g) (call_target call)); simpl; [|intuition congruence].
  destruct (has (_edges g) (call_key o call) || negb (selfLoops o)
            && String.eqb (call_source call) (call_target call)); simpl;
    [intuition congruence|].
  destruct (negb (multi o) && connected u (call_source call) (call_target call)
              (if multi o then g else computeIndex_state g)); simpl;
    intuition congruence.
Qed.

(** ** Dropping edges and nodes *)

Lemma drop_edge_state_size e d g : _size (drop_edge_state e d g) = Z.pred (_size g).
Proof. unfold drop_edge_state. simpl. by destruct (computed (_indices_structure g)). Qed.

(** X17: in every reachable state, [dropEdge(edge)] throws
    [NotFoundGraphError] and changes nothing when the edge is not stored;
    when it is stored the call completes (the records of both ends are
    there to be updated), the edge is removed and no other, [size] drops by
    one and the nodes stay. *)
Theorem dropEdge_removes_the_edge o cs e :
  let g := run_calls cs (new_Graph o) in
  let g' := state_after (dropEdge e) g in
  (_edges g !! e = None → dropEdge e g = (Throw NotFoundGraphError, g))
  ∧ (is_Some (_edges g !! e) →
     outcome_of (dropEdge e) g = Return tt
     ∧ _edges g' = delete e (_edges g)
     ∧ size_ g' = size_ g - 1
     ∧ order g' = order g
     ∧ ∀ n, has (_nodes g') n = has (_nodes g) n).
Proof.
  intros g g'. destruct (inv_reachable o cs) as [_ Hc]. fold g in Hc.
  unfold g', state_after, outcome_of.
  destruct (dropEdge_consistent_run e g Hc) as [[Hn ->]|(d & He & ->)].
  - split; [done|]. rewrite Hn. by intros [? ?].
  - split; [by rewrite He|]. intros _. simpl. split; [done|].
    split; [apply drop_edge_state_edges|].
    unfold size_, order. rewrite drop_edge_state_size, drop_edge_state_order.
    split; [lia|]. split; [done|].
    intros n. apply has_is_Some, drop_edge_state_is_Some.
Qed.

(** X18: an edge that one of the six add-edge methods has just added can be
    dropped again, in any state: [dropEdge] of the returned key completes and
    leaves the stored edges, [size], [order] and the nodes as they were
    before the edge was added. *)
Theorem add_edge_then_dropEdge call g e g' :
  run_add_edge call g = (Return e, g') →
  let g'' := state_after (dropEdge e) g' in
  outcome_of (dropEdge e) g' = Return tt
  ∧ _edges g'' = _edges g
  ∧ size_ g'' = size_ g
  ∧ order g'' = order g
  ∧ ∀ n, has (_nodes g'') n = has (_nodes g) n.
Proof.
  intros Hrun. apply add_edge_success in Hrun as (_ & Hp & _ & ->).
  apply precheck_None in Hp as (Hs & Ht & Hfresh & _).
  set (o := _options g). set (g1 := if multi o then g else computeIndex_state g).
  set (d := mkEdgeData (call_undirected o call)
              (attr_stored (attr_or_empty (call_attributes call)))
              (call_source call) (call_target call)).
  set (g' := add_edge_state _ _ _ _ _ g1).
  assert (_edges g1 = _edges g) as He1.
  { unfold g1. destruct (multi o); [done|apply computeIndex_state_edges]. }
  assert (_size g1 = _size g) as Hs1.
  { unfold g1. destruct (multi o); [done|apply computeIndex_state_size]. }
  assert (_order g1 = _order g) as Ho1.
  { unfold g1. destruct (multi o); [done|apply computeIndex_state_order]. }
  assert (∀ n, has (_nodes g1) n = has (_nodes g) n) as Hn1.
  { intros n. unfold g1. destruct (multi o); [done|apply computeIndex_state_has]. }
  assert (_edges g' !! e = Some d) as Hd.
  { unfold g'. by rewrite add_edge_state_edges, lookup_insert_eq. }
  assert (∀ n, has (_nodes g') n = has (_nodes g) n) as Hn'.
  { intros n. rewrite <-Hn1. apply has_is_Some. apply add_edge_state_is_Some. }
  intros g''. unfold g'', state_after, outcome_of.
  rewrite dropEdge_run, Hd. simpl.
  rewrite !Hn'. apply has_true in Hs, Ht. rewrite Hs, Ht. simpl.
  split; [done|].
  split.
  { rewrite drop_edge_state_edges. unfold g'.
    rewrite add_edge_state_edges, He1. apply delete_insert_id. done. }
  unfold size_, order. rewrite drop_edge_state_size, drop_edge_state_order.
  unfold g'. rewrite add_edge_state_size, add_edge_state_order, Hs1, Ho1.
  split; [lia|]. split; [done|].
  intros n. rewrite <-Hn'. apply has_is_Some, drop_edge_state_is_Some.
Qed.

Lemma add_edge_then_dropEdge_witness :
  let call := CallAddUndirectedEdgeWithKey "k" "A" "B" AttrUndefined in
  let g := Scenario.AB in
  let g' := state_after (run_add_edge call) g in
  let g'' := state_after (dropEdge "k") g' in
  run_add_edge call g = (Return "k", g')
  ∧ outcome_of (dropEdge "k") g' = Return tt
  ∧ _edges g'' = _edges g
  ∧ size_ g'' = size_ g
  ∧ order g'' = order g
  ∧ ∀ n, has (_nodes g'') n = has (_nodes g) n.
Proof.
  split; [vm_compute; reflexivity|].
  apply (add_edge_then_dropEdge
           (CallAddUndirectedEdgeWithKey "k" "A" "B" AttrUndefined) Scenario.AB "k"
           (state_after
              (run_add_edge (CallAddUndirectedEdgeWithKey "k" "A" "B" AttrUndefined))
              Scenario.AB)).
  vm_compute. reflexivity.
Defined.

(** The loop of [dropNode] over keys that are all stored and all different:
    it runs to its end and removes exactly those edges. *)
Lemma for_each_dropEdge_all o l g :
  inv o g →
  NoDup l →
  (∀ e, e ∈ l → is_Some (_edges g !! e)) →
  outcome_of (for_each l dropEdge) g = Return tt
  ∧ (∀ e, _edges (state_after (for_each l dropEdge) g) !! e
          = if decide (e ∈ l) then None else _edges g !! e)
  ∧ _size (state_after (for_each l dropEdge) g) = _size g - Z.of_nat (length l).
Proof.
  revert g. induction l as [|e0 l IH]; intros g Hg Hnd Hall.
  - split; [done|]. split.
    + intros e. destruct (decide (e ∈ [])) as [Hin|_]; [by apply elem_of_nil in Hin|done].
    + unfold state_after. simpl. lia.
  - apply NoDup_cons in Hnd as [Hnotin Hnd].
    unfold state_after, outcome_of. simpl. unfold bind.
    destruct (dropEdge_consistent_run e0 g (proj2 Hg)) as [[Hn _]|(d0 & He0 & ->)].
    { destruct (Hall e0) as [? Hsome]; [by left|]. by rewrite Hn in Hsome. }
    pose proof (consistent_drop_edge_state e0 d0 g He0 (proj2 Hg)) as Hc1.
    assert (inv o (drop_edge_state e0 d0 g)) as Hg1.
    { split; [|done]. rewrite drop_edge_state_options. apply Hg. }
    destruct (IH _ Hg1 Hnd) as (Hout & Hedges & Hsize).
    { intros e He. rewrite drop_edge_state_edges, lookup_delete_ne.
      - apply Hall. by right.
      - intros ->. done. }
    unfold state_after, outcome_of in *.
    split; [done|]. split.
    + intros e. rewrite Hedges, drop_edge_state_edges.
      destruct (decide (e ∈ l)) as [Hin|Hnin].
      * rewrite decide_True; [done|by right].
      * destruct (decide (e = e0)) as [->|Hne].
        -- rewrite lookup_delete_eq, decide_True; [done|by left].
        -- rewrite lookup_delete_ne by done. rewrite decide_False; [done|].
           intros Hin. apply elem_of_cons in Hin as [?|?]; done.
    + rewrite Hsize, drop_edge_state_size. simpl length. lia.
Qed.

Lemma elem_of_edges_of_iff node g e :
  e ∈ edges_of node g
  ↔ ∃ d, _edges g !! e = Some d ∧ (e_source d = node ∨ e_target d = node).
Proof.
  split.
  - unfold edges_of. intros Hin. apply list_elem_of_fmap in Hin as ([e' d] & -> & Hin).
    apply elem_of_map_to_list in Hin. apply map_lookup_filter_Some in Hin as [Hd Hp].
    by exists d.
  - intros (d & Hd & Hp). by eapply elem_of_edges_of.
Qed.

Lemma NoDup_edges_of node g : NoDup (edges_of node g).
Proof. unfold edges_of. apply NoDup_fst_map_to_list. Qed.

Lemma dropNode_run o node g :
  inv o g →
  is_Some (_nodes g !! node) →
  let gl := state_after (for_each (edges_of node g) dropEdge) (computeIndex_state g) in
  dropNode node g = (Return tt, delete_node_state node gl)
  ∧ (∀ e, _edges gl !! e = if decide (e ∈ edges_of node g) then None else _edges g !! e)
  ∧ _size gl = _size g - Z.of_nat (length (edges_of node g))
  ∧ _order gl = _order g
  ∧ (∀ k, is_Some (_nodes gl !! k) ↔ is_Some (_nodes g !! k)).
Proof.
  intros Hg Hn gl. unfold gl.
  pose proof (inv_computeIndex_state o g Hg) as Hg1.
  rewrite <-(edges_of_computeIndex_state node g).
  destruct (for_each_dropEdge_all o (edges_of node (computeIndex_state g))
              (computeIndex_state g) Hg1 (NoDup_edges_of node _))
    as (Hout & Hedges & Hsize).
  { intros e He. apply elem_of_edges_of_iff in He as (d & Hd & _). by exists d. }
  destruct (for_each_dropEdge o (edges_of node (computeIndex_state g))
              (computeIndex_state g) Hg1) as (_ & Hord & Hkeys & _).
  split; [|split; [|split; [|split]]].
  - rewrite dropNode_eq. apply has_true in Hn. rewrite Hn.
    unfold bind at 1. unfold outcome_of, state_after in *.
    destruct (for_each (edges_of node (computeIndex_state g)) dropEdge
                (computeIndex_state g)) as [[[]|err] g1]; simpl in *; [|done].
    by mrun.
  - intros e. by rewrite Hedges, computeIndex_state_edges.
  - by rewrite Hsize, computeIndex_state_size.
  - by rewrite Hord, computeIndex_state_order.
  - intros k. by rewrite Hkeys, <-!has_true, computeIndex_state_has.
Qed.

(** X19: in every reachable state, [dropNode(node)] throws
    [NotFoundGraphError] and changes nothing when the node does not exist;
    when it exists the call completes, the node is gone and the other nodes
    stay, [order] drops by one, and the stored edges are those that did not
    touch the node, [size] dropping by the number of edges that did.  (The
    list of the node's edges is the modelled [edges(node)].) *)
Theorem dropNode_removes_node_and_its_edges o cs node :
  let g := run_calls cs (new_Graph o) in
  let g' := state_after (dropNode node) g in
  (_nodes g !! node = None → dropNode node g = (Throw NotFoundGraphError, g))
  ∧ (is_Some (_nodes g !! node) →
     outcome_of (dropNode node) g = Return tt
     ∧ (∀ n, has (_nodes g') n = if decide (n = node) then false else has (_nodes g) n)
     ∧ order g' = order g - 1
     ∧ (∀ e, _edges g' !! e =
             match _edges g !! e with
             | Some d => if decide (e_source d = node ∨ e_target d = node)
                         then None else Some d
             | None => None
             end)
     ∧ size_ g' = size_ g - Z.of_nat (length (edges_of node g))).
Proof.
  intros g g'. pose proof (inv_reachable o cs) as Hg. fold g in Hg. split.
  - intros Hn. unfold dropNode. unfold bind at 1. rewrite hasNode_run.
    apply has_false in Hn. by rewrite Hn.
  - intros Hn.
    destruct (dropNode_run o node g Hg Hn) as (Hrun & Hedges & Hsize & Hord & Hkeys).
    unfold g', outcome_of, state_after in *. rewrite Hrun. simpl.
    split; [done|]. split; [|split; [|split]].
    + intros n. destruct (decide (n = node)) as [->|Hne].
      * apply has_false. apply lookup_delete_eq.
      * apply has_is_Some. rewrite lookup_delete_ne by done. apply Hkeys.
    + unfold order. simpl. rewrite Hord. lia.
    + intros e. rewrite Hedges.
      destruct (_edges g !! e) as [d|] eqn:He.
      * destruct (decide (e_source d = node ∨ e_target d = node)) as [Ht|Hnt].
        -- rewrite decide_True; [done|]. apply elem_of_edges_of_iff. by exists d.
        -- rewrite decide_False; [done|]. intros Hin.
           apply elem_of_edges_of_iff in Hin as (d' & Hd' & Ht). congruence.
      * by destruct (decide (e ∈ edges_of node g)).
    + unfold size_. simpl. exact Hsize.
Qed.

(** ** Adding nodes *)

(** X20: [addNode(node, attributes)] throws [InvalidArgumentsGraphError]
    when attributes are given and are no plain object, else
    [UsageGraphError] when the node exists already, and in both cases
    changes nothing; otherwise it returns the node, which then exists:
    [order] has grown by one, the other nodes' records and the edges are
    untouched. *)
Theorem addNode_adds_one_node node attributes g :
  let plain := match attributes with Some a => isPlainObject a | None => true end in
  let g' := state_after (addNode node attributes) g in
  (plain = false → addNode node attributes g = (Throw InvalidArgumentsGraphError, g))
  ∧ (plain = true → is_Some (_nodes g !! node) →
     addNode node attributes g = (Throw UsageGraphError, g))
  ∧ (plain = true → _nodes g !! node = None →
     outcome_of (addNode node attributes) g = Return node
     ∧ hasNode node g' = (Return true, g')
     ∧ order g' = order g + 1
     ∧ size_ g' = size_ g
     ∧ _edges g' = _edges g
     ∧ ∀ n, n ≠ node → _nodes g' !! n = _nodes g !! n).
Proof.
  intros plain g'. unfold g', state_after, outcome_of. rewrite addNode_run.
  assert ((match attributes with Some a => negb (isPlainObject a) | None => false end)
          = negb plain) as -> by (unfold plain; by destruct attributes).
  split; [by intros ->|]. split.
  - intros -> Hn. apply has_true in Hn. by rewrite Hn.
  - intros -> Hn. apply has_false in Hn. rewrite Hn. simpl.
    split; [done|]. rewrite hasNode_run. simpl.
    split; [by rewrite (has_Some _ _ _ (lookup_insert_eq _ _ _))|].
    unfold order, size_. simpl. split; [lia|]. split; [done|]. split; [done|].
    intros n Hne. by rewrite lookup_insert_ne.
Qed.

(** X21: in every reachable state, adding a node that is not there and
    dropping it again restores the entities: [dropNode] completes, and
    [order], [size], the stored edges and the nodes with their attributes
    and counters are as they were before the node was added.  Nothing is
    said of the structure index, which [edges(node)] may have computed. *)
Theorem addNode_then_dropNode o cs node attributes :
  let g := run_calls cs (new_Graph o) in
  let g' := state_after (addNode node attributes) g in
  let g'' := state_after (dropNode node) g' in
  outcome_of (addNode node attributes) g = Return node →
  outcome_of (dropNode node) g' = Return tt
  ∧ order g'' = order g
  ∧ size_ g'' = size_ g
  ∧ _edges g'' = _edges g
  ∧ drop_registers <$> _nodes g'' = drop_registers <$> _nodes g.
Proof.
  intros g g' g''. pose proof (inv_reachable o cs) as Hg. fold g in Hg.
  pose proof (inv_addNode o node attributes g Hg) as Hg'. fold g' in Hg'.
  unfold g'', g', outcome_of, state_after in *. rewrite addNode_run in *.
  destruct (match attributes with Some a => negb (isPlainObject a) | None => false end);
    [done|].
  destruct (has (_nodes g) node) eqn:Hn; [done|]. simpl in *. intros _.
  apply has_false in Hn.
  set (a := attr_stored (attr_or_empty (default AttrUndefined attributes))) in *.
  set (g1 := add_node_state node a g) in *.
  assert (edges_of node g1 = []) as Hnil.
  { destruct (edges_of node g1) as [|e l] eqn:E; [done|].
    assert (e ∈ edges_of node g1) as Hin by (rewrite E; by left).
    apply elem_of_edges_of_iff in Hin as (d & Hd & Ht). simpl in Hd.
    destruct Hg as [_ Hc]. destruct (cons_ends g Hc e d Hd) as [[? Hs] [? Ht']].
    destruct Ht as [<-|<-]; congruence. }
  destruct (dropNode_run o node g1 Hg') as (Hrun & _).
  { unfold g1. simpl. by rewrite lookup_insert_eq. }
  rewrite Hrun, Hnil. unfold state_after, order, size_. simpl.
  rewrite computeIndex_state_order, computeIndex_state_size, computeIndex_state_edges.
  split; [done|]. split; [unfold g1; simpl; lia|]. split; [done|]. split; [done|].
  rewrite fmap_delete, computeIndex_state_drop. unfold g1. simpl.
  rewrite fmap_insert. apply delete_insert_id. by rewrite lookup_fmap, Hn.
Qed.

Lemma addNode_then_dropNode_witness :
  let g := run_calls [CallAddNode "A" None;
                      CallAdd (CallAddEdge "A" "A" AttrUndefined)]
             (new_Graph (Scenario.options Mixed)) in
  let g' := state_after (addNode "B" None) g in
  let g'' := state_after (dropNode "B") g' in
  outcome_of (addNode "B" None) g = Return "B"
  ∧ outcome_of (dropNode "B") g' = Return tt
  ∧ order g'' = order g
  ∧ size_ g'' = size_ g
  ∧ _edges g'' = _edges g
  ∧ drop_registers <$> _nodes g'' = drop_registers <$> _nodes g.
Proof.
  split; [vm_compute; reflexivity|].
  apply (addNode_then_dropNode (Scenario.options Mixed)
           [CallAddNode "A" None; CallAdd (CallAddEdge "A" "A" AttrUndefined)] "B" None).
  vm_compute. reflexivity.
Defined.

Lemma addNodes_cons n a l g :
  for_each ((n, a) :: l)
    (fun '(node, attributes) => addNode node (Some attributes) ;; ret tt) g
  = if negb (isPlainObject a) then (Throw InvalidArgumentsGraphError, g)
    else if has (_nodes g) n then (Throw UsageGraphError, g)
    else for_each l (fun '(node, attributes) => addNode node (Some attributes) ;; ret tt)
           (add_node_state n (attr_stored (attr_or_empty a)) g).
Proof.
  simpl. unfold bind at 1. unfold bind at 1. rewrite addNode_run. simpl.
  destruct (isPlainObject a); simpl; [|done].
  by destruct (has (_nodes g) n).
Qed.

Lemma addNodes_loop items g :
  let m := for_each items
             (fun '(node, attributes) => addNode node (Some attributes) ;; ret tt) in
  (outcome_of m g = Return tt
   ↔ NoDup items.*1
     ∧ ∀ n a, (n, a) ∈ items → _nodes g !! n = None ∧ isPlainObject a = true)
  ∧ (outcome_of m g = Return tt →
     (∀ k, has (_nodes (state_after m g)) k
           = has (_nodes g) k || bool_decide (k ∈ items.*1))
     ∧ _order (state_after m g) = _order g + Z.of_nat (length items)
     ∧ _size (state_after m g) = _size g
     ∧ _edges (state_after m g) = _edges g).
Proof.
  revert g. induction items as [|[n a] l IH]; intros g m.
  - unfold m, outcome_of, state_after. simpl. split.
    + split; [intros _|done]. split; [constructor|]. intros n a Hin.
      by apply elem_of_nil in Hin.
    + intros _. split; [|split; [lia|done]]. intros k.
      by rewrite orb_false_r.
  - unfold m, outcome_of, state_after. rewrite addNodes_cons.
    destruct (isPlainObject a) eqn:Ha; simpl negb; cbv iota.
    2:{ split; [|done]. split; [done|]. intros [_ Hall].
        destruct (Hall n a) as [_ ?]; [by left|congruence]. }
    destruct (has (_nodes g) n) eqn:Hn.
    { split; [|done]. split; [done|]. intros [_ Hall].
      destruct (Hall n a) as [Hnone _]; [by left|].
      apply has_false in Hnone. congruence. }
    set (g1 := add_node_state n (attr_stored (attr_or_empty a)) g).
    destruct (IH g1) as [Hiff Hpost]. unfold outcome_of, state_after in Hiff, Hpost.
    apply has_false in Hn.
    assert (∀ k, _nodes g1 !! k = None ↔ k ≠ n ∧ _nodes g !! k = None) as Hnew.
    { intros k. unfold g1. simpl. rewrite lookup_insert_None. intuition congruence. }
    split.
    + rewrite Hiff, fmap_cons, NoDup_cons. cbn [fst]. split.
      * intros [Hnd Hall]. split.
        -- split; [|done]. intros Hin. apply list_elem_of_fmap in Hin as ([n' a'] & Heq & Hin).
           simpl in Heq. subst n'. destruct (Hall n a' Hin) as [Hnone _].
           apply Hnew in Hnone as [? _]. done.
        -- intros n' a' Hin. apply elem_of_cons in Hin as [[= -> ->]|Hin]; [done|].
           destruct (Hall n' a' Hin) as [Hnone ?]. apply Hnew in Hnone as [_ ?]. done.
      * intros [[Hnotin Hnd] Hall]. split; [done|]. intros n' a' Hin.
        destruct (Hall n' a') as [Hnone ?]; [by right|]. split; [|done].
        apply Hnew. split; [|done]. intros ->. apply Hnotin.
        apply list_elem_of_fmap. by exists (n, a').
    + intros Hout. destruct (Hpost Hout) as (Hk & Hord & Hsz & Hed).
      split; [|split; [|split]].
      * intros k. rewrite Hk, fmap_cons. cbn [fst]. unfold g1. simpl.
        destruct (decide (k = n)) as [->|Hne].
        -- rewrite (has_Some _ _ _ (lookup_insert_eq _ _ _)). simpl.
           rewrite bool_decide_eq_true_2 by (by left). by rewrite orb_true_r.
        -- rewrite (has_is_Some (_nodes g) _ k k) by (by rewrite lookup_insert_ne).
           f_equal. apply bool_decide_ext. rewrite elem_of_cons. intuition congruence.
      * rewrite Hord. unfold g1. simpl. lia.
      * rewrite Hsz. done.
      * rewrite Hed. done.
Qed.

(** X22: [addNodesFrom] refuses a value that is no bunch with
    [InvalidArgumentsGraphError].  On a bunch it completes exactly when the
    nodes of the bunch are pairwise different, none exists already and all
    attributes are plain objects; the nodes of the graph are then the old
    ones and those of the bunch, [order] has grown by the length of the
    bunch, and the edges are untouched.  (The bunch is given as the list of
    nodes and attributes [overBunch] hands to its callback.) *)
Theorem addNodesFrom_adds_every_node items g :
  let g' := state_after (addNodesFrom (BunchOf items)) g in
  addNodesFrom NotABunch g = (Throw InvalidArgumentsGraphError, g)
  ∧ (outcome_of (addNodesFrom (BunchOf items)) g = Return tt
     ↔ NoDup items.*1
       ∧ ∀ n a, (n, a) ∈ items → _nodes g !! n = None ∧ isPlainObject a = true)
  ∧ (outcome_of (addNodesFrom (BunchOf items)) g = Return tt →
     (∀ k, has (_nodes g') k = has (_nodes g) k || bool_decide (k ∈ items.*1))
     ∧ order g' = order g + Z.of_nat (length items)
     ∧ size_ g' = size_ g
     ∧ _edges g' = _edges g).
Proof.
  intros g'. split; [done|]. apply (addNodes_loop items g).
Qed.

(** ** [clear] *)

Lemma flags_reachable o cs :
  let g := run_calls cs (new_Graph o) in
  synchronized (_indices_structure g) = true
  ∧ _indices_neighbors g = mkIndexState false true.
Proof.
  apply (reachable_ind o (λ g, synchronized (_indices_structure g) = true
                               ∧ _indices_neighbors g = mkIndexState false true)).
  - done.
  - intros g g' _ [H1 H2] Hs.
    destruct Hs as [ | | node attrs Hn | u0 e0 s0 t0 a0 Hp0 Hc0 | e0 d0 He0
                   | node Hn Hfar | ];
      unfold computeIndex_state, clearIndex_state, add_node_state, add_edge_state,
        drop_edge_state, delete_node_state, state_after, clear; simpl;
      try (destruct (computed (_indices_structure g)); simpl; by rewrite ?H1, ?H2).
Qed.

(** X23: in every reachable state [clear] leaves the instance as the
    constructor made it: no node, no edge, [order] and [size] zero, no index
    computed, same options. *)
Theorem clear_gives_new_graph o cs :
  clear (run_calls cs (new_Graph o)) = (Return tt, new_Graph o).
Proof.
  destruct (flags_reachable o cs) as [H1 H2].
  destruct (inv_reachable o cs) as [Ho _].
  destruct (run_calls cs (new_Graph o)) as [go gord gsize gnodes gedges gs gn].
  simpl in *. subst. unfold clear. mrun. unfold new_Graph, with_neighbors, with_structure,
    with_size, with_order, with_nodes, with_edges, set_computed. simpl.
  destruct gs as [c s]. simpl in *. by subst.
Qed.

(** ** The index as a cache *)

Lemma connected_same_edges o cs o' cs' u s t :
  _edges (run_calls cs (new_Graph o)) = _edges (run_calls cs' (new_Graph o')) →
  connected u s t (computeIndex_state (run_calls cs (new_Graph o)))
  = connected u s t (computeIndex_state (run_calls cs' (new_Graph o'))).
Proof.
  intros He. apply Bool.eq_true_iff_eq.
  pose proof (connected_iff o cs u s t) as H1.
  pose proof (connected_iff o' cs' u s t) as H2. cbv zeta in H1, H2.
  rewrite H1, H2. unfold already_connected. by rewrite He.
Qed.

(** X24: the structure index is a cache.  In every reachable state,
    discarding it with [clearIndex] changes no answer of the two-argument
    existence tests [hasDirectedEdge], [hasUndirectedEdge] and [hasEdge]. *)
Theorem clearIndex_keeps_answers o cs name s t :
  let g := run_calls cs (new_Graph o) in
  let g' := state_after (clearIndex name) g in
  outcome_of (hasDirectedEdge [s; t]) g' = outcome_of (hasDirectedEdge [s; t]) g
  ∧ outcome_of (hasUndirectedEdge [s; t]) g' = outcome_of (hasUndirectedEdge [s; t]) g
  ∧ outcome_of (hasEdge [s; t]) g' = outcome_of (hasEdge [s; t]) g.
Proof.
  intros g g'.
  assert (g' = run_calls (cs ++ [CallClearIndex name]) (new_Graph o)) as Hg'.
  { unfold run_calls. by rewrite foldl_app. }
  assert (_edges g' = _edges g) as He.
  { unfold g'. destruct (clearIndex_state_cases name g) as [-> | ->]; [done|].
    unfold clearIndex_state. by destruct (computed (_indices_structure g)). }
  assert (∀ u, connected u s t (computeIndex_state g')
               = connected u s t (computeIndex_state g)) as Hc.
  { intros u. rewrite Hg'. apply connected_same_edges. by rewrite <-Hg'. }
  unfold outcome_of.
  rewrite !hasDirectedEdge2_run, !hasUndirectedEdge2_run, !hasEdge2_run. simpl.
  pose proof (Hc false) as Hd. pose proof (Hc true) as Hu. simpl in Hd, Hu.
  by rewrite Hd, Hu.
Qed.

(** ** Reading an edge *)

Lemma edge_absent_run e g :
  _edges g !! e = None →
  source e g = (Throw NotFoundGraphError, g)
  ∧ target e g = (Throw NotFoundGraphError, g)
  ∧ extremities e g = (Throw NotFoundGraphError, g)
  ∧ undirected e g = (Throw NotFoundGraphError, g)
  ∧ directed e g = (Throw NotFoundGraphError, g).
Proof.
  intros He. apply has_false in He.
  unfold source, target, extremities, directed, undirected.
  change (hasEdge1 e) with (hasEdge [e]).
  unfold bind. by rewrite !hasEdge1_run, He.
Qed.



(** X26: the five readers of an edge agree with [hasEdge(edge)] and with one
    another, in any state.  When [hasEdge(edge)] is false all five throw
    [NotFoundGraphError]; when it is true they return, [extremities] is the
    pair of [source] and [target], and [directed] is the negation of
    [undirected].  None of them changes the instance. *)
Theorem edge_readers_agree g e :
  (hasEdge [e] g = (Return false, g)
   ∧ source e g = (Throw NotFoundGraphError, g)
   ∧ target e g = (Throw NotFoundGraphError, g)
   ∧ extremities e g = (Throw NotFoundGraphError, g)
   ∧ undirected e g = (Throw NotFoundGraphError, g)
   ∧ directed e g = (Throw NotFoundGraphError, g))
  ∨ (hasEdge [e] g = (Return true, g)
     ∧ ∃ s t u,
         source e g = (Return s, g)
         ∧ target e g = (Return t, g)
         ∧ extremities e g = (Return (s, t), g)
         ∧ undirected e g = (Return u, g)
         ∧ directed e g = (Return (negb u), g)).
Proof.
  rewrite hasEdge1_run. destruct (_edges g !! e) as [d|] eqn:He.
  - right. rewrite (has_Some _ _ _ He). split; [done|].
    exists (e_source d), (e_target d), (e_undirected d).
    by rewrite (source_run _ _ _ He), (target_run _ _ _ He), (extremities_run _ _ _ He),
      (undirected_run _ _ _ He), (directed_run _ _ _ He).
  - left. apply has_false in He as Hh. rewrite Hh. split; [done|].
    by apply edge_absent_run.
Qed.

(** X27: on an object store ([map = false]) the one-argument forms of
    [hasDirectedEdge] and [hasUndirectedEdge] test the kind of the edge:
    the first is true exactly of the stored directed edges, the second
    exactly of the stored undirected ones; neither throws nor changes the
    instance. *)
Theorem has_kind_edge_object_tests_kind g e :
  map (_options g) = false →
  hasDirectedEdge [e] g
  = (Return (match _edges g !! e with
             | Some d => negb (e_undirected d)
             | None => false
             end), g)
  ∧ hasUndirectedEdge [e] g
    = (Return (match _edges g !! e with
               | Some d => e_undirected d
               | None => false
               end), g).
Proof.
  intros Hm. unfold hasDirectedEdge, hasUndirectedEdge, bind, get.
  rewrite Hm. destruct (_edges g !! e) as [d|] eqn:He.
  - rewrite (has_Some _ _ _ He).
    by rewrite (directed_run _ _ _ He), (undirected_run _ _ _ He).
  - apply has_false in He. by rewrite He.
Qed.

Lemma has_kind_edge_object_tests_kind_witness :
  map (_options Scenario2.graph) = false
  ∧ hasDirectedEdge ["u"] Scenario2.graph = (Return false, Scenario2.graph)
  ∧ hasUndirectedEdge ["u"] Scenario2.graph = (Return true, Scenario2.graph).
Proof.
  split; [reflexivity|].
  apply (has_kind_edge_object_tests_kind Scenario2.graph "u"). reflexivity.
Defined.

(** ** [addEdge] and the type of the graph *)

(** X28: [addEdge] adds the kind of edge the type of the graph calls for.
    On a directed or mixed graph it behaves in every respect as
    [addDirectedEdge] does; on an undirected graph it behaves as
    [addUndirectedEdgeWithKey] called with the key the generator gives when
    told that the edge is undirected. *)
Theorem addEdge_follows_graph_type s t a g :
  (type (_options g) ≠ Undirected → addEdge s t a g = addDirectedEdge s t a g)
  ∧ (type (_options g) = Undirected →
     addEdge s t a g
     = addUndirectedEdgeWithKey (edgeKeyGenerator (_options g) true s t a) s t a g).
Proof.
  unfold addEdge, addDirectedEdge, addUndirectedEdgeWithKey, is_undirected_type, bind, get.
  simpl. rewrite !_addEdge_run. unfold type_is. split; intros Ht.
  - by rewrite bool_decide_eq_false_2.
  - by rewrite bool_decide_eq_true_2.
Qed.
